(** * bloom.cpp: checkpoint loader, forward pass and generation loops

    A shallow embedding of [bloom.cpp].  Integers are [Z] with the
    wrap-around of their C++ type written out; files and strings are byte
    lists; [std::map] is a key-sorted association list (coqutil's
    [SortedList]); the tensor kernels of ggml, the tokenizer and the sampler
    of [utils.cpp] are parameters of the development. *)

From Stdlib Require Import ZArith List Lia String Bool DecimalString.
From coqutil Require Import Byte Word.LittleEndianList.
From coqutil Require Import Map.Interface Map.SortedList Map.SortedListZ
  Map.SortedListString.
Import ListNotations.
Local Open Scope Z_scope.

(** ** Machine integers *)

Module Int.

(** [int32_t]: two's complement wrap-around. *)
Definition i32 (z : Z) : Z := (z + 2 ^ 31) mod 2 ^ 32 - 2 ^ 31.

(** [uint32_t] and [size_t] (64 bits). *)
Definition u32 (z : Z) : Z := z mod 2 ^ 32.
Definition u64 (z : Z) : Z := z mod 2 ^ 64.

Definition INT32_MAX : Z := 2 ^ 31 - 1.
Definition INT32_MIN : Z := - 2 ^ 31.

Definition add32 (a b : Z) : Z := i32 (a + b).
Definition sub32 (a b : Z) : Z := i32 (a - b).
Definition mul32 (a b : Z) : Z := i32 (a * b).

(** C++ [/] on [int] truncates toward zero; a zero divisor is undefined
    in C++ and gives [0] here ([Z.quot a 0 = 0]). *)
Definition div32 (a b : Z) : Z := i32 (Z.quot a b).

Definition in_i32 (z : Z) : Prop := INT32_MIN <= z <= INT32_MAX.

Lemma i32_small z : in_i32 z -> i32 z = z.
Proof.
  unfold in_i32, INT32_MIN, INT32_MAX, i32. intros H.
  rewrite Z.mod_small; lia.
Qed.

Lemma i32_range z : in_i32 (i32 z).
Proof.
  unfold in_i32, INT32_MIN, INT32_MAX, i32.
  pose proof (Z.mod_pos_bound (z + 2 ^ 31) (2 ^ 32) ltac:(lia)). lia.
Qed.

Lemma u64_small z : 0 <= z < 2 ^ 64 -> u64 z = z.
Proof. intros H. unfold u64. now apply Z.mod_small. Qed.

End Int.
Import Int.

(** ** Binary input streams ([std::ifstream]) *)

Record ifstream := mk_ifstream {
  rest : list byte;   (* bytes not yet consumed *)
  pos  : Z;           (* bytes consumed so far *)
  good : bool         (* no failbit / eofbit *)
}.

Definition ifstream_open (bytes : list byte) : ifstream :=
  {| rest := bytes; pos := 0; good := true |}.

(** [fin.read(dst, n)]: the [n] bytes of the destination are replaced one by
    one; a short file leaves the tail of the destination as it was and puts
    the stream in the failed state, in which later reads do nothing. *)
Definition fin_read (n : nat) (dst : list byte) (s : ifstream)
  : list byte * ifstream :=
  if good s then
    if (n <=? List.length (rest s))%nat then
      (firstn n (rest s),
       {| rest := skipn n (rest s); pos := pos s + Z.of_nat n; good := true |})
    else
      (rest s ++ skipn (List.length (rest s)) dst,
       {| rest := []; pos := pos s + Z.of_nat (List.length (rest s));
          good := false |})
  else (dst, s).

(** Reading a 32-bit little-endian field over its previous value. *)
Definition read_u32 (old : Z) (s : ifstream) : Z * ifstream :=
  let '(bs, s') := fin_read 4 (le_split 4 old) s in (le_combine bs, s').

Definition read_i32 (old : Z) (s : ifstream) : Z * ifstream :=
  let '(v, s') := read_u32 old s in (i32 v, s').

(** [fin.tellg()] is -1 on a failed stream. *)
Definition tellg (s : ifstream) : Z := if good s then pos s else -1.

(** ** Hyperparameters *)

Record bloom_hparams := mk_hparams {
  n_vocab : Z;
  n_ctx   : Z;
  n_embd  : Z;
  n_mult  : Z;
  n_head  : Z;
  n_layer : Z;
  f16     : Z
}.

Definition bloom_hparams_default : bloom_hparams :=
  {| n_vocab := 32000; n_ctx := 512; n_embd := 4096; n_mult := 256;
     n_head := 32; n_layer := 32; f16 := 1 |}.

(** The feed-forward inner width, line 122:
    [((4*n_embd + n_mult - 1)/n_mult)*n_mult] on [int32_t]. *)
Definition n_ff_of (n_embd n_mult : Z) : Z :=
  mul32 (div32 (sub32 (add32 (mul32 4 n_embd) n_mult) 1) n_mult) n_mult.

(** [v] is the smallest multiple of [m] that is at least [lo]. *)
Definition least_multiple_geq (m lo v : Z) : Prop :=
  (m | v) /\ lo <= v /\ forall w, (m | w) -> lo <= w -> v <= w.

(** ** Storage precision *)

Inductive ggml_type := GGML_TYPE_F32 | GGML_TYPE_F16 | GGML_TYPE_Q4_0
                     | GGML_TYPE_Q4_1.

(** The [switch (model.hparams.f16)] of the loader. *)
Definition wtype_of_f16 (f : Z) : option ggml_type :=
  if f =? 0 then Some GGML_TYPE_F32
  else if f =? 1 then Some GGML_TYPE_F16
  else if f =? 2 then Some GGML_TYPE_Q4_0
  else if f =? 3 then Some GGML_TYPE_Q4_1
  else None.

(** ** Vocabulary ([gpt_vocab], as [bloom.cpp] uses it) *)

Definition token := Z.

Record gpt_vocab := mk_vocab {
  token_to_id : SortedListString.map Z;
  id_to_token : SortedListZ.map string;
  words       : SortedListZ.map (list string);
  space_words : SortedListZ.map (list string)
}.

Definition gpt_vocab_empty : gpt_vocab :=
  {| token_to_id := map.empty; id_to_token := map.empty;
     words := map.empty; space_words := map.empty |}.

(** [m[k].push_back(w)] *)
Definition bucket_push (m : SortedListZ.map (list string)) (k : Z) (w : string)
  : SortedListZ.map (list string) :=
  match map.get m k with
  | Some ws => map.put m k (ws ++ [w])
  | None => map.put m k [w]
  end.

(** [word.resize(len)]: keeps a prefix, pads with NUL bytes. *)
Definition resize_bytes (w : list byte) (len : nat) : list byte :=
  firstn len w ++ repeat Byte.x00 (len - List.length w).

(** The loop over the vocabulary entries, lines 147-161.  [len] is declared
    without initialiser inside the loop: [junk] is what it holds when the
    read fails. *)
Fixpoint load_vocab_words (junk : Z) (ids : list Z) (word : list byte)
    (s : ifstream) (v : gpt_vocab) : gpt_vocab * ifstream :=
  match ids with
  | [] => (v, s)
  | i :: ids' =>
      let '(len, s1) := read_u32 junk s in
      let word1 := resize_bytes word (Z.to_nat len) in
      let '(word2, s2) := fin_read (Z.to_nat len) word1 s1 in
      let w := string_of_list_byte word2 in
      let v' := {| token_to_id := map.put (token_to_id v) w i;
                   id_to_token := map.put (id_to_token v) i w;
                   words := words v; space_words := space_words v |} in
      load_vocab_words junk ids' word2 s2 v'
  end.

(** One step of the bucket-index loop, lines 163-174. *)
Definition index_word (v : gpt_vocab) (w : string) : gpt_vocab :=
  match list_byte_of_string w with
  | [] => v
  | c0 :: tl =>
      if Byte.eqb c0 Byte.x20 then
        match tl with
        | c1 :: _ =>
            {| token_to_id := token_to_id v; id_to_token := id_to_token v;
               words := words v;
               space_words := bucket_push (space_words v) (byte.unsigned c1) w |}
        | [] => v
        end
      else
        {| token_to_id := token_to_id v; id_to_token := id_to_token v;
           words := bucket_push (words v) (byte.unsigned c0) w;
           space_words := space_words v |}
  end.

(** [for (int i = a; ...; i++)], [k] iterations. *)
Fixpoint int_from (a : Z) (k : nat) : list Z :=
  match k with
  | O => []
  | S k' => a :: int_from (a + 1) k'
  end.

(** [for (int i = 0; i < n; i++)] *)
Definition int_range (n : Z) : list Z := int_from 0 (Z.to_nat n).

Definition load_vocab (junk : Z) (n_vocab : Z) (s : ifstream) (v : gpt_vocab)
  : gpt_vocab * ifstream :=
  let '(v1, s1) := load_vocab_words junk (int_range n_vocab) [] s v in
  (fold_left index_word (List.map snd (SortedList.value (id_to_token v1))) v1, s1).

(** ** Process-wide state

    [buf_size] is the function-local static of [bloom_eval]; the other
    fields record what the process did: the arenas created by [ggml_init]
    without a caller buffer, the forward passes submitted (cache position
    and tokens), and the indices at which [chat] read its tokenized input
    while refilling the history (with the size of the vector read). *)

Record proc := mk_proc {
  buf_size      : Z;
  arenas        : list Z;
  evals         : list (Z * list token);
  history_reads : list (Z * Z)
}.

Definition proc_init : proc :=
  {| buf_size := u64 (512 * 10000 * 10000); arenas := []; evals := [];
     history_reads := [] |}.

Definition BLOOM_MAGIC : Z := 0x67676d6c.

(** Running an undefined operation (a view outside its tensor, a read before
    a buffer) yields [None]; [x <- e ;; k] propagates it. *)
Notation "x <- e ;; k" :=
  (match e with Some x => k | None => None end)
  (at level 61, e at next level, right associativity).
Notation "' p <- e ;; k" :=
  (match e with Some p => k | None => None end)
  (at level 61, p pattern, e at next level, right associativity).

(** ** Tensors in memory *)

Section Tensor.

Context {F : Type}.

(** A tensor computed inside the graph, by flat element index. *)
Definition act := Z -> F.

(** [ggml_view_2d(cur, ne0, ne1, nb1, offset)] read out row by row; the
    row stride and the offset are counted in elements. *)
Definition view_2d (cur : act) (ne0 ne1 nb1 off : Z) : list F :=
  flat_map
    (fun j => List.map (fun i => cur (off + j * nb1 + i)) (int_range ne0))
    (int_range ne1).

(** [ggml_element_size] of an F32 tensor. *)
Definition F32_SIZE : Z := 4.

(** [ggml_view_1d(mem, ne0, offset)] of an F32 tensor, [offset] in bytes:
    the elements it covers, when it lies inside the tensor.  ggml checks
    neither the offset nor the length: a view that leaves the tensor
    addresses memory that is not the tensor's, and [None] stands for what
    the code does with it, which is not defined. *)
Definition view_1d (mem : list F) (ne0 offset : Z) : option (list F) :=
  let o := offset / F32_SIZE in
  if (0 <=? ne0) && (o + ne0 <=? Z.of_nat (List.length mem))
  then Some (firstn (Z.to_nat ne0) (skipn (Z.to_nat o) mem))
  else None.

(** [ggml_cpy(src, ggml_view_1d(mem, ne0, offset))] once the graph has
    run: the view's elements are overwritten by those of [src].  The view
    is taken on the whole cache tensor, so a slice that leaves the region
    of its layer and stays inside the tensor is written into the region of
    the next layer; neither ggml nor lines 650-655 check for it. *)
Definition cpy_into_view (src : list F) (mem : list F) (ne0 offset : Z)
  : option (list F) :=
  let o := offset / F32_SIZE in
  if (0 <=? ne0) && (o + ne0 <=? Z.of_nat (List.length mem))
     && (Z.of_nat (List.length src) =? ne0)
  then Some (firstn (Z.to_nat o) mem ++ src
               ++ skipn (Z.to_nat (o + ne0)) mem)
  else None.

End Tensor.

(** ** The program *)

Section Bloom.

(** Floating-point values and the loaded weight tensors are opaque. *)
Variable F : Type.
Variable W : Type.

(** *** ggml, as [bloom_eval] drives it

    The graph of one forward pass, cut where it touches the key/value
    memory: the embedding with its normalisation, the fused
    query/key/value projection of a layer (rows of [3*n_embd] elements),
    the rest of the layer given the cache views, and the final
    normalisation with the output projection (rows of [n_vocab] logits). *)
Variable k_embed : W -> list token -> @act F.
Variable k_qkv   : W -> Z -> @act F -> @act F.
Variable k_block : W -> Z -> Z -> Z -> @act F -> @act F -> list F -> list F
                   -> @act F.
Variable k_head  : W -> @act F -> @act F.

(** [ggml_used_mem(ctx0)] after a pass at cache position [n_past] over
    [N] tokens, [realloc] succeeding or not for a size, and the
    double-precision [1.1*x] truncated to [size_t]. *)
Variable ggml_used_mem : bloom_hparams -> Z -> Z -> Z.
Variable realloc_ok    : Z -> bool.
Variable scale_1_1     : Z -> Z.

Record bloom_model := mk_model {
  hparams  : bloom_hparams;
  weights  : option W;        (* the tensors registered by name, once loaded *)
  memory_k : list F;
  memory_v : list F;
  ctx      : option Z         (* the parameter arena, by its size *)
}.

Definition set_memory (m : bloom_model) (mk mv : list F) : bloom_model :=
  {| hparams := hparams m; weights := weights m; memory_k := mk;
     memory_v := mv; ctx := ctx m |}.

Definition set_buf_size (g : proc) (b : Z) : proc :=
  {| buf_size := b; arenas := arenas g; evals := evals g;
     history_reads := history_reads g |}.

Definition log_eval (g : proc) (n_past : Z) (embd : list token) : proc :=
  {| buf_size := buf_size g; arenas := arenas g;
     evals := evals g ++ [(n_past, embd)];
     history_reads := history_reads g |}.

(** *** bloom_eval *)

Section Eval.

Variable w  : W.
Variable hp : bloom_hparams.
Variable n_past : Z.   (* const int n_past *)
Variable N : Z.        (* const int N = embd_inp.size() *)

(** Byte offset of this call's slice in a cache tensor, lines 651-652:
    [(ggml_element_size(mem)*n_embd)*(il*n_ctx + n_past)]. *)
Definition slice_offset (il : Z) : Z :=
  u64 (u64 (F32_SIZE * u64 (n_embd hp))
       * u64 (add32 (mul32 il (n_ctx hp)) n_past)).

(** Byte offset of a layer's region, lines 668 and 697:
    [il*n_ctx*ggml_element_size(mem)*n_embd]. *)
Definition layer_offset (il : Z) : Z :=
  u64 (u64 (u64 (mul32 il (n_ctx hp)) * F32_SIZE) * u64 (n_embd hp)).

Definition Kcur (cur : @act F) : list F :=
  view_2d cur (n_embd hp) N (3 * n_embd hp) (1 * n_embd hp).

Definition Vcur (cur : @act F) : list F :=
  view_2d cur (n_embd hp) N (3 * n_embd hp) (2 * n_embd hp).

(** One iteration of the loop over the layers, lines 616-753. *)
Definition eval_layer (il : Z) (st : @act F * list F * list F)
  : option (@act F * list F * list F) :=
  let '(inpL, mk, mv) := st in
  let cur := k_qkv w il inpL in
  ' (mk1, mv1) <-
    (if 1 <=? N then
       mk1 <- cpy_into_view (Kcur cur) mk (mul32 N (n_embd hp))
                (slice_offset il) ;;
       mv1 <- cpy_into_view (Vcur cur) mv (mul32 N (n_embd hp))
                (slice_offset il) ;;
       Some (mk1, mv1)
     else Some (mk, mv)) ;;
  K <- view_1d mk1 (mul32 (add32 n_past N) (n_embd hp)) (layer_offset il) ;;
  V <- view_1d mv1 (mul32 (add32 n_past N) (n_embd hp)) (layer_offset il) ;;
  Some (k_block w il n_past N inpL cur K V, mk1, mv1).

Fixpoint eval_layers (ils : list Z) (st : @act F * list F * list F)
  : option (@act F * list F * list F) :=
  match ils with
  | [] => Some st
  | il :: ils' => st' <- eval_layer il st ;; eval_layers ils' st'
  end.

(** Row [r] of a logits tensor with rows of [n_vocab] elements. *)
Definition logits_row (logits : @act F) (r : Z) : list F :=
  List.map (fun v => logits (n_vocab hp * r + v)) (int_range (n_vocab hp)).

(** Lines 787-789: [embd_w.resize(n_vocab)] and the [memcpy] from
    [data + n_vocab*(N-1)], the offset being computed on [int]; a
    negative offset or size is undefined. *)
Definition last_row (logits : @act F) : option (list F) :=
  let o := mul32 (n_vocab hp) (sub32 N 1) in
  if (o <? 0) || (n_vocab hp <? 0) then None
  else Some (List.map (fun v => logits (o + v)) (int_range (n_vocab hp))).

End Eval.

(** [const int N = embd_inp.size()] *)
Definition input_length (embd_inp : list token) : Z :=
  i32 (Z.of_nat (List.length embd_inp)).

(** The graph of a call after the loop over the layers [ils]: the
    activations that leave the last of them, and both cache tensors. *)
Definition eval_upto (w : W) (model : bloom_model) (n_past : Z)
    (embd_inp : list token) (ils : list Z)
  : option (@act F * list F * list F) :=
  eval_layers w (hparams model) n_past (input_length embd_inp) ils
    (k_embed w embd_inp, memory_k model, memory_v model).

Definition eval_graph (w : W) (model : bloom_model) (n_past : Z)
    (embd_inp : list token) : option (@act F * list F * list F) :=
  eval_upto w model n_past embd_inp (int_range (n_layer (hparams model))).

(** The results of a call: the returned flag, the model with its cache,
    [embd_w], [mem_per_token] and the process state. *)
Definition eval_result : Type := bool * bloom_model * list F * Z * proc.

Definition bloom_eval (model : bloom_model) (n_threads n_past : Z)
    (embd_inp : list token) (embd_w : list F) (mem_per_token : Z) (g : proc)
  : option eval_result :=
  let N := input_length embd_inp in
  let hp := hparams model in
  let g := log_eval g n_past embd_inp in
  let need := u64 (mem_per_token * u64 N) in
  let grow := (0 <? mem_per_token) && (buf_size g <? need) in
  let g1 := if grow then set_buf_size g (u64 (scale_1_1 need)) else g in
  if grow && negb (realloc_ok (buf_size g1)) then
    Some (false, model, embd_w, mem_per_token, g1)
  else
    w <- weights model ;;
    ' (inpL, mk, mv) <- eval_graph w model n_past embd_inp ;;
    row <- last_row hp N (k_head w inpL) ;;
    mem_per_token' <-
      (if mem_per_token =? 0 then
         (* ggml_used_mem(ctx0)/N divides by zero when N = 0 *)
         if N =? 0 then None
         else Some (u64 (ggml_used_mem hp n_past N) / u64 N)
       else Some mem_per_token) ;;
    Some (true, set_memory model mk mv, row, mem_per_token', g1).

(** *** Collaborators of the loader

    The files that can be opened; the value an uninitialised 32-bit local
    holds; the arena size of lines 197-239, a sum of [ggml_type_sizef]
    products in floating point; whether [ggml_init] obtains an arena of that
    size; the contents of freshly allocated tensor memory; and the loop
    that streams the tensor records of the [n_parts] parts, lines 340-544,
    from the file offset where the vocabulary ended, returning its flag and
    the tensors it filled. *)
Variable fs           : string -> option (list byte).
Variable stack_junk   : Z.
Variable ctx_size_of  : bloom_hparams -> Z -> ggml_type -> Z.
Variable ggml_init_ok : Z -> bool.
Variable arena_junk   : Z -> F.
Variable read_weights : bloom_hparams -> Z -> Z -> list byte -> Z -> bool * W.

Definition set_hparams (m : bloom_model) (hp : bloom_hparams) : bloom_model :=
  {| hparams := hp; weights := weights m; memory_k := memory_k m;
     memory_v := memory_v m; ctx := ctx m |}.

Definition set_ctx (m : bloom_model) (c : option Z) : bloom_model :=
  {| hparams := hparams m; weights := weights m; memory_k := memory_k m;
     memory_v := memory_v m; ctx := c |}.

Definition set_weights (m : bloom_model) (w : option W) : bloom_model :=
  {| hparams := hparams m; weights := w; memory_k := memory_k m;
     memory_v := memory_v m; ctx := ctx m |}.

Definition log_arena (g : proc) (size : Z) : proc :=
  {| buf_size := buf_size g; arenas := arenas g ++ [size]; evals := evals g;
     history_reads := history_reads g |}.

(** Lines 108-120: the six fields read in file order over the values the
    model holds, and the context length of the caller. *)
Definition load_hparams (h : bloom_hparams) (n_ctx' : Z) (fin : ifstream)
  : bloom_hparams * ifstream :=
  let '(v_vocab, fin) := read_i32 (n_vocab h) fin in
  let '(v_embd, fin)  := read_i32 (n_embd h) fin in
  let '(v_mult, fin)  := read_i32 (n_mult h) fin in
  let '(v_head, fin)  := read_i32 (n_head h) fin in
  let '(v_layer, fin) := read_i32 (n_layer h) fin in
  let '(v_f16, fin)   := read_i32 (f16 h) fin in
  ({| n_vocab := v_vocab; n_ctx := n_ctx'; n_embd := v_embd; n_mult := v_mult;
      n_head := v_head; n_layer := v_layer; f16 := v_f16 |}, fin).

(** [bloom_model_load]: the returned flag with the model, the vocabulary
    and the process state it leaves.  (The test of lines 141-145 compares
    [model.hparams.n_vocab] with a copy of itself and never fires.  The
    weight tensors that lines 255-319 create in the context and that the
    loop of lines 340-544 fills are the value of type [W] returned by
    [read_weights].  Line 122 divides by [n_mult]: on a header with
    [n_mult = 0] the code stops there on a division by zero, which this
    total function cannot say; what it returns for such a header is not
    what the code does.) *)
Definition bloom_model_load (fname : string) (model : bloom_model)
    (vocab : gpt_vocab) (n_ctx' : Z) (g : proc)
  : bool * bloom_model * gpt_vocab * proc :=
  match fs fname with
  | None => (false, model, vocab, g)
  | Some bytes =>
      let fin := ifstream_open bytes in
      (* verify magic *)
      let '(magic, fin) := read_u32 stack_junk fin in
      if negb (magic =? BLOOM_MAGIC) then (false, model, vocab, g)
      else
        (* load hparams *)
        let '(hp, fin) := load_hparams (hparams model) n_ctx' fin in
        let n_ff := n_ff_of (n_embd hp) (n_mult hp) in
        let n_parts := 1 in
        let model := set_hparams model hp in
        (* load vocab *)
        let '(vocab, fin) := load_vocab stack_junk (n_vocab hp) fin vocab in
        match wtype_of_f16 (f16 hp) with
        | None => (false, model, vocab, g)
        | Some wtype =>
            (* create the ggml context *)
            let ctx_size := ctx_size_of hp n_ff wtype in
            if negb (ggml_init_ok ctx_size) then
              (false, set_ctx model None, vocab, g)
            else
              let g := log_arena g ctx_size in
              let model := set_ctx model (Some ctx_size) in
              (* key + value memory *)
              let n_mem := mul32 (n_layer hp) (n_ctx hp) in
              let n_elements := mul32 (n_embd hp) n_mem in
              let model :=
                set_memory model
                  (List.map arena_junk (int_range n_elements))
                  (List.map (fun i => arena_junk (n_elements + i))
                            (int_range n_elements)) in
              let file_offset := tellg fin in
              let '(ok, w) := read_weights hp n_ff n_parts bytes file_offset in
              (ok, set_weights model (Some w), vocab, g)
        end
  end.

(** *** Generation parameters, tokenizer, sampler

    [gpt_params] with the fields [bloom.cpp] reads; its default member
    initialisers are in [utils.h].  The tokenizer, the sampler and the
    Mersenne twister are used through their signatures. *)
Record gpt_params := mk_params {
  seed           : Z;
  n_threads      : Z;
  n_predict      : Z;
  repeat_last_n  : Z;
  top_k          : Z;
  top_p          : F;
  temp           : F;
  repeat_penalty : F;
  n_batch        : Z;
  prompt         : string
}.

Variable gpt_params_default : gpt_params.

Variable Rng : Type.
Variable mt19937 : Z -> Rng.
Variable bloom_tokenize : gpt_vocab -> string -> bool -> list token.
Variable bloom_sample_top_p :
  gpt_vocab -> list F -> list token -> F -> F -> Z -> F -> Rng -> token * Rng.

(** What [embd_inp[k]] finds past the end of the vector. *)
Variable heap_junk : Z -> token.

Definition string_size (s : string) : Z := Z.of_nat (String.length s).

(** *** Sessions *)

Record ChatContext := mk_ctx {
  model         : bloom_model;
  vocab         : gpt_vocab;
  mem_per_token : Z;
  n_chars       : Z;
  n_past        : Z;
  last_n_tokens : list token
}.

(** [new ChatContext{}] *)
Definition ChatContext_new : ChatContext :=
  {| model := {| hparams := bloom_hparams_default; weights := None;
                 memory_k := []; memory_v := []; ctx := None |};
     vocab := gpt_vocab_empty; mem_per_token := 0; n_chars := 0; n_past := 0;
     last_n_tokens := [] |}.

(** [bloom_load]: [Some (None, _)] is the null handle; a negative
    [repeat_last_n] makes [resize] throw. *)
Definition bloom_load (fname : string) (n_ctx' n_threads' : Z) (g : proc)
  : option (option ChatContext * proc) :=
  let cc := ChatContext_new in
  (* init model and vocab *)
  let '(res, m, v, g) := bloom_model_load fname (model cc) (vocab cc) n_ctx' g in
  if negb res then Some (None, g)
  else
    (* determine the required inference memory per token *)
    ' (res, m, logits, mpt, g) <-
      bloom_eval m n_threads' 0 [0; 1; 2; 3] [] (mem_per_token cc) g ;;
    if negb res then Some (None, g)
    else
      (* init last_n_tokens *)
      let params := gpt_params_default in
      if repeat_last_n params <? 0 then None
      else
        Some (Some {| model := m; vocab := v; mem_per_token := mpt;
                      n_chars := n_chars cc; n_past := n_past cc;
                      last_n_tokens :=
                        repeat 0 (Z.to_nat (repeat_last_n params)) |}, g).

(** *** Vectors and output *)

(** [v.erase(v.begin()); v.push_back(x)]; erasing from an empty vector is
    undefined. *)
Definition vec_shift (l : list token) (x : token) : option (list token) :=
  match l with
  | [] => None
  | _ :: t => Some (t ++ [x])
  end.

(** [v.back()], undefined on an empty vector. *)
Definition vec_back (l : list token) : option token :=
  match rev l with
  | [] => None
  | x :: _ => Some x
  end.

(** [vocab.id_to_token.find(id)->second]; dereferencing [end()] is
    undefined. *)
Definition word_of (v : gpt_vocab) (id : token) : option string :=
  map.get (id_to_token v) id.

(** [logits.data() + (logits.size() - n_vocab)]: the vector from that
    element on. *)
Definition logits_tail (logits : list F) (n_vocab' : Z) : list F :=
  skipn (Z.to_nat (Z.of_nat (List.length logits) - n_vocab')) logits.

(** The output buffer [dst] is kept as the strings copied to it, in
    order. *)
Fixpoint display (v : gpt_vocab) (embd : list token) (dst : list string)
  : option (list string) :=
  match embd with
  | [] => Some dst
  | id :: embd' => word <- word_of v id ;; display v embd' (dst ++ [word])
  end.

(** *** inference *)

Record inference_state := mk_inference_state {
  st_i             : Z;            (* int i *)
  st_embd          : list token;
  st_n_past        : Z;            (* int n_past *)
  st_last_n_tokens : list token;
  st_logits        : list F;
  st_rng           : Rng;
  st_dst           : list string;
  st_model         : bloom_model;
  st_mem_per_token : Z;
  st_proc          : proc
}.

(** Lines 915-922: the prompt tokens from index [i] on are pushed until
    [embd.size() > params.n_batch]. *)
Fixpoint take_batch (n_batch' : Z) (rem : list token)
    (embd last_n : list token) : option (list token * list token) :=
  match rem with
  | [] => Some (embd, last_n)
  | t :: rem' =>
      let embd := embd ++ [t] in
      last_n <- vec_shift last_n t ;;
      if u64 n_batch' <? Z.of_nat (List.length embd) then Some (embd, last_n)
      else take_batch n_batch' rem' embd last_n
  end.

(** One iteration of the loop of lines 871-940: [inl r] when the function
    leaves the loop, through [return 1] ([r = 1]) or [break] ([r = 0]);
    [inr s'] when the loop goes on, [i++] done. *)
Definition inference_step (params : gpt_params) (v : gpt_vocab)
    (embd_inp : list token) (s : inference_state)
  : option (Z * inference_state + inference_state) :=
  (* predict *)
  ' (ok, m, logits, mpt, g) <-
    (if (0 <? List.length (st_embd s))%nat then
       bloom_eval (st_model s) (n_threads params) (st_n_past s) (st_embd s)
         (st_logits s) (st_mem_per_token s) (st_proc s)
     else Some (true, st_model s, st_logits s, st_mem_per_token s, st_proc s)) ;;
  if negb ok then
    Some (inl (1, {| st_i := st_i s; st_embd := st_embd s;
                     st_n_past := st_n_past s;
                     st_last_n_tokens := st_last_n_tokens s;
                     st_logits := logits; st_rng := st_rng s;
                     st_dst := st_dst s; st_model := m;
                     st_mem_per_token := mpt; st_proc := g |}))
  else
    let n_past' := i32 (u64 (st_n_past s) + Z.of_nat (List.length (st_embd s))) in
    ' (i', embd, last_n, rng) <-
      (if Z.of_nat (List.length embd_inp) <=? u64 (st_i s) then
         (* sample next token *)
         let '(id, rng) :=
           bloom_sample_top_p v
             (logits_tail logits (n_vocab (hparams m)))
             (st_last_n_tokens s) (repeat_penalty params) (top_p params)
             (top_k params) (temp params) (st_rng s) in
         last_n <- vec_shift (st_last_n_tokens s) id ;;
         Some (st_i s, [id], last_n, rng)
       else
         (* still processing the input prompt *)
         ' (embd, last_n) <-
           take_batch (n_batch params) (skipn (Z.to_nat (st_i s)) embd_inp)
             [] (st_last_n_tokens s) ;;
         Some (i32 (u64 (st_i s) + Z.of_nat (List.length embd) - 1),
               embd, last_n, st_rng s)) ;;
    (* display text *)
    dst <- display v embd (st_dst s) ;;
    back <- vec_back embd ;;
    let s' := {| st_i := add32 i' 1; st_embd := embd; st_n_past := n_past';
                 st_last_n_tokens := last_n; st_logits := logits;
                 st_rng := rng; st_dst := dst; st_model := m;
                 st_mem_per_token := mpt; st_proc := g |} in
    (* end of text token *)
    if back =? 2 then Some (inl (0, s')) else Some (inr s').

(** The [for] loop; [i] grows with every iteration, so the bound of the
    loop test is fuel enough. *)
Fixpoint inference_loop (fuel : nat) (params : gpt_params) (v : gpt_vocab)
    (embd_inp : list token) (s : inference_state)
  : option (Z * inference_state) :=
  if u64 (st_i s) <? u64 (Z.of_nat (List.length embd_inp) + n_predict params)
  then
    match fuel with
    | O => None
    | S fuel' =>
        r <- inference_step params v embd_inp s ;;
        match r with
        | inl out => Some out
        | inr s' => inference_loop fuel' params v embd_inp s'
        end
    end
  else Some (0, s).

Definition set_n_predict (p : gpt_params) (n : Z) : gpt_params :=
  {| seed := seed p; n_threads := n_threads p; n_predict := n;
     repeat_last_n := repeat_last_n p; top_k := top_k p; top_p := top_p p;
     temp := temp p; repeat_penalty := repeat_penalty p;
     n_batch := n_batch p; prompt := prompt p |}.

(** [inference]: the returned code and the state the loop leaves. *)
Definition inference (params : gpt_params) (m : bloom_model) (v : gpt_vocab)
    (mem_per_token' : Z) (dst : list string) (g : proc)
  : option (Z * inference_state) :=
  let rng := mt19937 (seed params) in
  (* tokenize the prompt *)
  let embd_inp := bloom_tokenize v (prompt params) false in
  let params :=
    set_n_predict params
      (Z.min (n_predict params)
             (sub32 (n_ctx (hparams m)) (i32 (Z.of_nat (List.length embd_inp))))) in
  let last_n_size := repeat_last_n params in
  if last_n_size <? 0 then None
  else
    inference_loop
      (S (Z.to_nat (u64 (Z.of_nat (List.length embd_inp) + n_predict params))))
      params v embd_inp
      {| st_i := 0; st_embd := []; st_n_past := 0;
         st_last_n_tokens := repeat 0 (Z.to_nat last_n_size);
         st_logits := []; st_rng := rng; st_dst := dst; st_model := m;
         st_mem_per_token := mem_per_token'; st_proc := g |}.

(** *** chat *)

Record chat_state := mk_chat_state {
  c_n_chars       : Z;            (* size_t & n_chars *)
  c_n_past        : Z;            (* size_t & n_past *)
  c_last_n_tokens : list token;   (* std::vector<gpt_vocab::id> & *)
  c_logits        : list F;
  c_rng           : Rng;
  c_dst           : list string;
  c_model         : bloom_model;
  c_mem_per_token : Z;
  c_proc          : proc
}.

(** [std::vector<id> embd(first, first + n)] with [first = cbegin() + a];
    a range outside the vector is undefined. *)
Definition sub_vector (v : list token) (a n : Z) : option (list token) :=
  if (0 <=? n) && (a + n <=? Z.of_nat (List.length v))
  then Some (firstn (Z.to_nat n) (skipn (Z.to_nat a) v))
  else None.

(** [embd_inp[k]] as line 1010 reads it, with the trace of the read. *)
Definition history_read (embd_inp : list token) (k : Z) : token :=
  match nth_error embd_inp (Z.to_nat k) with
  | Some t => t
  | None => heap_junk k
  end.

Definition log_read (g : proc) (k size : Z) : proc :=
  {| buf_size := buf_size g; arenas := arenas g; evals := evals g;
     history_reads := history_reads g ++ [(k, size)] |}.

(** Lines 1008-1011, [n_past] already advanced by the batch length. *)
Fixpoint refill_history (embd_inp : list token) (n_past' : Z) (idxs : list Z)
    (last_n : list token) (g : proc) : option (list token * proc) :=
  match idxs with
  | [] => Some (last_n, g)
  | i :: idxs' =>
      let k := u64 (n_past' + u64 i) in
      last_n <- vec_shift last_n (history_read embd_inp k) ;;
      refill_history embd_inp n_past' idxs' last_n
        (log_read g k (Z.of_nat (List.length embd_inp)))
  end.

Definition chat_with (s : chat_state) (m : bloom_model) (logits : list F)
    (mpt : Z) (g : proc) : chat_state :=
  {| c_n_chars := c_n_chars s; c_n_past := c_n_past s;
     c_last_n_tokens := c_last_n_tokens s; c_logits := logits;
     c_rng := c_rng s; c_dst := c_dst s; c_model := m;
     c_mem_per_token := mpt; c_proc := g |}.

(** The loop of lines 994-1014; the flag is [false] when an evaluation
    failed ([return 1]).  Every iteration with a positive batch length
    consumes part of the input, which bounds the fuel; with a batch length
    of zero the loop does not end. *)
Fixpoint chat_ingest (fuel : nat) (params : gpt_params)
    (embd_inp : list token) (n_past_init n_input : Z) (s : chat_state)
  : option (bool * chat_state) :=
  if c_n_past s <? n_input then
    match fuel with
    | O => None
    | S fuel' =>
        (* eval input prompt *)
        let n := i32 (Z.min (u64 (n_batch params)) (u64 (n_input - c_n_past s))) in
        embd <- sub_vector embd_inp (u64 (c_n_past s - n_past_init)) n ;;
        ' (ok, m, logits, mpt, g) <-
          bloom_eval (c_model s) (n_threads params) (i32 (c_n_past s)) embd
            (c_logits s) (c_mem_per_token s) (c_proc s) ;;
        if negb ok then Some (false, chat_with s m logits mpt g)
        else
          let n_past' := u64 (c_n_past s + u64 n) in
          ' (last_n, g) <-
            refill_history embd_inp n_past' (int_range n)
              (c_last_n_tokens s) g ;;
          chat_ingest fuel' params embd_inp n_past_init n_input
            {| c_n_chars := c_n_chars s; c_n_past := n_past';
               c_last_n_tokens := last_n; c_logits := logits;
               c_rng := c_rng s; c_dst := c_dst s; c_model := m;
               c_mem_per_token := mpt; c_proc := g |}
    end
  else Some (true, s).

(** The loop of lines 1018-1060; the flag is [false] when an evaluation
    failed ([return -1]).  [n_past] grows by one with every iteration until
    it meets the bound of the test, which bounds the fuel. *)
Fixpoint chat_decode (fuel : nat) (params : gpt_params) (v : gpt_vocab)
    (n_input : Z) (s : chat_state) : option (bool * chat_state) :=
  match fuel with
  | O => None
  | S fuel' =>
      (* sample next token *)
      let '(id, rng) :=
        bloom_sample_top_p v
          (logits_tail (c_logits s) (n_vocab (hparams (c_model s))))
          (c_last_n_tokens s) (repeat_penalty params) (top_p params)
          (top_k params) (temp params) (c_rng s) in
      last_n <- vec_shift (c_last_n_tokens s) id ;;
      word <- word_of v id ;;
      let dst := c_dst s ++ [word] in
      let n_chars' := u64 (c_n_chars s + string_size word) in
      back <- vec_back last_n ;;
      let s1 := {| c_n_chars := n_chars'; c_n_past := c_n_past s;
                   c_last_n_tokens := last_n; c_logits := c_logits s;
                   c_rng := rng; c_dst := dst; c_model := c_model s;
                   c_mem_per_token := c_mem_per_token s;
                   c_proc := c_proc s |} in
      if (back =? 2)
         || (u64 (n_input + u64 (n_predict params) - 1) <=? c_n_past s)
      then Some (true, s1)
      else
        (* predict the next token *)
        ' (ok, m, logits, mpt, g) <-
          bloom_eval (c_model s) (n_threads params) (i32 (c_n_past s)) [back]
            (c_logits s) (c_mem_per_token s) (c_proc s) ;;
        if negb ok then Some (false, chat_with s1 m logits mpt g)
        else
          chat_decode fuel' params v n_input
            {| c_n_chars := n_chars'; c_n_past := u64 (c_n_past s + 1);
               c_last_n_tokens := last_n; c_logits := logits;
               c_rng := rng; c_dst := dst; c_model := m;
               c_mem_per_token := mpt; c_proc := g |}
  end.

(** Lines 978-989: the tokens of the prompt, behind the last token of the
    history when that one is positive. *)
Definition chat_embd_inp (params : gpt_params) (v : gpt_vocab)
    (last_n : list token) : option (list token) :=
  let embd_inp :=
    if 0 <? string_size (prompt params)
    then bloom_tokenize v (prompt params) false
    else [] in
  back <- vec_back last_n ;;
  Some (if 0 <? back then back :: embd_inp else embd_inp).

(** [chat]: the returned [int] and the state it leaves behind its
    reference parameters. *)
Definition chat (params : gpt_params) (m : bloom_model) (v : gpt_vocab)
    (mem_per_token' n_chars' n_past' : Z) (last_n_tokens' : list token)
    (dst : list string) (g : proc) : option (Z * chat_state) :=
  let n_past_init := n_past' in
  let rng := mt19937 (seed params) in
  embd_inp <- chat_embd_inp params v last_n_tokens' ;;
  let n_input := u64 (n_past_init + Z.of_nat (List.length embd_inp)) in
  let params :=
    set_n_predict params
      (Z.min (n_predict params) (sub32 (n_ctx (hparams m)) (i32 n_input))) in
  ' (ok, s) <-
    chat_ingest (Z.to_nat (n_input - n_past')) params embd_inp n_past_init
      n_input
      {| c_n_chars := n_chars'; c_n_past := n_past';
         c_last_n_tokens := last_n_tokens'; c_logits := []; c_rng := rng;
         c_dst := dst; c_model := m; c_mem_per_token := mem_per_token';
         c_proc := g |} ;;
  if negb ok then Some (1, s)
  else
    let s := {| c_n_chars := u64 (c_n_chars s + string_size (prompt params));
                c_n_past := c_n_past s;
                c_last_n_tokens := c_last_n_tokens s;
                c_logits := c_logits s; c_rng := c_rng s; c_dst := c_dst s;
                c_model := c_model s; c_mem_per_token := c_mem_per_token s;
                c_proc := c_proc s |} in
    ' (ok, s) <-
      chat_decode
        (S (Z.to_nat (u64 (n_input + u64 (n_predict params) - 1) - c_n_past s)))
        params v n_input s ;;
    if negb ok then Some (-1, s) else Some (i32 (c_n_chars s), s).

(** *** The exported entry points *)

(** Lines 1090-1095 and 1108-1113: the parameters of a call made at
    calendar time [clock], for the text [text] to generate from. *)
Definition entry_params (clock seed' n_threads' n_batch' n_predict' : Z)
    (text : string) : gpt_params :=
  let params := gpt_params_default in
  {| seed := if seed params <? 0 then i32 clock else seed';
     n_threads := if 0 <? n_threads' then n_threads' else n_threads params;
     n_predict := n_predict';
     repeat_last_n := repeat_last_n params; top_k := top_k params;
     top_p := top_p params; temp := temp params;
     repeat_penalty := repeat_penalty params;
     n_batch := n_batch';
     prompt := text |}.

(** [bloom_run]: the returned code, the session (the cache of its model is
    written through the [const] reference), the output and the process
    state. *)
Definition bloom_run (cc : ChatContext) (clock seed' n_threads' n_batch'
    n_predict' : Z) (prompt' : string) (g : proc)
  : option (Z * ChatContext * list string * proc) :=
  let params := entry_params clock seed' n_threads' n_batch' n_predict' prompt' in
  ' (ret, s) <- inference params (model cc) (vocab cc) (mem_per_token cc) [] g ;;
  Some (ret,
        {| model := st_model s; vocab := vocab cc;
           mem_per_token := mem_per_token cc; n_chars := n_chars cc;
           n_past := n_past cc; last_n_tokens := last_n_tokens cc |},
        st_dst s, st_proc s).

(** [prompt + ctx->n_chars]: the text from that character on; a pointer
    past the terminator is undefined. *)
Definition text_from (text : string) (k : Z) : option string :=
  if k <=? string_size text
  then Some (substring (Z.to_nat k) (String.length text - Z.to_nat k) text)
  else None.

(** [bloom_chat] *)
Definition bloom_chat (cc : ChatContext) (clock seed' n_threads' n_batch'
    n_predict' : Z) (prompt' : string) (g : proc)
  : option (Z * ChatContext * list string * proc) :=
  suffix <- text_from prompt' (n_chars cc) ;;
  let params := entry_params clock seed' n_threads' n_batch' n_predict' suffix in
  let dst := [prompt'] in
  ' (ret, s) <-
    chat params (model cc) (vocab cc) (mem_per_token cc) (n_chars cc)
      (n_past cc) (last_n_tokens cc) dst g ;;
  let cc' := {| model := c_model s; vocab := vocab cc;
                mem_per_token := mem_per_token cc; n_chars := c_n_chars s;
                n_past := c_n_past s;
                last_n_tokens := c_last_n_tokens s |} in
  if ret <? 0 then Some (-1, cc', [prompt'], c_proc s)
  else Some (0, cc', c_dst s, c_proc s).

(** *** The tensor records of a checkpoint, lines 340-544

    The loop that [bloom_model_load] takes above as its collaborator
    [read_weights], written out over the table [model.tensors]: for each
    part, the records of the file from [file_offset] on, each checked
    against the tensor it names and read into it. *)

(** [int64_t] *)
Definition i64 (z : Z) : Z := (z + 2 ^ 63) mod 2 ^ 64 - 2 ^ 63.

(** A tensor of the model as the loop over the records uses it: its type,
    its first two dimensions and the bytes of its data. *)
Record ggml_tensor := mk_tensor {
  t_type : ggml_type;
  t_ne0  : Z;
  t_ne1  : Z;
  t_data : list byte
}.

Definition set_data (t : ggml_tensor) (d : list byte) : ggml_tensor :=
  {| t_type := t_type t; t_ne0 := t_ne0 t; t_ne1 := t_ne1 t; t_data := d |}.

(** [model.tensors] *)
Definition tensor_map := SortedListString.map ggml_tensor.

(** The stream of a part, with its end-of-file flag: a read that runs
    into the end of the file sets it together with the failure flag. *)
Record wstream := mk_wstream {
  w_in  : ifstream;
  w_eof : bool
}.

Definition w_read (n : nat) (dst : list byte) (s : wstream)
  : list byte * wstream :=
  let '(bs, s') := fin_read n dst (w_in s) in
  (bs, {| w_in := s';
          w_eof := w_eof s || (good (w_in s) && negb (good s')) |}).

Definition w_read_i32 (old : Z) (s : wstream) : Z * wstream :=
  let '(bs, s') := w_read 4 (le_split 4 old) s in (i32 (le_combine bs), s').

(** [fin.seekg(n, std::ios::cur)]: clears the end-of-file flag, and moves
    unless the stream has failed. *)
Definition w_seek_cur (n : Z) (s : wstream) : wstream :=
  {| w_in := if good (w_in s)
             then {| rest := skipn (Z.to_nat n) (rest (w_in s));
                     pos := pos (w_in s) + n; good := true |}
             else w_in s;
     w_eof := false |}.

(** [std::ifstream(fname_part, std::ios::binary)] and
    [fin.seekg(file_offset)], [file_offset] being a [size_t]: a file that
    cannot be opened, or an offset that is negative as a stream offset,
    leaves the stream failed, not at the end of the file. *)
Definition w_open (fname : string) (file_offset : Z) : wstream :=
  match fs fname with
  | None => {| w_in := {| rest := []; pos := 0; good := false |};
               w_eof := false |}
  | Some bytes =>
      let o := i64 file_offset in
      if o <? 0 then
        {| w_in := {| rest := bytes; pos := 0; good := false |};
           w_eof := false |}
      else
        {| w_in := {| rest := skipn (Z.to_nat o) bytes; pos := o;
                      good := true |};
           w_eof := false |}
  end.

(** [name.data()] read as a C string: the bytes before the first NUL. *)
Fixpoint c_str (bs : list byte) : list byte :=
  match bs with
  | [] => []
  | b :: bs' => if Byte.eqb b Byte.x00 then [] else b :: c_str bs'
  end.

(** [name.find(pat) != std::string::npos] *)
Definition contains (pat name : string) : bool :=
  match index 0 pat name with
  | Some _ => true
  | None => false
  end.

(** Lines 397-425. *)
Definition split_type_of (name : string) : Z :=
  if contains "tok_embeddings" name then 0
  else if contains "layers" name then
    if contains "attention.wo.weight" name then 0
    else if contains "feed_forward.w2.weight" name then 0
    else 1
  else if contains "output" name then 1
  else 0.

(** [std::to_string(i)] *)
Definition to_string (i : Z) : string := NilZero.string_of_int (Z.to_int i).

(** ggml: the bytes of a block of a type and the elements in a block; the
    elements and the bytes of a tensor of a type and shape. *)
Variable ggml_type_size : ggml_type -> Z.
Variable ggml_blck_size : ggml_type -> Z.
Variable ggml_nelements : Z -> Z -> Z.
Variable ggml_nbytes    : ggml_type -> Z -> Z -> Z.

(** Whether [assert] is compiled out. *)
Variable NDEBUG : bool.

(** The reads of a tensor that is split over several parts, lines
    505-527, by rows or by columns of the part; with [n_parts = 1], as line
    124 sets it, they are not reached. *)
Variable read_split :
  ggml_tensor -> Z -> Z -> Z -> Z -> Z -> wstream
  -> option (ggml_tensor * wstream).

Definition nelements_of (t : ggml_tensor) : Z :=
  ggml_nelements (t_ne0 t) (t_ne1 t).

Definition nbytes_of (t : ggml_tensor) : Z :=
  ggml_nbytes (t_type t) (t_ne0 t) (t_ne1 t).

(** Lines 380-385: [ne] has two elements, a third dimension is written
    past it. *)
Definition read_dims (n_dims : Z) (s : wstream)
  : option (Z * Z * Z * wstream) :=
  if n_dims <=? 0 then Some (1, 1, 1, s)
  else
    let '(ne0, s) := w_read_i32 1 s in
    let nelements := i64 (1 * ne0) in
    if n_dims =? 1 then Some (ne0, 1, nelements, s)
    else
      let '(ne1, s) := w_read_i32 1 s in
      let nelements := i64 (nelements * ne1) in
      if n_dims =? 2 then Some (ne0, ne1, nelements, s)
      else None.

(** [assert(c)] *)
Definition assert (c : bool) : option unit :=
  if NDEBUG || c then Some tt else None.

(** Lines 471-483: the bytes per element of the record's [ftype];
    [Some None] stands for [return false]. *)
Definition bpe_of (ftype ne0 : Z) : option (option Z) :=
  if ftype =? 0 then Some (Some (ggml_type_size GGML_TYPE_F32))
  else if ftype =? 1 then Some (Some (ggml_type_size GGML_TYPE_F16))
  else if ftype =? 2 then
    _ <- assert (Z.rem ne0 64 =? 0) ;;
    Some (Some (ggml_type_size GGML_TYPE_Q4_0))
  else if ftype =? 3 then
    _ <- assert (Z.rem ne0 64 =? 0) ;;
    Some (Some (ggml_type_size GGML_TYPE_Q4_1))
  else Some None.

(** Lines 429-439: the number of elements of the record against that of
    the tensor. *)
Definition wrong_size (tensor : ggml_tensor) (n_dims n_parts nelements : Z)
  : bool :=
  if n_dims =? 1
  then negb (nelements_of tensor =? nelements)
  else negb (Z.quot (nelements_of tensor) n_parts =? nelements).

(** Lines 441-464: the dimensions of the record against those of the
    tensor. *)
Definition wrong_shape (tensor : ggml_tensor)
    (n_dims n_parts split_type ne0 ne1 : Z) : bool :=
  if n_dims =? 1
  then negb (t_ne0 tensor =? ne0) || negb (t_ne1 tensor =? ne1)
  else if split_type =? 0
  then negb (Z.quot (t_ne0 tensor) n_parts =? ne0)
       || negb (t_ne1 tensor =? ne1)
  else negb (t_ne0 tensor =? ne0)
       || negb (Z.quot (t_ne1 tensor) n_parts =? ne1).

(** What an iteration of [while (true)] comes to. *)
Inductive record_result :=
| Break                                  (* [break]: the part is read *)
| ReturnFalse                            (* [return false] *)
| Continue (tensors : tensor_map) (s : wstream).

(** One iteration, lines 368-536, for part [part_id] of [n_parts]. *)
Definition load_record (n_parts part_id : Z) (tensors : tensor_map)
    (s : wstream) : option record_result :=
  let '(n_dims, s) := w_read_i32 stack_junk s in
  let '(length, s) := w_read_i32 stack_junk s in
  let '(ftype, s) := w_read_i32 stack_junk s in
  if w_eof s then Some Break
  else
    ' (ne0, ne1, nelements, s) <- read_dims n_dims s ;;
    (* std::string name(length, 0) throws for a negative length *)
    if length <? 0 then None
    else
      let '(name, s) :=
        w_read (Z.to_nat length) (repeat Byte.x00 (Z.to_nat length)) s in
      let key := string_of_list_byte (c_str name) in
      match map.get tensors key with
      | None => Some ReturnFalse
      | Some tensor =>
          let split_type := split_type_of (string_of_list_byte name) in
          if wrong_size tensor n_dims n_parts nelements then Some ReturnFalse
          else if wrong_shape tensor n_dims n_parts split_type ne0 ne1
          then Some ReturnFalse
          else
            obpe <- bpe_of ftype ne0 ;;
            match obpe with
            | None => Some ReturnFalse
            | Some bpe =>
                if (n_dims =? 1) || (n_parts =? 1) then
                  let blck := u64 (ggml_blck_size (t_type tensor)) in
                  if blck =? 0 then None
                  else if negb (u64 (nelements * bpe) / blck
                                =? nbytes_of tensor)
                  then Some ReturnFalse
                  else if part_id =? 0 then
                    let '(data, s) :=
                      w_read (Z.to_nat (nbytes_of tensor)) (t_data tensor) s in
                    Some (Continue (map.put tensors key (set_data tensor data))
                            s)
                  else
                    Some (Continue tensors (w_seek_cur (nbytes_of tensor) s))
                else
                  let blck := u64 (ggml_blck_size (t_type tensor)) in
                  if blck =? 0 then None
                  else if negb (u64 (nelements * bpe) / blck
                                =? nbytes_of tensor / u64 n_parts)
                  then Some ReturnFalse
                  else
                    ' (tensor', s) <-
                      read_split tensor split_type n_parts part_id ne0 ne1 s ;;
                    Some (Continue (map.put tensors key tensor') s)
            end
      end.

(** The loop over the records of a part: [Some (true, _)] when it ends
    with [break], [Some (false, _)] on [return false].  [n_tensors] is the
    [int] that counts the records read, line 536. *)
Fixpoint load_records (fuel : nat) (n_parts part_id n_tensors : Z)
    (tensors : tensor_map) (s : wstream) : option (bool * tensor_map) :=
  match fuel with
  | O => None
  | S fuel' =>
      r <- load_record n_parts part_id tensors s ;;
      match r with
      | Break => Some (true, tensors)
      | ReturnFalse => Some (false, tensors)
      | Continue tensors' s' =>
          (* ++n_tensors *)
          if INT32_MAX <=? n_tensors then None
          else
            load_records fuel' n_parts part_id (n_tensors + 1) tensors' s'
      end
  end.

(** The loop over the parts, lines 346-544.  A record that is read takes
    at least the twelve bytes of its header from the stream, which bounds
    the iterations on a stream that works; on a stream that could not be
    opened or positioned, the loop may not end. *)
Fixpoint load_parts (parts : list Z) (fname : string) (file_offset : Z)
    (n_parts : Z) (tensors : tensor_map) : option (bool * tensor_map) :=
  match parts with
  | [] => Some (true, tensors)
  | i :: parts' =>
      let fname_part :=
        if 0 <? i then (fname ++ "." ++ to_string i)%string else fname in
      let s := w_open fname_part file_offset in
      ' (ok, tensors) <-
        load_records (S (List.length (rest (w_in s)))) n_parts i 0 tensors
          s ;;
      if ok then load_parts parts' fname file_offset n_parts tensors
      else Some (false, tensors)
  end.

Definition load_weights (fname : string) (file_offset n_parts : Z)
    (tensors : tensor_map) : option (bool * tensor_map) :=
  load_parts (int_range n_parts) fname file_offset n_parts tensors.

(** ** Vocabulary of the statements *)

(** The shape the loader gives the cache, [n_layer] regions of [n_ctx]
    positions of [n_embd] elements, with the [int] element count of lines
    329-330 not overflowing. *)
Definition dims_ok (hp : bloom_hparams) : Prop :=
  0 < n_embd hp /\ 0 <= n_ctx hp /\ 0 <= n_layer hp
  /\ n_embd hp * (n_layer hp * n_ctx hp) <= INT32_MAX.

(** The cache tensors of a session have that shape. *)
Definition cache_wf (m : bloom_model) : Prop :=
  dims_ok (hparams m)
  /\ Z.of_nat (List.length (memory_k m))
     = n_embd (hparams m) * (n_layer (hparams m) * n_ctx (hparams m))
  /\ Z.of_nat (List.length (memory_v m))
     = n_embd (hparams m) * (n_layer (hparams m) * n_ctx (hparams m)).

(** Element [j] of position [q] in the region of layer [il]. *)
Definition cell (hp : bloom_hparams) (mem : list F) (il q j : Z) : option F :=
  nth_error mem (Z.to_nat (n_embd hp * (il * n_ctx hp + q) + j)).

(** Index [k] lies in the slice that a call at position [p] over [N]
    tokens writes for layer [il]. *)
Definition in_slice (hp : bloom_hparams) (p N il k : Z) : Prop :=
  n_embd hp * (il * n_ctx hp + p) <= k
  < n_embd hp * (il * n_ctx hp + p) + n_embd hp * N.

(** The fused projection that layer [il] computes during a call. *)
Definition layer_qkv (m : bloom_model) (p : Z) (toks : list token) (il : Z)
  : option (@act F) :=
  w <- weights m ;;
  ' (inpL, _, _) <- eval_upto w m p toks (int_range il) ;;
  Some (k_qkv w il inpL).

(** The logits tensor of a call, one row of [n_vocab] per input token. *)
Definition eval_logits (m : bloom_model) (p : Z) (toks : list token)
  : option (@act F) :=
  w <- weights m ;;
  ' (inpL, _, _) <- eval_graph w m p toks ;;
  Some (k_head w inpL).

(** Position [q] of layer [il] is the same in [m'] as in [m]. *)
Definition kept (m m' : bloom_model) (il q j : Z) : Prop :=
  cell (hparams m) (memory_k m') il q j = cell (hparams m) (memory_k m) il q j
  /\ cell (hparams m) (memory_v m') il q j
     = cell (hparams m) (memory_v m) il q j.

(** Position [q] of layer [il] holds in [m'] the key and the value that the
    call on [m] at [p] over [toks] computed for its token [q - p]. *)
Definition written (m : bloom_model) (p : Z) (toks : list token)
    (m' : bloom_model) (il q j : Z) : Prop :=
  exists cur,
    layer_qkv m p toks il = Some cur
    /\ cell (hparams m) (memory_k m') il q j
       = Some (cur (1 * n_embd (hparams m)
                    + (q - p) * (3 * n_embd (hparams m)) + j))
    /\ cell (hparams m) (memory_v m') il q j
       = Some (cur (2 * n_embd (hparams m)
                    + (q - p) * (3 * n_embd (hparams m)) + j)).

(** The vector [lg] is row [N-1], the row of the last input position, of
    the logits tensor of the call, and has [n_vocab] elements. *)
Definition returns_last_row (m : bloom_model) (p : Z) (toks : list token)
    (lg : list F) : Prop :=
  Z.of_nat (List.length lg) = n_vocab (hparams m)
  /\ exists logits,
       eval_logits m p toks = Some logits
       /\ lg = logits_row (hparams m) logits (input_length toks - 1).

(** *** Checkpoint files *)

(** A 32-bit little-endian field. *)
Definition field32 (z : Z) : list byte := le_split 4 z.

(** The header fields in file order. *)
Definition hparams_fields (hp : bloom_hparams) : list Z :=
  [n_vocab hp; n_embd hp; n_mult hp; n_head hp; n_layer hp; f16 hp].

Definition header_bytes (vs : list Z) : list byte := flat_map field32 vs.

(** The vocabulary entries: a length field, then that many bytes. *)
Definition vocab_bytes (ws : list (list byte)) : list byte :=
  flat_map (fun w => field32 (Z.of_nat (List.length w)) ++ w) ws.

(** The words filed under byte [b]: those that start with it, the space
    apart; and, for the words behind a space, by their second byte. *)
Definition word_in_bucket (b : Z) (w : string) : bool :=
  match list_byte_of_string w with
  | c0 :: _ => negb (Byte.eqb c0 Byte.x20) && (byte.unsigned c0 =? b)
  | [] => false
  end.

Definition space_word_in_bucket (b : Z) (w : string) : bool :=
  match list_byte_of_string w with
  | c0 :: c1 :: _ => Byte.eqb c0 Byte.x20 && (byte.unsigned c1 =? b)
  | _ => false
  end.

(** A bucket of a [std::map] of vectors: absent while nothing was pushed. *)
Definition pushed (old : option (list string)) (l : list string)
  : option (list string) :=
  match l with
  | [] => old
  | _ => Some (match old with Some ws => ws ++ l | None => l end)
  end.

(** *** Traces of forward passes and output *)

(** The passes of a trace follow one another in the cache: the first
    starts at position [p], each next one where the previous one ended, and
    [q] is where the last one ends. *)
Fixpoint chained (p : Z) (tr : list (Z * list token)) (q : Z) : Prop :=
  match tr with
  | [] => q = p
  | e :: tr' =>
      fst e = p /\ chained (p + Z.of_nat (List.length (snd e))) tr' q
  end.

(** The tokens submitted by the passes of a trace, in order. *)
Definition tokens_of (tr : list (Z * list token)) : list token :=
  List.concat (List.map snd tr).

(** A pass with at least one token that ends before position [B]. *)
Definition pass_below (B : Z) (e : Z * list token) : Prop :=
  snd e <> [] /\ fst e + Z.of_nat (List.length (snd e)) < B.

(** A pass that lies inside a context of [C] positions. *)
Definition pass_within (C : Z) (e : Z * list token) : Prop :=
  0 <= fst e /\ fst e + Z.of_nat (List.length (snd e)) <= C.

(** The text that the output buffer holds. *)
Definition text_of (dst : list string) : string := String.concat "" dst.

(** *** Tensor records *)

(** A tensor record as the file holds it: the number of dimensions, the
    length of the name and the type, each in 32 bits; the dimensions; the
    name; the data. *)
Record tensor_record := mk_record {
  r_dims  : list Z;
  r_ftype : Z;
  r_name  : list byte;
  r_data  : list byte
}.

Definition record_header (r : tensor_record) : list byte :=
  field32 (Z.of_nat (List.length (r_dims r)))
  ++ field32 (Z.of_nat (List.length (r_name r)))
  ++ field32 (r_ftype r)
  ++ header_bytes (r_dims r) ++ r_name r.

Definition record_bytes (r : tensor_record) : list byte :=
  record_header r ++ r_data r.

(** The fields of a header fit their 32 bits, and there are at most two
    dimensions. *)
Definition header_ok (r : tensor_record) : Prop :=
  (List.length (r_dims r) <= 2)%nat
  /\ Forall in_i32 (r_dims r)
  /\ in_i32 (r_ftype r)
  /\ Z.of_nat (List.length (r_name r)) <= INT32_MAX.

(** The dimensions that the loop holds after reading a header. *)
Definition r_ne0 (r : tensor_record) : Z := nth 0 (r_dims r) 1.
Definition r_ne1 (r : tensor_record) : Z := nth 1 (r_dims r) 1.

(** The key under which the loop looks a record up. *)
Definition r_key (r : tensor_record) : string :=
  string_of_list_byte (c_str (r_name r)).

(** A stream that works, at position [p], with [bs] left to read. *)
Definition at_bytes (bs : list byte) (p : Z) : wstream :=
  {| w_in := {| rest := bs; pos := p; good := true |}; w_eof := false |}.

(** A record passes the checks that the loop makes, with one part, against
    the tensor that it names. *)
Definition record_fits (tensors : tensor_map) (r : tensor_record)
    (tensor : ggml_tensor) : Prop :=
  header_ok r
  /\ map.get tensors (r_key r) = Some tensor
  /\ nelements_of tensor = r_ne0 r * r_ne1 r
  /\ t_ne0 tensor = r_ne0 r /\ t_ne1 tensor = r_ne1 r
  /\ (exists bpe,
        bpe_of (r_ftype r) (r_ne0 r) = Some (Some bpe)
        /\ u64 (r_ne0 r * r_ne1 r * bpe)
           / u64 (ggml_blck_size (t_type tensor)) = nbytes_of tensor)
  /\ u64 (ggml_blck_size (t_type tensor)) <> 0.

(** It also brings as many bytes of data as the tensor holds. *)
Definition record_ok (tensors : tensor_map) (r : tensor_record) : Prop :=
  exists tensor,
    record_fits tensors r tensor
    /\ Z.of_nat (List.length (r_data r)) = nbytes_of tensor.

(** The tensor that a record names takes the data of the record. *)
Definition store (tensors : tensor_map) (r : tensor_record) : tensor_map :=
  match map.get tensors (r_key r) with
  | Some tensor => map.put tensors (r_key r) (set_data tensor (r_data r))
  | None => tensors
  end.

(** ** Properties *)

(** *** Lists and views *)

Lemma length_int_from k : forall a, List.length (int_from a k) = k.
Proof. induction k as [|k IH]; intros a; simpl; [reflexivity|now rewrite IH]. Qed.

Lemma nth_error_int_from k :
  forall a i, (i < k)%nat -> nth_error (int_from a k) i = Some (a + Z.of_nat i).
Proof.
  induction k as [|k IH]; intros a i Hi; [lia|].
  destruct i as [|i]; simpl.
  - f_equal. lia.
  - rewrite IH by lia. f_equal. lia.
Qed.

Lemma in_int_from k : forall a x, In x (int_from a k) <-> a <= x < a + Z.of_nat k.
Proof.
  induction k as [|k IH]; intros a x; simpl; [lia|].
  rewrite IH. lia.
Qed.

Lemma int_from_app k1 k2 :
  forall a, int_from a (k1 + k2) = int_from a k1 ++ int_from (a + Z.of_nat k1) k2.
Proof.
  induction k1 as [|k1 IH]; intros a; simpl.
  - now rewrite Z.add_0_r.
  - rewrite IH. do 3 f_equal. lia.
Qed.

Lemma length_int_range n : List.length (int_range n) = Z.to_nat n.
Proof. apply length_int_from. Qed.

Lemma nth_error_int_range n k :
  0 <= k < n -> nth_error (int_range n) (Z.to_nat k) = Some k.
Proof.
  intros H. unfold int_range. rewrite nth_error_int_from by lia. f_equal. lia.
Qed.

Lemma in_int_range n k : In k (int_range n) <-> 0 <= k < n.
Proof. unfold int_range. rewrite in_int_from. lia. Qed.

Lemma int_range_split n k :
  0 <= k < n ->
  exists post, int_range n = int_range k ++ k :: post
               /\ forall x, In x post -> k < x < n.
Proof.
  intros H. unfold int_range.
  replace (Z.to_nat n) with (Z.to_nat k + S (Z.to_nat (n - k - 1)))%nat by lia.
  rewrite int_from_app. cbn [int_from].
  eexists. split.
  - f_equal. f_equal. lia.
  - intros x Hx. apply in_int_from in Hx. lia.
Qed.

Lemma nth_error_rows (A : Type) (f : Z -> list A) (n : nat) :
  (forall r, List.length (f r) = n) ->
  forall (rows : list Z) (r c : nat),
    (c < n)%nat ->
    nth_error (flat_map f rows) (r * n + c)
    = match nth_error rows r with
      | Some x => nth_error (f x) c
      | None => None
      end.
Proof.
  intros Hlen rows. induction rows as [|x rows IH]; intros r c Hc.
  - simpl. destruct r; now rewrite ?nth_error_nil.
  - simpl. destruct r as [|r].
    + simpl. rewrite nth_error_app1; [reflexivity|]. rewrite Hlen. lia.
    + rewrite nth_error_app2 by (rewrite Hlen; simpl; lia).
      rewrite Hlen. simpl.
      replace (n + r * n + c - n)%nat with (r * n + c)%nat by lia.
      now apply IH.
Qed.

Lemma length_rows (A : Type) (f : Z -> list A) (n : nat) :
  (forall r, List.length (f r) = n) ->
  forall rows, List.length (flat_map f rows) = (List.length rows * n)%nat.
Proof.
  intros Hlen rows. induction rows as [|x rows IH]; simpl; [reflexivity|].
  now rewrite length_app, Hlen, IH.
Qed.

Lemma length_view_2d (cur : @act F) ne0 ne1 nb1 off :
  List.length (view_2d cur ne0 ne1 nb1 off) = (Z.to_nat ne1 * Z.to_nat ne0)%nat.
Proof.
  unfold view_2d. rewrite length_rows with (n := Z.to_nat ne0).
  - now rewrite length_int_range.
  - intros r. now rewrite length_map, length_int_range.
Qed.

Lemma nth_error_view_2d (cur : @act F) ne0 ne1 nb1 off r c :
  0 <= r < ne1 -> 0 <= c < ne0 ->
  nth_error (view_2d cur ne0 ne1 nb1 off) (Z.to_nat (r * ne0 + c))
  = Some (cur (off + r * nb1 + c)).
Proof.
  intros Hr Hc. unfold view_2d.
  replace (Z.to_nat (r * ne0 + c))
    with (Z.to_nat r * Z.to_nat ne0 + Z.to_nat c)%nat by nia.
  rewrite nth_error_rows with (n := Z.to_nat ne0).
  - rewrite nth_error_int_range by lia.
    rewrite nth_error_map, nth_error_int_range by lia. reflexivity.
  - intros x. now rewrite length_map, length_int_range.
  - lia.
Qed.

(** What a copy into a view leaves in the tensor. *)
Lemma cpy_into_view_spec (src mem mem' : list F) ne0 offset :
  cpy_into_view src mem ne0 offset = Some mem' ->
  0 <= ne0 /\ offset / F32_SIZE + ne0 <= Z.of_nat (List.length mem)
  /\ Z.of_nat (List.length src) = ne0
  /\ (0 <= offset ->
      List.length mem' = List.length mem
      /\ forall k : Z, 0 <= k ->
           nth_error mem' (Z.to_nat k)
           = if (offset / F32_SIZE <=? k) && (k <? offset / F32_SIZE + ne0)
             then nth_error src (Z.to_nat (k - offset / F32_SIZE))
             else nth_error mem (Z.to_nat k)).
Proof.
  unfold cpy_into_view. set (o := offset / F32_SIZE).
  destruct (0 <=? ne0) eqn:E1; [|discriminate].
  destruct (o + ne0 <=? Z.of_nat (List.length mem)) eqn:E2; [|discriminate].
  destruct (Z.of_nat (List.length src) =? ne0) eqn:E3; [|discriminate].
  simpl. intros [= <-].
  apply Z.leb_le in E1, E2. apply Z.eqb_eq in E3.
  repeat split; try assumption.
  - assert (0 <= o) by (apply Z.div_pos; unfold F32_SIZE; lia).
    rewrite !length_app, length_firstn, length_skipn. lia.
  - intros k Hk.
    assert (0 <= o) by (apply Z.div_pos; unfold F32_SIZE; lia).
    destruct (Z.leb_spec o k); destruct (Z.ltb_spec k (o + ne0)); simpl.
    + rewrite nth_error_app2 by (rewrite length_firstn; lia).
      rewrite length_firstn, nth_error_app1 by lia. f_equal. lia.
    + rewrite nth_error_app2 by (rewrite length_firstn; lia).
      rewrite nth_error_app2 by (rewrite length_firstn; lia).
      rewrite length_firstn, nth_error_skipn. f_equal. lia.
    + rewrite nth_error_app1 by (rewrite length_firstn; lia).
      rewrite nth_error_firstn.
      destruct (Nat.ltb_spec (Z.to_nat k) (Z.to_nat o)); [reflexivity|lia].
    + lia.
Qed.

Lemma u64_neg z : - 2 ^ 64 <= z < 0 -> u64 z = z + 2 ^ 64.
Proof.
  intros H. unfold u64. symmetry.
  apply Z.mod_unique with (q := -1); lia.
Qed.

Lemma i32_cases z :
  - 2 ^ 31 <= z < 2 ^ 32 ->
  (0 <= z <= INT32_MAX /\ i32 z = z) \/ (- 2 ^ 31 <= i32 z < 0).
Proof.
  intros H. unfold INT32_MAX.
  destruct (Z_lt_le_dec z 0); [right|].
  - rewrite i32_small; unfold in_i32, INT32_MIN, INT32_MAX; lia.
  - destruct (Z_lt_le_dec z (2 ^ 31)); [left|right].
    + rewrite i32_small; unfold in_i32, INT32_MIN, INT32_MAX; lia.
    + unfold i32.
      replace ((z + 2 ^ 31) mod 2 ^ 32) with (z - 2 ^ 31).
      * lia.
      * apply Z.mod_unique with (q := 1); lia.
Qed.

(** A slice that ends inside the cache tensor starts where the layer and
    the position say. *)
Lemma slice_offset_inside hp p n il :
  dims_ok hp -> 0 <= il < n_layer hp -> in_i32 p -> 0 < n ->
  slice_offset hp p il / F32_SIZE + n <= n_embd hp * (n_layer hp * n_ctx hp) ->
  0 <= il * n_ctx hp + p
  /\ slice_offset hp p il / F32_SIZE = n_embd hp * (il * n_ctx hp + p).
Proof.
  intros (He & Hc & Hl & Hmax) Hil Hp Hn Hin.
  unfold in_i32, INT32_MIN, INT32_MAX in *.
  assert (Hilc : 0 <= il * n_ctx hp <= n_layer hp * n_ctx hp) by nia.
  assert (Hlc : n_layer hp * n_ctx hp <= 2 ^ 31 - 1) by nia.
  unfold slice_offset, add32, mul32 in *.
  rewrite (i32_small (il * n_ctx hp)) in *
    by (unfold in_i32, INT32_MIN, INT32_MAX; lia).
  assert (He' : n_embd hp <= 2 ^ 31 - 1).
  { destruct (Z.eq_dec (n_layer hp * n_ctx hp) 0) as [E|E]; [|nia].
    (* an empty cache: no slice fits *)
    exfalso. rewrite E, Z.mul_0_r in Hin.
    assert (0 <= u64 (u64 (F32_SIZE * u64 (n_embd hp))
                      * u64 (i32 (il * n_ctx hp + p))) / F32_SIZE).
    { apply Z.div_pos; [|unfold F32_SIZE; lia].
      unfold u64. apply Z.mod_pos_bound. lia. }
    lia. }
  rewrite (u64_small (n_embd hp)) in * by lia.
  rewrite (u64_small (F32_SIZE * n_embd hp)) in * by (unfold F32_SIZE; lia).
  destruct (i32_cases (il * n_ctx hp + p)) as [[Hy Hx] | Hx]; [lia| |].
  - rewrite Hx in *. rewrite (u64_small (il * n_ctx hp + p)) in * by lia.
    rewrite u64_small in * by (unfold F32_SIZE; nia).
    unfold F32_SIZE in *.
    replace (4 * n_embd hp * (il * n_ctx hp + p))
      with (n_embd hp * (il * n_ctx hp + p) * 4) in * by ring.
    rewrite Z.div_mul in * by lia. lia.
  - exfalso. set (x := i32 (il * n_ctx hp + p)) in *.
    rewrite (u64_neg x) in Hin by lia.
    unfold F32_SIZE in *.
    replace (4 * n_embd hp * (x + 2 ^ 64))
      with (4 * n_embd hp * x + (4 * n_embd hp) * 2 ^ 64) in Hin by ring.
    unfold u64 in Hin. rewrite Z.mod_add in Hin by lia.
    fold (u64 (4 * n_embd hp * x)) in Hin.
    rewrite u64_neg in Hin by nia.
    replace (4 * n_embd hp * x + 2 ^ 64)
      with ((n_embd hp * x + 2 ^ 62) * 4) in Hin by ring.
    rewrite Z.div_mul in Hin by lia. nia.
Qed.

Lemma slice_offset_nonneg hp p il : 0 <= slice_offset hp p il.
Proof. unfold slice_offset, u64. apply Z.mod_pos_bound. lia. Qed.

(** A successful copy of an [n_embd] by [N] view into the slice of layer
    [il]: the slice lies in the cache, and only its elements change. *)
Lemma cpy_slice_spec hp p N il (cur : @act F) nb1 off mem mem' :
  dims_ok hp -> 0 <= il < n_layer hp -> in_i32 p -> 1 <= N ->
  Z.of_nat (List.length mem) = n_embd hp * (n_layer hp * n_ctx hp) ->
  cpy_into_view (view_2d cur (n_embd hp) N nb1 off) mem
    (mul32 N (n_embd hp)) (slice_offset hp p il) = Some mem' ->
  Z.of_nat (List.length mem') = n_embd hp * (n_layer hp * n_ctx hp)
  /\ 0 <= il * n_ctx hp + p
  /\ il * n_ctx hp + p + N <= n_layer hp * n_ctx hp
  /\ forall k, 0 <= k ->
       nth_error mem' (Z.to_nat k)
       = if (n_embd hp * (il * n_ctx hp + p) <=? k)
            && (k <? n_embd hp * (il * n_ctx hp + p) + n_embd hp * N)
         then nth_error (view_2d cur (n_embd hp) N nb1 off)
                (Z.to_nat (k - n_embd hp * (il * n_ctx hp + p)))
         else nth_error mem (Z.to_nat k).
Proof.
  intros Hd Hil Hp HN Hlen Hcpy.
  pose proof Hd as (He & Hc & Hl & Hmax).
  apply cpy_into_view_spec in Hcpy.
  destruct Hcpy as (Hne & Hin & Hsrc & Hrest).
  destruct (Hrest (slice_offset_nonneg hp p il)) as (Hlen' & Hnth).
  rewrite length_view_2d in Hsrc.
  assert (Hne0 : mul32 N (n_embd hp) = n_embd hp * N) by nia.
  rewrite Hne0 in *. rewrite Hlen in Hin.
  destruct (slice_offset_inside hp p (n_embd hp * N) il) as (Hy & Ho);
    try assumption; [nia|].
  rewrite Ho in *.
  split; [lia|]. split; [assumption|]. split; [nia|].
  intros k Hk. now rewrite Hnth.
Qed.

Lemma eval_layer_inv w hp p N il inpL mk mv st' :
  eval_layer w hp p N il (inpL, mk, mv) = Some st' -> 1 <= N ->
  exists inpL' mk' mv',
    st' = (inpL', mk', mv')
    /\ cpy_into_view (Kcur hp N (k_qkv w il inpL)) mk (mul32 N (n_embd hp))
         (slice_offset hp p il) = Some mk'
    /\ cpy_into_view (Vcur hp N (k_qkv w il inpL)) mv (mul32 N (n_embd hp))
         (slice_offset hp p il) = Some mv'.
Proof.
  unfold eval_layer. intros H HN.
  destruct (Z.leb_spec 1 N); [|lia].
  destruct (cpy_into_view (Kcur hp N (k_qkv w il inpL)) mk _ _) as [mk1|];
    [|discriminate].
  destruct (cpy_into_view (Vcur hp N (k_qkv w il inpL)) mv _ _) as [mv1|];
    [|discriminate].
  destruct (view_1d mk1 _ _); [|discriminate].
  destruct (view_1d mv1 _ _); [|discriminate].
  injection H as <-. now eexists _, mk1, mv1.
Qed.

Lemma eval_layers_app w hp p N ils1 ils2 st :
  eval_layers w hp p N (ils1 ++ ils2) st
  = match eval_layers w hp p N ils1 st with
    | Some st1 => eval_layers w hp p N ils2 st1
    | None => None
    end.
Proof.
  revert st. induction ils1 as [|il ils1 IH]; intros st; cbn [eval_layers app];
    [reflexivity|].
  destruct (eval_layer w hp p N il st); [apply IH|reflexivity].
Qed.

(** Running a list of layers: the tensors keep their size, every slice lay
    inside the cache, and what is outside the slices is untouched. *)
Lemma eval_layers_frame w hp p N ils :
  dims_ok hp -> in_i32 p -> 1 <= N ->
  (forall il, In il ils -> 0 <= il < n_layer hp) ->
  forall inpL mk mv inpL' mk' mv',
    Z.of_nat (List.length mk) = n_embd hp * (n_layer hp * n_ctx hp) ->
    Z.of_nat (List.length mv) = n_embd hp * (n_layer hp * n_ctx hp) ->
    eval_layers w hp p N ils (inpL, mk, mv) = Some (inpL', mk', mv') ->
    Z.of_nat (List.length mk') = n_embd hp * (n_layer hp * n_ctx hp)
    /\ Z.of_nat (List.length mv') = n_embd hp * (n_layer hp * n_ctx hp)
    /\ (forall il, In il ils ->
          0 <= il * n_ctx hp + p
          /\ il * n_ctx hp + p + N <= n_layer hp * n_ctx hp)
    /\ forall k, 0 <= k -> (forall il, In il ils -> ~ in_slice hp p N il k) ->
         nth_error mk' (Z.to_nat k) = nth_error mk (Z.to_nat k)
         /\ nth_error mv' (Z.to_nat k) = nth_error mv (Z.to_nat k).
Proof.
  intros Hd Hp HN. induction ils as [|il ils IH]; intros Hils.
  - simpl. intros inpL mk mv inpL' mk' mv' Hk Hv [= <- <- <-].
    split; [assumption|]. split; [assumption|]. split; [intros il []|].
    intros k _ _. split; reflexivity.
  - intros inpL mk mv inpL' mk' mv' Hk Hv H. cbn [eval_layers] in H.
    destruct (eval_layer w hp p N il (inpL, mk, mv)) as [st1|] eqn:E1;
      [|discriminate].
    apply eval_layer_inv in E1; [|assumption].
    destruct E1 as (inpL1 & mk1 & mv1 & -> & Ek & Ev).
    assert (Hil : 0 <= il < n_layer hp) by (apply Hils; now left).
    unfold Kcur in Ek. unfold Vcur in Ev.
    apply cpy_slice_spec in Ek; try assumption.
    apply cpy_slice_spec in Ev; try assumption.
    destruct Ek as (Hk1 & Hlo & Hhi & Hkn).
    destruct Ev as (Hv1 & _ & _ & Hvn).
    destruct (IH (fun x Hx => Hils x (or_intror Hx))
                 inpL1 mk1 mv1 inpL' mk' mv' Hk1 Hv1 H)
      as (Hk' & Hv' & Hb & Hfr).
    split; [assumption|]. split; [assumption|]. split.
    + intros x [<-|Hin]; [split; assumption|now apply Hb].
    + intros k Hk0 Hout.
      destruct (Hfr k Hk0 (fun x Hx => Hout x (or_intror Hx))) as [-> ->].
      rewrite Hkn, Hvn by assumption.
      specialize (Hout il (or_introl eq_refl)). unfold in_slice in Hout.
      destruct (Z.leb_spec (n_embd hp * (il * n_ctx hp + p)) k);
        destruct (Z.ltb_spec k
          (n_embd hp * (il * n_ctx hp + p) + n_embd hp * N));
        simpl; try (split; reflexivity); lia.
Qed.

Lemma cell_off_slice hp p N il il' q j :
  0 < n_embd hp -> 0 <= p -> p + N <= n_ctx hp ->
  0 <= q < n_ctx hp -> 0 <= j < n_embd hp ->
  il <> il' \/ q < p \/ p + N <= q ->
  ~ in_slice hp p N il' (n_embd hp * (il * n_ctx hp + q) + j).
Proof.
  intros He Hp HN Hq Hj Hcase. unfold in_slice. intros [Hlo Hhi].
  destruct (Z.lt_trichotomy il il') as [Hlt|[Heq|Hgt]].
  - assert (il + 1 <= il') by lia.
    assert ((il + 1) * n_ctx hp <= il' * n_ctx hp) by nia.
    assert (il * n_ctx hp + q + 1 <= il' * n_ctx hp + p) by lia.
    assert (n_embd hp * (il * n_ctx hp + q + 1)
            <= n_embd hp * (il' * n_ctx hp + p)) by nia.
    lia.
  - subst il'. destruct Hcase as [Hc|[Hc|Hc]]; [lia| |].
    + assert (n_embd hp * (il * n_ctx hp + q + 1)
              <= n_embd hp * (il * n_ctx hp + p)) by nia.
      lia.
    + assert (n_embd hp * (il * n_ctx hp + p + N)
              <= n_embd hp * (il * n_ctx hp + q)) by nia.
      lia.
  - assert (il' + 1 <= il) by lia.
    assert ((il' + 1) * n_ctx hp <= il * n_ctx hp) by nia.
    assert (il' * n_ctx hp + p + N <= il * n_ctx hp + q) by lia.
    assert (n_embd hp * (il' * n_ctx hp + p + N)
            <= n_embd hp * (il * n_ctx hp + q)) by nia.
    lia.
Qed.

(** Where the call's position and length lie, once every layer's slice
    fitted in the cache. *)
Lemma slices_in_context hp p N :
  0 < n_layer hp ->
  (forall il, In il (int_range (n_layer hp)) ->
     0 <= il * n_ctx hp + p
     /\ il * n_ctx hp + p + N <= n_layer hp * n_ctx hp) ->
  0 <= p /\ p + N <= n_ctx hp.
Proof.
  intros HL Hb. split.
  - destruct (Hb 0) as [H _]; [apply in_int_range; lia|]. lia.
  - destruct (Hb (n_layer hp - 1)) as [_ H]; [apply in_int_range; lia|]. lia.
Qed.

(** The cells of the cache after the loop over all layers. *)
Lemma eval_layers_cells w hp p N inpL0 mk mv inpL' mk' mv' :
  dims_ok hp -> in_i32 p -> 1 <= N ->
  Z.of_nat (List.length mk) = n_embd hp * (n_layer hp * n_ctx hp) ->
  Z.of_nat (List.length mv) = n_embd hp * (n_layer hp * n_ctx hp) ->
  eval_layers w hp p N (int_range (n_layer hp)) (inpL0, mk, mv)
  = Some (inpL', mk', mv') ->
  Z.of_nat (List.length mk') = n_embd hp * (n_layer hp * n_ctx hp)
  /\ Z.of_nat (List.length mv') = n_embd hp * (n_layer hp * n_ctx hp)
  /\ (0 < n_layer hp -> 0 <= p /\ p + N <= n_ctx hp)
  /\ forall il q j,
       0 <= il < n_layer hp -> 0 <= q < n_ctx hp -> 0 <= j < n_embd hp ->
       (q < p \/ p + N <= q ->
        cell hp mk' il q j = cell hp mk il q j
        /\ cell hp mv' il q j = cell hp mv il q j)
       /\ (p <= q < p + N ->
           exists inpL mkA mvA,
             eval_layers w hp p N (int_range il) (inpL0, mk, mv)
             = Some (inpL, mkA, mvA)
             /\ cell hp mk' il q j
                = Some (k_qkv w il inpL
                          (1 * n_embd hp + (q - p) * (3 * n_embd hp) + j))
             /\ cell hp mv' il q j
                = Some (k_qkv w il inpL
                          (2 * n_embd hp + (q - p) * (3 * n_embd hp) + j))).
Proof.
  intros Hd Hp HN Hk Hv H.
  pose proof Hd as (He & Hc & Hl & Hmax).
  destruct (eval_layers_frame w hp p N (int_range (n_layer hp)) Hd Hp HN
              (fun il Hil => proj1 (in_int_range _ _) Hil)
              _ _ _ _ _ _ Hk Hv H) as (Hk' & Hv' & Hb & Hfr).
  split; [assumption|]. split; [assumption|]. split.
  { intros HL. now apply slices_in_context. }
  intros il q j Hil Hq Hj.
  destruct (slices_in_context hp p N) as [Hp0 HpN]; [lia|assumption|].
  assert (Hidx : 0 <= n_embd hp * (il * n_ctx hp + q) + j) by nia.
  split.
  - intros Hout. unfold cell. apply Hfr; [assumption|].
    intros il' _. apply cell_off_slice; try assumption. now right.
  - intros Hin.
    destruct (int_range_split (n_layer hp) il Hil) as (post & Hsplit & Hpost).
    rewrite Hsplit, eval_layers_app in H.
    destruct (eval_layers w hp p N (int_range il) (inpL0, mk, mv))
      as [[[inpL mkA] mvA]|] eqn:EA; [|discriminate].
    cbn [eval_layers] in H.
    destruct (eval_layer w hp p N il (inpL, mkA, mvA)) as [stB|] eqn:EB;
      [|discriminate].
    apply eval_layer_inv in EB; [|assumption].
    destruct EB as (inpLB & mkB & mvB & -> & Ek & Ev).
    destruct (eval_layers_frame w hp p N (int_range il) Hd Hp HN
                (fun x Hx => ltac:(apply in_int_range in Hx; lia))
                _ _ _ _ _ _ Hk Hv EA) as (HkA & HvA & _ & _).
    unfold Kcur in Ek. unfold Vcur in Ev.
    apply cpy_slice_spec in Ek; try assumption.
    apply cpy_slice_spec in Ev; try assumption.
    destruct Ek as (HkB & _ & _ & Hkn). destruct Ev as (HvB & _ & _ & Hvn).
    destruct (eval_layers_frame w hp p N post Hd Hp HN
                (fun x Hx => ltac:(specialize (Hpost x Hx); lia))
                _ _ _ _ _ _ HkB HvB H) as (_ & _ & _ & HfrB).
    exists inpL, mkA, mvA. split; [reflexivity|].
    unfold cell.
    destruct (HfrB _ Hidx) as [-> ->].
    { intros il' Hil'. apply cell_off_slice; try assumption.
      left. specialize (Hpost il' Hil'). lia. }
    rewrite Hkn, Hvn by assumption.
    assert (Hw : (n_embd hp * (il * n_ctx hp + p)
                  <=? n_embd hp * (il * n_ctx hp + q) + j)
                 && (n_embd hp * (il * n_ctx hp + q) + j
                     <? n_embd hp * (il * n_ctx hp + p) + n_embd hp * N)
                 = true).
    { apply andb_true_iff. split; [apply Z.leb_le|apply Z.ltb_lt]; nia. }
    rewrite Hw.
    replace (n_embd hp * (il * n_ctx hp + q) + j
             - n_embd hp * (il * n_ctx hp + p))
      with ((q - p) * n_embd hp + j) by ring.
    rewrite !nth_error_view_2d by lia. split; reflexivity.
Qed.

(** With no token to store, the loop over the layers leaves the cache
    alone. *)
Lemma eval_layers_empty w hp p N ils inpL mk mv inpL' mk' mv' :
  N < 1 ->
  eval_layers w hp p N ils (inpL, mk, mv) = Some (inpL', mk', mv') ->
  mk' = mk /\ mv' = mv.
Proof.
  intros HN. revert inpL. induction ils as [|il ils IH]; intros inpL H.
  - now injection H as _ <- <-.
  - cbn [eval_layers] in H.
    destruct (eval_layer w hp p N il (inpL, mk, mv)) as [[[i1 k1] v1]|] eqn:E;
      [|discriminate].
    unfold eval_layer in E. destruct (Z.leb_spec 1 N); [lia|].
    destruct (view_1d mk _ _); [|discriminate].
    destruct (view_1d mv _ _); [|discriminate].
    injection E as _ <- <-. now apply IH in H.
Qed.

(** What a call that returned [true] went through. *)
Lemma bloom_eval_inv m nt p toks ew mpt g m' lg mpt' g' :
  bloom_eval m nt p toks ew mpt g = Some (true, m', lg, mpt', g') ->
  exists w inpL mk mv,
    weights m = Some w
    /\ eval_graph w m p toks = Some (inpL, mk, mv)
    /\ m' = set_memory m mk mv
    /\ last_row (hparams m) (input_length toks) (k_head w inpL) = Some lg
    /\ evals g' = evals g ++ [(p, toks)].
Proof.
  unfold bloom_eval. intros H.
  set (grow := (0 <? mpt) && _) in H.
  assert (Hlog : evals (if grow
                        then set_buf_size (log_eval g p toks)
                               (u64 (scale_1_1
                                       (u64 (mpt * u64 (input_length toks)))))
                        else log_eval g p toks)
                 = evals g ++ [(p, toks)]) by (destruct grow; reflexivity).
  destruct (grow && negb _); [discriminate|].
  destruct (weights m) as [w|]; [|discriminate].
  destruct (eval_graph w m p toks) as [[[inpL mk] mv]|] eqn:Eg;
    [|discriminate].
  destruct (last_row _ _ _) as [row|] eqn:Er; [|discriminate].
  destruct (if mpt =? 0 then _ else _); [|discriminate].
  injection H as <- <- <- <-.
  exists w, inpL, mk, mv. repeat split; try reflexivity; assumption.
Qed.

Lemma bloom_eval_cache m nt p toks ew mpt g m' lg mpt' g' :
  cache_wf m -> in_i32 p ->
  bloom_eval m nt p toks ew mpt g = Some (true, m', lg, mpt', g') ->
  cache_wf m' /\ hparams m' = hparams m /\ weights m' = weights m
  /\ (0 < n_layer (hparams m) -> 1 <= input_length toks ->
      0 <= p /\ p + input_length toks <= n_ctx (hparams m))
  /\ forall il q j,
       0 <= il < n_layer (hparams m) -> 0 <= q < n_ctx (hparams m) ->
       0 <= j < n_embd (hparams m) ->
       (q < p \/ p + input_length toks <= q -> kept m m' il q j)
       /\ (p <= q < p + input_length toks -> written m p toks m' il q j).
Proof.
  intros (Hd & Hk & Hv) Hp H.
  apply bloom_eval_inv in H.
  destruct H as (w & inpL & mk & mv & Hw & Hg & -> & _ & _).
  unfold eval_graph, eval_upto in Hg.
  destruct (Z_lt_le_dec (input_length toks) 1) as [HN|HN].
  - apply eval_layers_empty in Hg; [|assumption]. destruct Hg as [-> ->].
    split; [unfold cache_wf; simpl; auto|].
    split; [reflexivity|]. split; [reflexivity|]. split; [lia|]. intros il q j _ _ _. split; [|lia].
    intros _. split; reflexivity.
  - apply eval_layers_cells in Hg; try assumption.
    destruct Hg as (Hk' & Hv' & Hb & Hcells).
    split; [unfold cache_wf; simpl; auto|].
    split; [reflexivity|]. split; [reflexivity|].
    split; [intros HL _; now apply Hb|].
    intros il q j Hil Hq Hj.
    destruct (Hcells il q j Hil Hq Hj) as [Hout Hin]. split.
    + intros Hc. apply Hout in Hc. exact Hc.
    + intros Hc. destruct (Hin Hc) as (inpLA & mkA & mvA & HA & HcK & HcV).
      exists (k_qkv w il inpLA). split; [|split; assumption].
      unfold layer_qkv, eval_upto. now rewrite Hw, HA.
Qed.

(** *** A call inside the context is defined *)

Lemma slice_offset_exact hp p il :
  dims_ok hp -> 0 <= il < n_layer hp -> 0 <= p <= n_ctx hp ->
  slice_offset hp p il / F32_SIZE = n_embd hp * (il * n_ctx hp + p).
Proof.
  intros (He & Hc & Hl & Hmax) Hil Hp. unfold INT32_MAX in Hmax.
  assert (0 <= il * n_ctx hp) by nia.
  assert (il * n_ctx hp + n_ctx hp <= n_layer hp * n_ctx hp) by nia.
  assert (n_layer hp * n_ctx hp <= n_embd hp * (n_layer hp * n_ctx hp)) by nia.
  assert (n_embd hp <= 2 ^ 31 - 1 \/ n_layer hp * n_ctx hp = 0) by nia.
  unfold slice_offset, add32, mul32, F32_SIZE.
  rewrite (i32_small (il * n_ctx hp))
    by (unfold in_i32, INT32_MIN, INT32_MAX; lia).
  rewrite (i32_small (il * n_ctx hp + p))
    by (unfold in_i32, INT32_MIN, INT32_MAX; lia).
  rewrite (u64_small (il * n_ctx hp + p)) by lia.
  destruct (Z.eq_dec (il * n_ctx hp + p) 0) as [E|E].
  - rewrite E, !Z.mul_0_r. reflexivity.
  - rewrite (u64_small (n_embd hp)) by nia.
    rewrite (u64_small (4 * n_embd hp)) by nia.
    rewrite u64_small by nia.
    replace (4 * n_embd hp * (il * n_ctx hp + p))
      with (n_embd hp * (il * n_ctx hp + p) * 4) by ring.
    now rewrite Z.div_mul by lia.
Qed.

Lemma layer_offset_exact hp il :
  dims_ok hp -> 0 <= il < n_layer hp ->
  layer_offset hp il / F32_SIZE = n_embd hp * (il * n_ctx hp).
Proof.
  intros (He & Hc & Hl & Hmax) Hil. unfold INT32_MAX in Hmax.
  assert (0 <= il * n_ctx hp) by nia.
  assert (il * n_ctx hp + n_ctx hp <= n_layer hp * n_ctx hp) by nia.
  assert (n_layer hp * n_ctx hp <= n_embd hp * (n_layer hp * n_ctx hp)) by nia.
  unfold layer_offset, mul32, F32_SIZE.
  rewrite (i32_small (il * n_ctx hp))
    by (unfold in_i32, INT32_MIN, INT32_MAX; lia).
  rewrite (u64_small (il * n_ctx hp)) by lia.
  destruct (Z.eq_dec (il * n_ctx hp) 0) as [E|E].
  - rewrite E. cbn. now rewrite Z.mul_0_r.
  - rewrite (u64_small (n_embd hp)) by nia.
    rewrite (u64_small (il * n_ctx hp * 4)) by lia.
    rewrite u64_small by nia.
    replace (il * n_ctx hp * 4 * n_embd hp)
      with (n_embd hp * (il * n_ctx hp) * 4) by ring.
    now rewrite Z.div_mul by lia.
Qed.

Lemma eval_layers_defined w hp p N ils :
  dims_ok hp -> 0 <= p -> 1 <= N -> p + N <= n_ctx hp ->
  (forall il, In il ils -> 0 <= il < n_layer hp) ->
  forall inpL mk mv,
    Z.of_nat (List.length mk) = n_embd hp * (n_layer hp * n_ctx hp) ->
    Z.of_nat (List.length mv) = n_embd hp * (n_layer hp * n_ctx hp) ->
    exists st', eval_layers w hp p N ils (inpL, mk, mv) = Some st'.
Proof.
  intros Hd Hp HN HpN. pose proof Hd as (He & Hc & Hl & Hmax).
  unfold INT32_MAX in Hmax.
  induction ils as [|il ils IH]; intros Hils inpL mk mv Hk Hv.
  - eexists. reflexivity.
  - assert (Hil : 0 <= il < n_layer hp) by (apply Hils; now left).
    assert (0 <= il * n_ctx hp) by nia.
    assert (il * n_ctx hp + n_ctx hp <= n_layer hp * n_ctx hp) by nia.
    assert (Hm1 : mul32 N (n_embd hp) = n_embd hp * N).
    { unfold mul32. rewrite Z.mul_comm.
      apply i32_small. unfold in_i32, INT32_MIN, INT32_MAX. nia. }
    assert (Hm2 : mul32 (add32 p N) (n_embd hp) = n_embd hp * (p + N)).
    { unfold mul32, add32.
      rewrite (i32_small (p + N))
        by (unfold in_i32, INT32_MIN, INT32_MAX; nia).
      rewrite Z.mul_comm.
      apply i32_small. unfold in_i32, INT32_MIN, INT32_MAX. nia. }
    cbn [eval_layers]. unfold eval_layer.
    destruct (Z.leb_spec 1 N); [|lia].
    unfold cpy_into_view, Kcur, Vcur.
    rewrite !length_view_2d, Hm1, slice_offset_exact, Hk, Hv
      by (try assumption; lia).
    assert (Hc1 : (0 <=? n_embd hp * N) = true) by (apply Z.leb_le; nia).
    assert (Hc2 : (n_embd hp * (il * n_ctx hp + p) + n_embd hp * N
                   <=? n_embd hp * (n_layer hp * n_ctx hp)) = true)
      by (apply Z.leb_le; nia).
    assert (Hc3 : (Z.of_nat (Z.to_nat N * Z.to_nat (n_embd hp))
                   =? n_embd hp * N) = true) by (apply Z.eqb_eq; nia).
    rewrite Hc1, Hc2, Hc3. cbn [andb].
    unfold view_1d. rewrite Hm2, layer_offset_exact by assumption.
    assert (Hc4 : (0 <=? n_embd hp * (p + N)) = true) by (apply Z.leb_le; nia).
    rewrite Hc4. cbn [andb].
    set (mk1 := _ ++ _ ++ _). set (mv1 := _ ++ _ ++ _).
    assert (Hk1 : Z.of_nat (List.length mk1)
                  = n_embd hp * (n_layer hp * n_ctx hp)).
    { subst mk1. rewrite !length_app, length_firstn, length_skipn,
        length_view_2d. nia. }
    assert (Hv1 : Z.of_nat (List.length mv1)
                  = n_embd hp * (n_layer hp * n_ctx hp)).
    { subst mv1. rewrite !length_app, length_firstn, length_skipn,
        length_view_2d. nia. }
    rewrite Hk1, Hv1.
    assert (Hc5 : (n_embd hp * (il * n_ctx hp) + n_embd hp * (p + N)
                   <=? n_embd hp * (n_layer hp * n_ctx hp)) = true)
      by (apply Z.leb_le; nia).
    rewrite Hc5.
    apply IH; try assumption. intros x Hx. apply Hils. now right.
Qed.

(** A forward pass over [N >= 1] tokens that fit in the context of a loaded
    session, with the row offset within [int], returns; it returns [true]
    unless the scratch buffer had to grow and [realloc] failed. *)
Lemma bloom_eval_defined m nt p toks ew mpt g w :
  cache_wf m -> weights m = Some w ->
  0 <= p -> 1 <= input_length toks ->
  p + input_length toks <= n_ctx (hparams m) ->
  0 <= n_vocab (hparams m) ->
  n_vocab (hparams m) * (input_length toks - 1) <= INT32_MAX ->
  exists ok m' lg mpt' g',
    bloom_eval m nt p toks ew mpt g = Some (ok, m', lg, mpt', g').
Proof.
  intros (Hd & Hk & Hv) Hw Hp HN HpN Hnv Hmax.
  unfold bloom_eval.
  destruct (_ && negb _); [do 5 eexists; reflexivity|].
  rewrite Hw. unfold eval_graph, eval_upto.
  destruct (eval_layers_defined w (hparams m) p (input_length toks)
              (int_range (n_layer (hparams m))) Hd Hp HN HpN
              (fun il Hil => proj1 (in_int_range _ _) Hil)
              (k_embed w toks) _ _ Hk Hv) as ([[inpL mk] mv] & ->).
  unfold last_row.
  pose proof (i32_range (Z.of_nat (List.length toks))) as HNr.
  fold (input_length toks) in HNr.
  unfold in_i32, INT32_MIN, INT32_MAX in *.
  assert (Ho : mul32 (n_vocab (hparams m)) (sub32 (input_length toks) 1)
               = n_vocab (hparams m) * (input_length toks - 1)).
  { unfold mul32, sub32.
    rewrite (i32_small (input_length toks - 1))
      by (unfold in_i32, INT32_MIN, INT32_MAX; lia).
    apply i32_small. unfold in_i32, INT32_MIN, INT32_MAX. nia. }
  rewrite Ho.
  destruct (Z.ltb_spec (n_vocab (hparams m) * (input_length toks - 1)) 0);
    [nia|].
  destruct (Z.ltb_spec (n_vocab (hparams m)) 0); [lia|]. cbn [orb].
  destruct (Z.eqb_spec (input_length toks) 0); [lia|].
  destruct (mpt =? 0); do 5 eexists; reflexivity.
Qed.

(** C2, amended.  In a session whose cache has its documented shape, a
    forward pass that returns [true] for [n1] tokens at cache position [p],
    with [0 <= p] and [p + n1 <= n_ctx], leaves, in every layer, every
    position outside [p, p+n1) as it was and in each position of [p, p+n1)
    the key and the value it computed for that token; a second pass for
    [n2] tokens at [p+n1], with [p + n1 + n2 <= n_ctx], then leaves
    positions below [p] as they were before the first, positions of
    [p, p+n1) as the first wrote them and positions of [p+n1, p+n1+n2) as
    the second computed them.  The code does not test the two bounds
    (lines 650-655), and [chat] and [bloom_load] call it without testing
    them. *)
Theorem kv_cache_slices :
  forall m nt p toks1 ew mpt g m1 lg1 mpt1 g1,
    cache_wf m -> in_i32 p ->
    0 <= p -> p + input_length toks1 <= n_ctx (hparams m) ->
    bloom_eval m nt p toks1 ew mpt g = Some (true, m1, lg1, mpt1, g1) ->
    (forall il q j,
       0 <= il < n_layer (hparams m) -> 0 <= q < n_ctx (hparams m) ->
       0 <= j < n_embd (hparams m) ->
       (q < p \/ p + input_length toks1 <= q -> kept m m1 il q j)
       /\ (p <= q < p + input_length toks1 -> written m p toks1 m1 il q j))
    /\ forall nt' toks2 ew' mpt' g' m2 lg2 mpt2 g2,
         0 <= input_length toks1 ->
         p + input_length toks1 + input_length toks2 <= n_ctx (hparams m) ->
         bloom_eval m1 nt' (p + input_length toks1) toks2 ew' mpt' g'
         = Some (true, m2, lg2, mpt2, g2) ->
         forall il q j,
           0 <= il < n_layer (hparams m) -> 0 <= q < n_ctx (hparams m) ->
           0 <= j < n_embd (hparams m) ->
           (q < p -> kept m m2 il q j)
           /\ (p <= q < p + input_length toks1 ->
               written m p toks1 m2 il q j)
           /\ (p + input_length toks1 <= q
               < p + input_length toks1 + input_length toks2 ->
               written m1 (p + input_length toks1) toks2 m2 il q j).
Proof.
  intros m nt p toks1 ew mpt g m1 lg1 mpt1 g1 Hwf Hp Hp0 Hend H1.
  destruct (bloom_eval_cache _ _ _ _ _ _ _ _ _ _ _ Hwf Hp H1)
    as (Hwf1 & Hhp & _ & _ & Hc1).
  split; [exact Hc1|].
  intros nt' toks2 ew' mpt' g' m2 lg2 mpt2 g2 Hn1 Hend2 H2 il q j Hil Hq Hj.
  assert (Hp' : in_i32 (p + input_length toks1)).
  { destruct Hwf as ((He & Hc & Hl & Hmax) & _).
    assert (n_ctx (hparams m) <= n_layer (hparams m) * n_ctx (hparams m))
      by nia.
    assert (n_layer (hparams m) * n_ctx (hparams m)
            <= n_embd (hparams m) * (n_layer (hparams m) * n_ctx (hparams m)))
      by nia.
    unfold in_i32, INT32_MIN, INT32_MAX in *. lia. }
  destruct (bloom_eval_cache _ _ _ _ _ _ _ _ _ _ _ Hwf1 Hp' H2)
    as (_ & _ & _ & _ & Hc2).
  rewrite Hhp in Hc2.
  destruct (Hc1 il q j Hil Hq Hj) as [Hk1 Hw1].
  destruct (Hc2 il q j Hil Hq Hj) as [Hk2 Hw2].
  split; [|split].
  - intros Hlt. destruct Hk1 as [Ek1 Ev1]; [lia|].
    destruct Hk2 as [Ek2 Ev2]; [lia|]. rewrite Hhp in Ek2, Ev2.
    split; congruence.
  - intros Hin. destruct (Hw1 Hin) as (cur & Hcur & Ek1 & Ev1).
    destruct Hk2 as [Ek2 Ev2]; [lia|]. rewrite Hhp in Ek2, Ev2.
    exists cur. split; [assumption|]. split; congruence.
  - intros Hin. now apply Hw2.
Qed.

(** C8, amended.  A forward pass over [N >= 1] tokens that returns [true],
    with [n_vocab*(N-1)] within the 32-bit range of the [int] on which the
    row offset is computed, returns exactly [n_vocab] logits, and they are
    row [N-1] of the logits tensor of the call. *)
Theorem last_logits_row :
  forall m nt p toks ew mpt g m' lg mpt' g',
    bloom_eval m nt p toks ew mpt g = Some (true, m', lg, mpt', g') ->
    1 <= input_length toks ->
    n_vocab (hparams m) * (input_length toks - 1) <= INT32_MAX ->
    returns_last_row m p toks lg.
Proof.
  intros m nt p toks ew mpt g m' lg mpt' g' H HN Hmax.
  apply bloom_eval_inv in H.
  destruct H as (w & inpL & mk & mv & Hw & Hg & _ & Hrow & _).
  unfold last_row in Hrow.
  destruct (_ || _) eqn:E; [discriminate|].
  apply orb_false_iff in E. destruct E as [_ Hv]. apply Z.ltb_ge in Hv.
  injection Hrow as <-.
  pose proof (i32_range (Z.of_nat (List.length toks))) as HNr.
  fold (input_length toks) in HNr.
  unfold in_i32, INT32_MIN, INT32_MAX in *.
  assert (Ho : mul32 (n_vocab (hparams m)) (sub32 (input_length toks) 1)
               = n_vocab (hparams m) * (input_length toks - 1)).
  { unfold mul32, sub32.
    rewrite (i32_small (input_length toks - 1))
      by (unfold in_i32, INT32_MIN, INT32_MAX; lia).
    apply i32_small. unfold in_i32, INT32_MIN, INT32_MAX. nia. }
  split.
  - rewrite length_map, length_int_range. lia.
  - exists (k_head w inpL). split.
    + unfold eval_logits. now rewrite Hw, Hg.
    + unfold logits_row. now rewrite Ho.
Qed.

(** C5, amended.  For a positive embedding width and a positive
    granularity with [4*n_embd + n_mult] within the 32-bit signed range (no
    step of the expression overflows [int]), the width computed by the
    loader is the smallest multiple of [n_mult] that is at least
    [4*n_embd]. *)
Theorem n_ff_least_multiple :
  forall e m,
    0 < e -> 0 < m -> 4 * e + m <= INT32_MAX ->
    least_multiple_geq m (4 * e) (n_ff_of e m).
Proof.
  intros e m He Hm Hmax. unfold INT32_MAX in Hmax.
  unfold n_ff_of, mul32, add32, sub32, div32.
  rewrite (i32_small (4 * e)) by (unfold in_i32, INT32_MIN, INT32_MAX; lia).
  rewrite (i32_small (4 * e + m)) by (unfold in_i32, INT32_MIN, INT32_MAX; lia).
  rewrite (i32_small (4 * e + m - 1))
    by (unfold in_i32, INT32_MIN, INT32_MAX; lia).
  rewrite Z.quot_div_nonneg by lia.
  pose proof (Z.div_mod (4 * e + m - 1) m ltac:(lia)) as Hdm.
  pose proof (Z.mod_pos_bound (4 * e + m - 1) m Hm) as Hr.
  set (q := (4 * e + m - 1) / m) in *.
  assert (Hq : 0 <= q) by (apply Z.div_pos; lia).
  assert (Hqm : q * m <= 4 * e + m - 1) by lia.
  assert (Hqq : q <= q * m) by nia.
  rewrite (i32_small q) by (unfold in_i32, INT32_MIN, INT32_MAX; lia).
  rewrite (i32_small (q * m)) by (unfold in_i32, INT32_MIN, INT32_MAX; nia).
  split; [|split].
  - exists q. reflexivity.
  - nia.
  - intros w [k ->] Hw.
    destruct (Z_lt_le_dec k q); [|nia].
    assert (k * m <= (q - 1) * m) by nia. nia.
Qed.

(** C6.  For a file that holds at least four bytes, the first four of
    which do not spell the magic constant, [bloom_model_load] returns
    [false] and leaves the model, the vocabulary and the process as they
    were: no hyperparameter has been read, no word indexed and no arena
    created. *)
Theorem bad_magic_fails_early :
  forall fname bytes m v n_ctx' g,
    fs fname = Some bytes ->
    (4 <= List.length bytes)%nat ->
    le_combine (firstn 4 bytes) <> BLOOM_MAGIC ->
    bloom_model_load fname m v n_ctx' g = (false, m, v, g).
Proof.
  intros fname bytes m v n_ctx' g Hfs Hlen Hmagic.
  unfold bloom_model_load. rewrite Hfs.
  unfold read_u32, fin_read, ifstream_open. cbn [good rest pos].
  destruct (Nat.leb_spec 4 (List.length bytes)); [|lia].
  destruct (Z.eqb_spec (le_combine (firstn 4 bytes)) BLOOM_MAGIC);
    [contradiction|reflexivity].
Qed.

Ltac break_match_in H :=
  match type of H with
  | context [match ?x with _ => _ end] => destruct x eqn:?
  | context [if ?x then _ else _] => destruct x eqn:?
  end.

Lemma load_hparams_n_ctx h n_ctx' fin hp fin' :
  load_hparams h n_ctx' fin = (hp, fin') -> n_ctx hp = n_ctx'.
Proof.
  unfold load_hparams. intros H.
  repeat (break_match_in H). now injection H as <- _.
Qed.

(** What a successful load leaves: no forward pass was run, the context
    length is the caller's, and both cache tensors have the [int] number of
    elements of lines 329-330. *)
Lemma bloom_model_load_ok fname m v n_ctx' g m0 v0 g0 :
  bloom_model_load fname m v n_ctx' g = (true, m0, v0, g0) ->
  evals g0 = evals g
  /\ n_ctx (hparams m0) = n_ctx'
  /\ List.length (memory_k m0)
     = Z.to_nat (mul32 (n_embd (hparams m0))
                   (mul32 (n_layer (hparams m0)) (n_ctx (hparams m0))))
  /\ List.length (memory_v m0) = List.length (memory_k m0).
Proof.
  unfold bloom_model_load. intros H.
  repeat (break_match_in H; try discriminate).
  injection H as _ <- _ <-. cbn.
  rewrite !length_map, !length_int_range.
  repeat split; try reflexivity.
  eapply load_hparams_n_ctx; eassumption.
Qed.


(** *** The multi-turn loop *)




(** A call is entered in the trace, whatever it returns. *)
Lemma bloom_eval_log m nt p toks ew mpt g ok m' lg mpt' g' :
  bloom_eval m nt p toks ew mpt g = Some (ok, m', lg, mpt', g') ->
  evals g' = evals g ++ [(p, toks)].
Proof.
  unfold bloom_eval. intros H.
  set (grow := (0 <? mpt) && _) in H.
  assert (Hlog : evals (if grow
                        then set_buf_size (log_eval g p toks)
                               (u64 (scale_1_1
                                       (u64 (mpt * u64 (input_length toks)))))
                        else log_eval g p toks)
                 = evals g ++ [(p, toks)]) by (destruct grow; reflexivity).
  destruct (grow && negb _).
  - injection H as _ _ _ _ <-. exact Hlog.
  - destruct (weights m) as [w|]; [|discriminate].
    destruct (eval_graph w m p toks) as [[[inpL mk] mv]|]; [|discriminate].
    destruct (last_row _ _ _) as [row|]; [|discriminate].
    destruct (if mpt =? 0 then _ else _); [|discriminate].
    injection H as _ _ _ _ <-. exact Hlog.
Qed.

Lemma refill_history_evals embd_inp n_past' idxs :
  forall last_n g last_n' g',
    refill_history embd_inp n_past' idxs last_n g = Some (last_n', g') ->
    evals g' = evals g.
Proof.
  induction idxs as [|i idxs IH]; intros last_n g last_n' g' H.
  - now injection H as _ <-.
  - cbn [refill_history] in H.
    destruct (vec_shift last_n _) as [l1|]; [|discriminate].
    apply IH in H. exact H.
Qed.




(** *** The entry points *)

(** The generator of a call is seeded from the clock whenever the default
    seed of [gpt_params] is negative, from the caller's seed otherwise. *)
Lemma entry_params_seed clock seed' nt' nb' np' text :
  seed (entry_params clock seed' nt' nb' np' text)
  = if seed gpt_params_default <? 0 then i32 clock else seed'.
Proof. reflexivity. Qed.

Lemma bloom_run_seed_unused cc clock s1 s2 nt' nb' np' text g :
  seed gpt_params_default < 0 ->
  bloom_run cc clock s1 nt' nb' np' text g
  = bloom_run cc clock s2 nt' nb' np' text g.
Proof.
  intros H. unfold bloom_run, entry_params.
  destruct (Z.ltb_spec (seed gpt_params_default) 0); [reflexivity|lia].
Qed.

(** [bloom_chat] returns 0 for every non-negative code of [chat]. *)
Lemma bloom_chat_ret cc clock seed' nt' nb' np' text g ret cc' dst g' :
  bloom_chat cc clock seed' nt' nb' np' text g = Some (ret, cc', dst, g') ->
  exists suffix r s,
    text_from text (n_chars cc) = Some suffix
    /\ chat (entry_params clock seed' nt' nb' np' suffix) (model cc) (vocab cc)
         (mem_per_token cc) (n_chars cc) (n_past cc) (last_n_tokens cc)
         [text] g = Some (r, s)
    /\ ret = (if r <? 0 then -1 else 0).
Proof.
  unfold bloom_chat. intros H.
  destruct (text_from text (n_chars cc)) as [suffix|]; [|discriminate].
  destruct (chat _ _ _ _ _ _ _ _ _) as [[r s]|] eqn:Ec; [|discriminate].
  exists suffix, r, s. split; [reflexivity|]. split; [exact Ec|].
  destruct (r <? 0); congruence.
Qed.

(** The batch that the one-shot loop collects from [rem] holds one token
    more than [n_batch] when the prompt is long enough. *)
Lemma take_batch_length nb rem :
  forall embd last_n embd' last_n',
    0 <= nb < 2 ^ 64 ->
    Z.of_nat (List.length embd) <= nb ->
    take_batch nb rem embd last_n = Some (embd', last_n') ->
    Z.of_nat (List.length embd')
    = Z.min (Z.of_nat (List.length embd + List.length rem)) (nb + 1).
Proof.
  induction rem as [|t rem IH]; intros embd last_n embd' last_n' Hnb Hlen H;
    cbn [take_batch] in H.
  - injection H as <- _. rewrite Nat.add_0_r. lia.
  - destruct (vec_shift last_n t) as [l1|]; [|discriminate].
    rewrite u64_small in H by lia. rewrite length_app in H. cbn [List.length] in H.
    destruct (Z.ltb_spec nb (Z.of_nat (List.length embd + 1))).
    + injection H as <- _. rewrite length_app. cbn [List.length]. lia.
    + apply IH in H; [|lia|rewrite length_app; cbn [List.length]; lia].
      rewrite H, length_app. cbn [List.length]. lia.
Qed.

(** The indices at which the history refill reads the tokenized input. *)
Lemma refill_history_reads embd_inp n_past' idxs :
  forall last_n g last_n' g',
    refill_history embd_inp n_past' idxs last_n g = Some (last_n', g') ->
    history_reads g'
    = history_reads g
      ++ List.map (fun i => (u64 (n_past' + u64 i),
                             Z.of_nat (List.length embd_inp))) idxs.
Proof.
  induction idxs as [|i idxs IH]; intros last_n g last_n' g' H.
  - injection H as _ <-. now rewrite app_nil_r.
  - cbn [refill_history] in H.
    destruct (vec_shift last_n _) as [l1|]; [|discriminate].
    apply IH in H. rewrite H. cbn [log_read history_reads List.map].
    now rewrite <- app_assoc.
Qed.


Lemma bloom_eval_reads m nt p toks ew mpt g ok m' lg mpt' g' :
  bloom_eval m nt p toks ew mpt g = Some (ok, m', lg, mpt', g') ->
  history_reads g' = history_reads g.
Proof.
  unfold bloom_eval. intros H.
  set (grow := (0 <? mpt) && _) in H.
  assert (Hlog : history_reads
                   (if grow
                    then set_buf_size (log_eval g p toks)
                           (u64 (scale_1_1
                                   (u64 (mpt * u64 (input_length toks)))))
                    else log_eval g p toks)
                 = history_reads g) by (destruct grow; reflexivity).
  destruct (grow && negb _).
  - injection H as _ _ _ _ <-. exact Hlog.
  - destruct (weights m) as [w|]; [|discriminate].
    destruct (eval_graph w m p toks) as [[[inpL mk] mv]|]; [|discriminate].
    destruct (last_row _ _ _) as [row|]; [|discriminate].
    destruct (if mpt =? 0 then _ else _); [|discriminate].
    injection H as _ _ _ _ <-. exact Hlog.
Qed.

(** Whenever the ingestion loop of [chat] gets through an input that is
    not yet consumed, one of the reads of the history refill is at an index
    that is not below the size of the vector it reads. *)
Lemma chat_ingest_reads_past_end params embd_inp n_past_init n_input fuel :
  forall k s s',
    0 <= n_past_init ->
    n_past_init + Z.of_nat (List.length embd_inp) < 2 ^ 64 ->
    n_input = n_past_init + Z.of_nat (List.length embd_inp) ->
    (k < List.length embd_inp)%nat ->
    c_n_past s = n_past_init + Z.of_nat k ->
    chat_ingest fuel params embd_inp n_past_init n_input s = Some (true, s') ->
    exists reads idx,
      history_reads (c_proc s') = history_reads (c_proc s) ++ reads
      /\ In (idx, Z.of_nat (List.length embd_inp)) reads
      /\ Z.of_nat (List.length embd_inp) <= idx.
Proof.
  induction fuel as [|fuel IH]; intros k s s' H0 Hmax Hni Hk Hs H;
    cbn [chat_ingest] in H;
    destruct (Z.ltb_spec (c_n_past s) n_input) as [Hlt|Hge];
    try discriminate; try lia.
  set (n := i32 _) in H.
  replace (u64 (c_n_past s - n_past_init)) with (Z.of_nat k) in H
    by (rewrite Hs, u64_small; lia).
  destruct (sub_vector embd_inp (Z.of_nat k) n) as [embd|] eqn:Esub;
    [|discriminate].
  unfold sub_vector in Esub.
  destruct (Z.leb_spec 0 n); [|discriminate].
  destruct (Z.leb_spec (Z.of_nat k + n) (Z.of_nat (List.length embd_inp)));
    [|discriminate].
  clear Esub.
  destruct (bloom_eval _ _ _ _ _ _ _) as [[[[[ok1 m1] lg1] mpt1] g1]|] eqn:Ee;
    [|discriminate].
  apply bloom_eval_reads in Ee.
  destruct ok1; cbn [negb] in H; [|discriminate].
  destruct (refill_history _ _ _ _ _) as [[last_n g2]|] eqn:Er;
    [|discriminate].
  apply refill_history_reads in Er. rewrite Ee in Er.
  rewrite (u64_small n) in * by lia.
  rewrite (u64_small (c_n_past s + n)) in * by lia.
  destruct (Z.eq_dec (Z.of_nat k + n) (Z.of_nat (List.length embd_inp)))
    as [Hlast|Hmore].
  - (* the last batch: the input is consumed and the loop ends *)
    assert (Hn : 0 < n) by lia.
    destruct fuel as [|fuel']; cbn [chat_ingest c_n_past] in H;
      (destruct (Z.ltb_spec (c_n_past s + n) n_input); [lia|]);
      injection H as <-; cbn [c_proc];
      eexists _, (u64 (c_n_past s + n + u64 0)); (split; [exact Er|]);
      (split;
       [apply in_map_iff; exists 0; split;
        [reflexivity|apply in_int_range; lia]
       |rewrite (u64_small 0), u64_small by lia; lia]).
  - apply (IH (k + Z.to_nat n)%nat) in H; try assumption; try lia;
      [|cbn [c_n_past]; lia].
    destruct H as (reads & idx & Hr & Hin & Hidx). cbn [c_proc] in Hr.
    exists (List.map (fun i => (u64 (c_n_past s + n + u64 i),
                                Z.of_nat (List.length embd_inp)))
                     (int_range n) ++ reads), idx.
    split; [rewrite Hr, Er, <- app_assoc; reflexivity|].
    split; [apply in_or_app; now right|assumption].
Qed.

(** A failed evaluation of the prompt makes [chat] return 1, which
    [bloom_chat] turns into 0. *)
Lemma bloom_chat_hides_ingest_failure cc clock seed' nt' nb' np' text g
    suffix embd_inp s :
  text_from text (n_chars cc) = Some suffix ->
  chat_embd_inp (entry_params clock seed' nt' nb' np' suffix) (vocab cc)
    (last_n_tokens cc) = Some embd_inp ->
  chat_ingest
    (Z.to_nat (u64 (n_past cc + Z.of_nat (List.length embd_inp)) - n_past cc))
    (set_n_predict (entry_params clock seed' nt' nb' np' suffix)
       (Z.min np'
          (sub32 (n_ctx (hparams (model cc)))
             (i32 (u64 (n_past cc + Z.of_nat (List.length embd_inp)))))))
    embd_inp (n_past cc)
    (u64 (n_past cc + Z.of_nat (List.length embd_inp)))
    {| c_n_chars := n_chars cc; c_n_past := n_past cc;
       c_last_n_tokens := last_n_tokens cc; c_logits := [];
       c_rng := mt19937 (seed (entry_params clock seed' nt' nb' np' suffix));
       c_dst := [text]; c_model := model cc;
       c_mem_per_token := mem_per_token cc; c_proc := g |}
  = Some (false, s) ->
  exists cc',
    bloom_chat cc clock seed' nt' nb' np' text g
    = Some (0, cc', c_dst s, c_proc s).
Proof.
  intros Ht He Hi. unfold bloom_chat, chat. rewrite Ht, He.
  cbn [n_predict entry_params] in *. rewrite Hi. cbn.
  eexists. reflexivity.
Qed.

(** *** The checkpoint header and the vocabulary, as the file holds them *)

Lemma length_field32 z : List.length (field32 z) = 4%nat.
Proof. apply length_le_split. Qed.

Lemma i32_u32 v : in_i32 v -> i32 (v mod 2 ^ 32) = v.
Proof.
  intros H. unfold i32. rewrite Zplus_mod_idemp_l.
  unfold in_i32, INT32_MIN, INT32_MAX in H. rewrite Z.mod_small; lia.
Qed.

Lemma fin_read_prefix (bs t dst : list byte) p :
  fin_read (List.length bs) dst {| rest := bs ++ t; pos := p; good := true |}
  = (bs, {| rest := t; pos := p + Z.of_nat (List.length bs); good := true |}).
Proof.
  unfold fin_read. cbn [good rest pos].
  rewrite length_app.
  destruct (Nat.leb_spec (List.length bs) (List.length bs + List.length t)) as [_|H];
    [|lia].
  rewrite firstn_app, Nat.sub_diag, firstn_all, firstn_O, app_nil_r.
  rewrite skipn_app, Nat.sub_diag, skipn_all, skipn_O. reflexivity.
Qed.

Lemma read_u32_field old v t p :
  read_u32 old {| rest := field32 v ++ t; pos := p; good := true |}
  = (v mod 2 ^ 32, {| rest := t; pos := p + 4; good := true |}).
Proof.
  unfold read_u32.
  pose proof (fin_read_prefix (field32 v) t (le_split 4 old) p) as H.
  rewrite length_field32 in H. rewrite H.
  unfold field32. rewrite le_combine_split. reflexivity.
Qed.

Lemma read_i32_field old v t p :
  in_i32 v ->
  read_i32 old {| rest := field32 v ++ t; pos := p; good := true |}
  = (v, {| rest := t; pos := p + 4; good := true |}).
Proof.
  intros H. unfold read_i32. rewrite read_u32_field. now rewrite i32_u32.
Qed.

(** A read from a stream that has failed, or that is at the end of the
    file, leaves the field as it was. *)
Lemma read_i32_failed old s :
  in_i32 old -> good s = false -> read_i32 old s = (old, s).
Proof.
  intros Hold Hs. unfold read_i32, read_u32, fin_read. rewrite Hs.
  rewrite le_combine_split. now rewrite i32_u32.
Qed.

Lemma read_i32_eof old p :
  in_i32 old ->
  read_i32 old {| rest := []; pos := p; good := true |}
  = (old, {| rest := []; pos := p; good := false |}).
Proof.
  intros Hold. unfold read_i32, read_u32, fin_read. cbn [good rest pos].
  cbn [List.length Nat.leb app skipn]. rewrite le_combine_split.
  rewrite i32_u32 by assumption. now rewrite Z.add_0_r.
Qed.

(** Past the magic, every way out of the loader leaves in the model the
    hyperparameters that [load_hparams] read. *)
Lemma bloom_model_load_hparams fname bytes m v c g ok m' v' g' :
  fs fname = Some bytes ->
  fst (read_u32 stack_junk (ifstream_open bytes)) = BLOOM_MAGIC ->
  bloom_model_load fname m v c g = (ok, m', v', g') ->
  hparams m'
  = fst (load_hparams (hparams m) c
           (snd (read_u32 stack_junk (ifstream_open bytes))))
  /\ v' = fst (load_vocab stack_junk (n_vocab (hparams m'))
                 (snd (load_hparams (hparams m) c
                         (snd (read_u32 stack_junk (ifstream_open bytes))))) v).
Proof.
  intros Hfs Hmagic H. unfold bloom_model_load in H. rewrite Hfs in H.
  destruct (read_u32 stack_junk (ifstream_open bytes)) as [magic fin] eqn:Er.
  cbn [fst snd] in *. subst magic. rewrite Z.eqb_refl in H. cbn [negb] in H.
  destruct (load_hparams (hparams m) c fin) as [hp fin1] eqn:Eh.
  cbn [fst snd].
  destruct (load_vocab stack_junk (n_vocab hp) fin1 v) as [v1 fin2] eqn:Ev.
  destruct (wtype_of_f16 (f16 hp)) as [wt|].
  - destruct (ggml_init_ok (ctx_size_of hp (n_ff_of (n_embd hp) (n_mult hp)) wt)).
    + cbn [negb] in H.
      destruct (read_weights hp (n_ff_of (n_embd hp) (n_mult hp)) 1 bytes
                  (tellg fin2)) as [okw w].
      injection H as <- <- <- <-. cbn [hparams set_weights set_memory set_ctx set_hparams].
      rewrite Ev. split; reflexivity.
    + cbn [negb] in H. injection H as <- <- <- <-.
      cbn [hparams set_ctx set_hparams]. rewrite Ev. split; reflexivity.
  - injection H as <- <- <- <-. cbn [hparams set_hparams]. rewrite Ev.
    split; reflexivity.
Qed.

Lemma load_hparams_fields h c vs t p :
  List.length vs = 6%nat -> Forall in_i32 vs ->
  exists hp,
    load_hparams h c {| rest := header_bytes vs ++ t; pos := p; good := true |}
    = (hp, {| rest := t; pos := p + 24; good := true |})
    /\ hparams_fields hp = vs /\ n_ctx hp = c.
Proof.
  intros Hlen Hall.
  destruct vs as [|v1 [|v2 [|v3 [|v4 [|v5 [|v6 [|? ?]]]]]]]; try discriminate.
  repeat match goal with
         | H : Forall _ (_ :: _) |- _ => inversion H; subst; clear H
         end.
  unfold load_hparams, header_bytes. cbn [flat_map].
  rewrite <- !app_assoc.
  repeat (rewrite read_i32_field by assumption).
  cbn [app].
  eexists. split; [do 2 f_equal; lia | split; reflexivity].
Qed.

Lemma load_hparams_truncated h c vs p :
  (List.length vs <= 6)%nat -> Forall in_i32 vs ->
  Forall in_i32 (hparams_fields h) ->
  exists hp fin',
    load_hparams h c {| rest := header_bytes vs; pos := p; good := true |}
    = (hp, fin')
    /\ hparams_fields hp = vs ++ skipn (List.length vs) (hparams_fields h)
    /\ n_ctx hp = c
    /\ ((List.length vs < 6)%nat -> good fin' = false).
Proof.
  intros Hlen Hall Hold.
  unfold hparams_fields in Hold.
  repeat match goal with
         | H : Forall _ (_ :: _) |- _ => inversion H; subst; clear H
         end.
  destruct vs as [|v1 [|v2 [|v3 [|v4 [|v5 [|v6 [|? ?]]]]]]];
    try (cbn [List.length] in Hlen; lia);
    repeat match goal with
           | H : Forall _ (_ :: _) |- _ => inversion H; subst; clear H
           end;
    unfold load_hparams, header_bytes; cbn [flat_map];
    repeat (rewrite read_i32_field by assumption);
    try (rewrite read_i32_eof by assumption);
    repeat (rewrite read_i32_failed by (assumption || reflexivity));
    do 2 eexists; (split; [reflexivity|]); cbn [hparams_fields n_vocab n_embd
      n_mult n_head n_layer f16 n_ctx List.length skipn app good];
    (split; [reflexivity|]); (split; [reflexivity|]); intros; try reflexivity;
    try lia.
Qed.

Lemma read_magic bytes junk :
  read_u32 junk (ifstream_open (field32 BLOOM_MAGIC ++ bytes))
  = (BLOOM_MAGIC, {| rest := bytes; pos := 4; good := true |}).
Proof.
  unfold ifstream_open. rewrite read_u32_field. reflexivity.
Qed.

(** *** The vocabulary *)

Lemma index_word_ids v w :
  token_to_id (index_word v w) = token_to_id v
  /\ id_to_token (index_word v w) = id_to_token v.
Proof.
  unfold index_word. destruct (list_byte_of_string w) as [|c0 [|c1 tl]];
    try destruct (Byte.eqb c0 Byte.x20); split; reflexivity.
Qed.

Lemma fold_index_word_ids ws : forall v,
  token_to_id (fold_left index_word ws v) = token_to_id v
  /\ id_to_token (fold_left index_word ws v) = id_to_token v.
Proof.
  induction ws as [|w ws IH]; intros v; cbn [fold_left]; [split; reflexivity|].
  destruct (IH (index_word v w)) as [-> ->]. apply index_word_ids.
Qed.

Lemma string_of_list_byte_inj a b :
  string_of_list_byte a = string_of_list_byte b -> a = b.
Proof.
  intros H. rewrite <- (list_byte_of_string_of_list_byte a),
    <- (list_byte_of_string_of_list_byte b). now rewrite H.
Qed.

Lemma resize_bytes_length w n : List.length (resize_bytes w n) = n.
Proof.
  unfold resize_bytes. rewrite length_app, length_firstn, repeat_length. lia.
Qed.

(** The loop over the entries, on a stream that holds them: entry [i]
    goes to id [a + i]; a word that occurs again later is mapped to the
    later id. *)
Lemma load_vocab_words_entries junk ws : forall a word tail p v,
  Forall (fun w => Z.of_nat (List.length w) < 2 ^ 32) ws ->
  exists v',
    load_vocab_words junk (int_from a (List.length ws)) word
      {| rest := vocab_bytes ws ++ tail; pos := p; good := true |} v
    = (v', {| rest := tail;
              pos := p + Z.of_nat (List.length (vocab_bytes ws));
              good := true |})
    /\ (forall i w, nth_error ws i = Some w ->
          map.get (id_to_token v') (a + Z.of_nat i)
          = Some (string_of_list_byte w))
    /\ (forall k, ~ a <= k < a + Z.of_nat (List.length ws) ->
          map.get (id_to_token v') k = map.get (id_to_token v) k)
    /\ (forall i w, nth_error ws i = Some w ->
          (forall k w', (i < k)%nat -> nth_error ws k = Some w' -> w' <> w) ->
          map.get (token_to_id v') (string_of_list_byte w)
          = Some (a + Z.of_nat i))
    /\ (forall s, (forall w, In w ws -> string_of_list_byte w <> s) ->
          map.get (token_to_id v') s = map.get (token_to_id v) s)
    /\ words v' = words v /\ space_words v' = space_words v.
Proof.
  induction ws as [|w ws IH]; intros a word tail p v Hall.
  - cbn [List.length int_from load_vocab_words vocab_bytes flat_map app].
    eexists. split; [now rewrite Z.add_0_r|].
    repeat split; try reflexivity.
    + intros [|i] w0 H; discriminate.
    + intros [|i] w0 H; discriminate.
  - inversion Hall as [|? ? Hw Hall']; subst.
    cbn [List.length int_from load_vocab_words vocab_bytes flat_map].
    fold (vocab_bytes ws). rewrite <- !app_assoc.
    rewrite read_u32_field.
    rewrite Z.mod_small by lia. rewrite Nat2Z.id.
    rewrite fin_read_prefix.
    set (v1 := {| token_to_id := map.put (token_to_id v) (string_of_list_byte w) a;
                  id_to_token := map.put (id_to_token v) a (string_of_list_byte w);
                  words := words v; space_words := space_words v |}).
    destruct (IH (a + 1) w tail (p + 4 + Z.of_nat (List.length w)) v1 Hall')
      as (v' & Hrun & Hid & Hid' & Htok & Htok' & Hw1 & Hw2).
    exists v'. split.
    { rewrite Hrun. do 2 f_equal. rewrite !length_app, length_field32. lia. }
    pose proof (SortedListZ.ok string) as okZ.
    pose proof (SortedListString.ok Z) as okS.
    split; [|split; [|split; [|split; [|split]]]].
    + intros [|i] w0 H0; cbn [nth_error] in H0.
      * injection H0 as <-. rewrite Z.add_0_r.
        rewrite Hid' by lia. subst v1. cbn [id_to_token].
        apply map.get_put_same.
      * replace (a + Z.of_nat (S i)) with (a + 1 + Z.of_nat i) by lia.
        now apply Hid.
    + intros k Hk. rewrite Hid' by lia. subst v1. cbn [id_to_token].
      apply map.get_put_diff. lia.
    + intros [|i] w0 H0 Hlast; cbn [nth_error] in H0.
      * injection H0 as <-. rewrite Z.add_0_r.
        rewrite Htok'.
        { subst v1. cbn [token_to_id]. apply map.get_put_same. }
        intros w' Hin Heq. apply string_of_list_byte_inj in Heq. subst w'.
        apply In_nth_error in Hin. destruct Hin as [k Hk].
        apply (Hlast (S k) w); [lia|exact Hk|reflexivity].
      * replace (a + Z.of_nat (S i)) with (a + 1 + Z.of_nat i) by lia.
        apply Htok; [exact H0|].
        intros k w' Hik Hk. apply (Hlast (S k) w'); [lia|exact Hk].
    + intros s Hs. rewrite Htok'.
      * subst v1. cbn [token_to_id]. apply map.get_put_diff.
        intros E. apply (Hs w); [now left|now symmetry].
      * intros w' Hin. apply Hs. now right.
    + rewrite Hw1. reflexivity.
    + rewrite Hw2. reflexivity.
Qed.

(** The id map as the sorted list the bucket loop iterates over: an id
    above all the others goes to the end. *)
Lemma sorted_put_last (T : Type) (l : list (Z * T)) k x :
  (forall k' x', In (k', x') l -> k' < k) ->
  SortedList.put (p := SortedListZ.Build_parameters T) l k x = l ++ [(k, x)].
Proof.
  induction l as [|[k0 x0] l IH]; intros H; cbn [SortedList.put app].
  - reflexivity.
  - assert (k0 < k) as Hk by (apply (H k0 x0); now left).
    cbn [SortedList.parameters.ltb SortedListZ.Build_parameters].
    destruct (Z.ltb_spec k k0); [lia|]. destruct (Z.ltb_spec k0 k); [|lia].
    rewrite IH; [reflexivity|]. intros k' x' Hin. apply (H k' x'). now right.
Qed.

Lemma load_vocab_words_value junk ws : forall a word tail p v,
  Forall (fun w => Z.of_nat (List.length w) < 2 ^ 32) ws ->
  (forall k x, In (k, x) (SortedList.value (id_to_token v)) -> k < a) ->
  SortedList.value
    (id_to_token
       (fst (load_vocab_words junk (int_from a (List.length ws)) word
               {| rest := vocab_bytes ws ++ tail; pos := p; good := true |} v)))
  = SortedList.value (id_to_token v)
    ++ combine (int_from a (List.length ws))
         (List.map string_of_list_byte ws).
Proof.
  induction ws as [|w ws IH]; intros a word tail p v Hall Hlt.
  - cbn. now rewrite app_nil_r.
  - inversion Hall as [|? ? Hw Hall']; subst.
    cbn [List.length int_from load_vocab_words vocab_bytes flat_map].
    fold (vocab_bytes ws). rewrite <- !app_assoc.
    rewrite read_u32_field.
    rewrite Z.mod_small by lia. rewrite Nat2Z.id.
    rewrite fin_read_prefix.
    rewrite IH; [|exact Hall'|].
    + cbn [id_to_token List.map combine].
      change (SortedList.value (map.put (id_to_token v) a (string_of_list_byte w)))
        with (SortedList.put (p := SortedListZ.Build_parameters string)
                (SortedList.value (id_to_token v)) a (string_of_list_byte w)).
      rewrite sorted_put_last by exact Hlt.
      now rewrite <- app_assoc.
    + cbn [id_to_token].
      change (SortedList.value (map.put (id_to_token v) a (string_of_list_byte w)))
        with (SortedList.put (p := SortedListZ.Build_parameters string)
                (SortedList.value (id_to_token v)) a (string_of_list_byte w)).
      rewrite sorted_put_last by exact Hlt.
      intros k x Hin. apply in_app_or in Hin. destruct Hin as [Hin|[Hin|[]]].
      * apply Hlt in Hin. lia.
      * injection Hin as <- <-. lia.
Qed.

Lemma map_snd_combine (A B : Type) (l : list A) (l' : list B) :
  List.length l = List.length l' -> List.map snd (combine l l') = l'.
Proof.
  revert l'. induction l as [|x l IH]; intros [|y l'] H; try discriminate;
    cbn; [reflexivity|]. f_equal. apply IH. now injection H.
Qed.

Lemma get_bucket_push (m : SortedListZ.map (list string)) k w b :
  map.get (bucket_push m k w) b
  = if k =? b then pushed (map.get m b) [w] else map.get m b.
Proof.
  pose proof (SortedListZ.ok (list string)) as okZ.
  unfold bucket_push, pushed.
  destruct (Z.eqb_spec k b) as [->|Hne].
  - destruct (map.get m b); now rewrite map.get_put_same.
  - destruct (map.get m k); rewrite map.get_put_diff by congruence; reflexivity.
Qed.

Lemma pushed_app old l1 l2 : pushed (pushed old l1) l2 = pushed old (l1 ++ l2).
Proof.
  destruct l1 as [|x l1]; [reflexivity|].
  destruct l2 as [|y l2]; [now rewrite app_nil_r|].
  cbn [pushed app]. destruct old; [now rewrite <- app_assoc|reflexivity].
Qed.

Lemma index_word_buckets v w b :
  map.get (words (index_word v w)) b
  = pushed (map.get (words v) b) (filter (word_in_bucket b) [w])
  /\ map.get (space_words (index_word v w)) b
     = pushed (map.get (space_words v) b) (filter (space_word_in_bucket b) [w]).
Proof.
  unfold index_word, word_in_bucket, space_word_in_bucket. cbn [filter].
  destruct (list_byte_of_string w) as [|c0 tl]; [split; reflexivity|].
  destruct (Byte.eqb c0 Byte.x20).
  - destruct tl as [|c1 tl]; cbn [negb andb words space_words];
      [split; reflexivity|].
    split; [reflexivity|]. rewrite get_bucket_push.
    destruct (byte.unsigned c1 =? b); reflexivity.
  - cbn [negb andb words space_words].
    split.
    + rewrite get_bucket_push. destruct (byte.unsigned c0 =? b); reflexivity.
    + destruct tl; reflexivity.
Qed.

Lemma fold_index_word_buckets strs b : forall v,
  map.get (words (fold_left index_word strs v)) b
  = pushed (map.get (words v) b) (filter (word_in_bucket b) strs)
  /\ map.get (space_words (fold_left index_word strs v)) b
     = pushed (map.get (space_words v) b)
         (filter (space_word_in_bucket b) strs).
Proof.
  induction strs as [|w strs IH]; intros v; [split; reflexivity|].
  cbn [fold_left]. destruct (IH (index_word v w)) as [-> ->].
  destruct (index_word_buckets v w b) as [-> ->].
  rewrite !pushed_app, <- !filter_app. split; reflexivity.
Qed.

(** The loader on a file that holds the magic, a whole header and
    vocabulary entries: the hyperparameters it leaves, and the vocabulary
    in terms of the entry loop. *)
Lemma bloom_model_load_file fname hp body m v c g ok m' v' g' :
  fs fname
  = Some (field32 BLOOM_MAGIC ++ header_bytes (hparams_fields hp) ++ body) ->
  Forall in_i32 (hparams_fields hp) ->
  bloom_model_load fname m v c g = (ok, m', v', g') ->
  hparams_fields (hparams m') = hparams_fields hp
  /\ n_ctx (hparams m') = c
  /\ v' = fst (load_vocab stack_junk (n_vocab hp)
                 {| rest := body; pos := 4 + 24; good := true |} v).
Proof.
  intros Hfs Hall H.
  destruct (bloom_model_load_hparams _ _ _ _ _ _ _ _ _ _ Hfs
              ltac:(now rewrite read_magic) H) as [Hhp Hv].
  rewrite read_magic in Hhp, Hv. cbn [snd] in Hhp, Hv.
  destruct (load_hparams_fields (hparams m) c (hparams_fields hp) body 4
              eq_refl Hall) as (hp' & E & Hf & Hc).
  rewrite E in Hhp, Hv. cbn [fst snd] in Hhp, Hv.
  rewrite Hhp. split; [exact Hf|]. split; [exact Hc|].
  rewrite Hv, Hhp. replace (n_vocab hp') with (n_vocab hp); [reflexivity|].
  unfold hparams_fields in Hf. now injection Hf.
Qed.

(** X1.  The hyperparameters come from the file and the context length
    from the caller: on a file with the magic and a whole header, however
    the load ends, the model holds the six fields of the header in file
    order ([n_vocab], [n_embd], [n_mult], [n_head], [n_layer], [f16]) and
    the [n_ctx] passed to the call. *)
Theorem header_round_trip :
  forall fname hp tail m v c g ok m' v' g',
    fs fname
    = Some (field32 BLOOM_MAGIC ++ header_bytes (hparams_fields hp) ++ tail) ->
    Forall in_i32 (hparams_fields hp) ->
    bloom_model_load fname m v c g = (ok, m', v', g') ->
    hparams_fields (hparams m') = hparams_fields hp
    /\ n_ctx (hparams m') = c.
Proof.
  intros fname hp tail m v c g ok m' v' g' Hfs Hall H.
  destruct (bloom_model_load_file _ _ _ _ _ _ _ _ _ _ _ Hfs Hall H)
    as (Hf & Hc & _).
  split; assumption.
Qed.

(** X2.  A header cut short: on a file that ends after the magic and
    [k <= 6] header fields, when the call returns, whatever it returns,
    the hyperparameters of the model are the [k] fields of the file
    followed by the values that the model held before for the others, a
    read that fails leaving its target alone; [n_ctx] is the caller's. *)
Theorem truncated_header_keeps_fields :
  forall fname vs m v c g ok m' v' g',
    fs fname = Some (field32 BLOOM_MAGIC ++ header_bytes vs) ->
    (List.length vs <= 6)%nat ->
    Forall in_i32 vs ->
    Forall in_i32 (hparams_fields (hparams m)) ->
    bloom_model_load fname m v c g = (ok, m', v', g') ->
    hparams_fields (hparams m')
    = vs ++ skipn (List.length vs) (hparams_fields (hparams m))
    /\ n_ctx (hparams m') = c.
Proof.
  intros fname vs m v c g ok m' v' g' Hfs Hlen Hall Hold H.
  destruct (bloom_model_load_hparams _ _ _ _ _ _ _ _ _ _ Hfs
              ltac:(now rewrite read_magic) H) as [Hhp _].
  rewrite read_magic in Hhp. cbn [snd] in Hhp.
  destruct (load_hparams_truncated (hparams m) c vs 4 Hlen Hall Hold)
    as (hp' & fin' & E & Hf & Hc & _).
  rewrite E in Hhp. cbn [fst] in Hhp. rewrite Hhp. split; assumption.
Qed.

(** X3.  The vocabulary round trip: on a file whose header announces as
    many entries as follow it (a 32-bit length, then the bytes), the
    loaded vocabulary maps id [i] to the [i]-th word of the file, and maps
    a word back to the id of its last occurrence. *)
Theorem vocabulary_round_trip :
  forall fname hp ws tail m v c g ok m' v' g',
    fs fname
    = Some (field32 BLOOM_MAGIC ++ header_bytes (hparams_fields hp)
            ++ vocab_bytes ws ++ tail) ->
    Forall in_i32 (hparams_fields hp) ->
    n_vocab hp = Z.of_nat (List.length ws) ->
    Forall (fun w => Z.of_nat (List.length w) < 2 ^ 32) ws ->
    bloom_model_load fname m v c g = (ok, m', v', g') ->
    forall i w,
      nth_error ws i = Some w ->
      map.get (id_to_token v') (Z.of_nat i) = Some (string_of_list_byte w)
      /\ ((forall k w', (i < k)%nat -> nth_error ws k = Some w' -> w' <> w) ->
          map.get (token_to_id v') (string_of_list_byte w)
          = Some (Z.of_nat i)).
Proof.
  intros fname hp ws tail m v c g ok m' v' g' Hfs Hall Hn Hws H i w Hi.
  destruct (bloom_model_load_file _ _ _ _ _ _ _ _ _ _ _ Hfs Hall H)
    as (_ & _ & Hv).
  unfold load_vocab, int_range in Hv. rewrite Hn, Nat2Z.id in Hv.
  destruct (load_vocab_words_entries stack_junk ws 0 [] tail (4 + 24) v Hws)
    as (v1 & Hrun & Hid & _ & Htok & _).
  rewrite Hrun in Hv. cbn [fst] in Hv.
  destruct (fold_index_word_ids
              (List.map snd (SortedList.value (id_to_token v1))) v1)
    as [Ht Hi'].
  rewrite Hv, Ht, Hi'. split.
  - apply (Hid i w Hi).
  - intros Hlast. apply (Htok i w Hi Hlast).
Qed.

(** X4.  The first-byte index of the vocabulary: loading into an empty
    vocabulary files every word once, in id order, under its first byte in
    [words] unless that byte is a space, and under its second byte in
    [space_words] when it starts with a space and has a second byte; the
    empty word and the word that is a single space are filed nowhere. *)
Theorem vocabulary_buckets :
  forall fname hp ws tail m c g ok m' v' g',
    fs fname
    = Some (field32 BLOOM_MAGIC ++ header_bytes (hparams_fields hp)
            ++ vocab_bytes ws ++ tail) ->
    Forall in_i32 (hparams_fields hp) ->
    n_vocab hp = Z.of_nat (List.length ws) ->
    Forall (fun w => Z.of_nat (List.length w) < 2 ^ 32) ws ->
    bloom_model_load fname m gpt_vocab_empty c g = (ok, m', v', g') ->
    forall b,
      map.get (words v') b
      = pushed None (filter (word_in_bucket b)
                       (List.map string_of_list_byte ws))
      /\ map.get (space_words v') b
         = pushed None (filter (space_word_in_bucket b)
                          (List.map string_of_list_byte ws)).
Proof.
  intros fname hp ws tail m c g ok m' v' g' Hfs Hall Hn Hws H b.
  destruct (bloom_model_load_file _ _ _ _ _ _ _ _ _ _ _ Hfs Hall H)
    as (_ & _ & Hv).
  unfold load_vocab, int_range in Hv. rewrite Hn, Nat2Z.id in Hv.
  pose proof (load_vocab_words_value stack_junk ws 0 [] tail (4 + 24)
                gpt_vocab_empty Hws) as Hval.
  destruct (load_vocab_words_entries stack_junk ws 0 [] tail (4 + 24)
              gpt_vocab_empty Hws)
    as (v1 & Hrun & _ & _ & _ & _ & Hw1 & Hw2).
  rewrite Hrun in Hv, Hval. cbn [fst] in Hv, Hval.
  assert (SortedList.value (id_to_token gpt_vocab_empty) = []) as Hnil
    by reflexivity.
  rewrite Hnil in Hval. cbn [app] in Hval.
  rewrite Hval in Hv by (intros k x []).
  rewrite map_snd_combine in Hv
    by now rewrite length_int_from, length_map.
  pose proof (SortedListZ.ok (list string)) as okZ.
  destruct (fold_index_word_buckets (List.map string_of_list_byte ws) b v1)
    as [Eb Es].
  rewrite Hv, Eb, Es, Hw1, Hw2. cbn [gpt_vocab_empty words space_words].
  rewrite !map.get_empty. split; reflexivity.
Qed.

(** X5.  An unknown precision is refused before anything is allocated: on
    a file whose header has an [f16] field outside 0..3, and an [n_mult]
    other than 0, by which line 122 divides before the precision is
    looked at, the load returns false, no arena is created and the cache
    tensors, the weights and the arena handle of the model are untouched;
    the hyperparameters of the model have already been overwritten by
    those of the file. *)
Theorem bad_f16_fails_without_arena :
  forall fname hp tail m v c g,
    fs fname
    = Some (field32 BLOOM_MAGIC ++ header_bytes (hparams_fields hp) ++ tail) ->
    Forall in_i32 (hparams_fields hp) ->
    n_mult hp <> 0 ->
    ~ 0 <= f16 hp <= 3 ->
    exists m' v',
      bloom_model_load fname m v c g = (false, m', v', g)
      /\ hparams_fields (hparams m') = hparams_fields hp
      /\ ctx m' = ctx m /\ weights m' = weights m
      /\ memory_k m' = memory_k m /\ memory_v m' = memory_v m.
Proof.
  intros fname hp tail m v c g Hfs Hall _ Hf16.
  unfold bloom_model_load. rewrite Hfs, read_magic, Z.eqb_refl. cbn [negb].
  destruct (load_hparams_fields (hparams m) c (hparams_fields hp) tail 4
              eq_refl Hall) as (hp' & E & Hf' & Hc).
  rewrite E.
  destruct (load_vocab stack_junk (n_vocab hp') _ v) as [v1 fin2].
  assert (f16 hp' = f16 hp) as Ef
    by (unfold hparams_fields in Hf'; now injection Hf').
  assert (wtype_of_f16 (f16 hp') = None) as Ew.
  { rewrite Ef. unfold wtype_of_f16.
    destruct (Z.eqb_spec (f16 hp) 0); [lia|].
    destruct (Z.eqb_spec (f16 hp) 1); [lia|].
    destruct (Z.eqb_spec (f16 hp) 2); [lia|].
    destruct (Z.eqb_spec (f16 hp) 3); [lia|]. reflexivity. }
  rewrite Ew. do 2 eexists. split; [reflexivity|].
  cbn [hparams set_hparams ctx weights memory_k memory_v].
  repeat split; try reflexivity. exact Hf'.
Qed.

(** *** The forward pass: failure and bounds *)

Lemma bloom_eval_false m nt p toks ew mpt g m' lg mpt' g' :
  bloom_eval m nt p toks ew mpt g = Some (false, m', lg, mpt', g') ->
  m' = m /\ lg = ew /\ mpt' = mpt
  /\ 0 < mpt
  /\ buf_size g < u64 (mpt * u64 (input_length toks))
  /\ buf_size g' = u64 (scale_1_1 (u64 (mpt * u64 (input_length toks))))
  /\ realloc_ok (buf_size g') = false.
Proof.
  unfold bloom_eval. intros H.
  destruct (0 <? mpt) eqn:E1; cbn [andb] in H.
  - destruct (buf_size (log_eval g p toks)
              <? u64 (mpt * u64 (input_length toks))) eqn:E2.
    + cbn [andb] in H.
      destruct (realloc_ok (buf_size (set_buf_size (log_eval g p toks)
                  (u64 (scale_1_1 (u64 (mpt * u64 (input_length toks)))))))) eqn:E3.
      * cbn [negb] in H.
        destruct (weights m); [|discriminate].
        destruct (eval_graph _ _ _ _) as [[[i1 k1] v1]|]; [|discriminate].
        destruct (last_row _ _ _); [|discriminate].
        destruct (if mpt =? 0 then _ else _); discriminate.
      * cbn [negb] in H. injection H as <- <- <- <-.
        cbn [buf_size set_buf_size log_eval] in *.
        repeat split; try reflexivity; try assumption; lia.
    + cbn [andb] in H.
      destruct (weights m); [|discriminate].
      destruct (eval_graph _ _ _ _) as [[[i1 k1] v1]|]; [|discriminate].
      destruct (last_row _ _ _); [|discriminate].
      destruct (if mpt =? 0 then _ else _); discriminate.
  - destruct (weights m); [|discriminate].
    destruct (eval_graph _ _ _ _) as [[[i1 k1] v1]|]; [|discriminate].
    destruct (last_row _ _ _); [|discriminate].
    destruct (if mpt =? 0 then _ else _); discriminate.
Qed.

(** Whatever the outcome, a call leaves the hyperparameters, the weights
    and the shape of the cache as they were. *)
Lemma bloom_eval_model m nt p toks ew mpt g ok m' lg mpt' g' :
  in_i32 p ->
  bloom_eval m nt p toks ew mpt g = Some (ok, m', lg, mpt', g') ->
  hparams m' = hparams m /\ weights m' = weights m
  /\ (cache_wf m -> cache_wf m').
Proof.
  intros Hp H. destruct ok.
  - destruct (bloom_eval_inv _ _ _ _ _ _ _ _ _ _ _ H)
      as (w & inpL & mk & mv & Hw & Hg & -> & _).
    split; [reflexivity|]. split; [reflexivity|].
    intros Hwf.
    exact (proj1 (bloom_eval_cache _ _ _ _ _ _ _ _ _ _ _ Hwf Hp H)).
  - destruct (bloom_eval_false _ _ _ _ _ _ _ _ _ _ _ H) as (-> & _).
    split; [reflexivity|]. split; [reflexivity|]. intros Hwf. exact Hwf.
Qed.

(** X6.  A forward pass fails in one way only, when the scratch buffer
    has to grow and [realloc] returns null; it then leaves the cache, the
    caller's logits vector and [mem_per_token] as they were, while the
    static [buf_size] already holds the size that could not be
    obtained. *)
Theorem eval_fails_only_on_realloc :
  forall m nt p toks ew mpt g m' lg mpt' g',
    bloom_eval m nt p toks ew mpt g = Some (false, m', lg, mpt', g') ->
    m' = m /\ lg = ew /\ mpt' = mpt
    /\ 0 < mpt
    /\ buf_size g < u64 (mpt * u64 (input_length toks))
    /\ buf_size g' = u64 (scale_1_1 (u64 (mpt * u64 (input_length toks))))
    /\ realloc_ok (buf_size g') = false.
Proof. intros. eapply bloom_eval_false. eassumption. Qed.

(** X7.  The forward pass has no bounds check on the cache position: on a
    session whose cache has the shape the loader gives it, a call with a
    non-empty input that starts before position 0 or ends after position
    [n_ctx] never returns success; it addresses memory outside the cache
    tensor (undefined), unless it has already failed on [realloc]. *)
Theorem eval_outside_context_undefined :
  forall m nt p toks ew mpt g,
    cache_wf m -> in_i32 p ->
    0 < n_layer (hparams m) ->
    1 <= input_length toks ->
    p < 0 \/ n_ctx (hparams m) < p + input_length toks ->
    bloom_eval m nt p toks ew mpt g = None
    \/ exists g', bloom_eval m nt p toks ew mpt g = Some (false, m, ew, mpt, g').
Proof.
  intros m nt p toks ew mpt g Hwf Hp HL HN Hout.
  destruct (bloom_eval m nt p toks ew mpt g)
    as [[[[[[|] m'] lg] mpt'] g']|] eqn:H.
  - exfalso.
    destruct (bloom_eval_cache _ _ _ _ _ _ _ _ _ _ _ Hwf Hp H)
      as (_ & _ & _ & Hin & _).
    specialize (Hin HL HN). lia.
  - right. destruct (bloom_eval_false _ _ _ _ _ _ _ _ _ _ _ H)
      as (-> & -> & -> & _). now exists g'.
  - now left.
Qed.

(** *** Traces of forward passes *)

Lemma chained_snoc tr : forall p q b,
  chained p tr q ->
  chained p (tr ++ [(q, b)]) (q + Z.of_nat (List.length b)).
Proof.
  induction tr as [|e tr IH]; intros p q b H; cbn [chained app] in *.
  - subst q. cbn [fst snd]. split; reflexivity.
  - destruct H as [He H]. split; [exact He|]. now apply IH.
Qed.

Lemma chained_app tr1 : forall p q tr2 r,
  chained p tr1 q -> chained q tr2 r -> chained p (tr1 ++ tr2) r.
Proof.
  induction tr1 as [|e tr1 IH]; intros p q tr2 r H1 H2; cbn [chained app] in *.
  - now subst q.
  - destruct H1 as [He H1]. split; [exact He|]. eapply IH; eassumption.
Qed.

Lemma chained_end tr : forall p q,
  chained p tr q -> q = p + Z.of_nat (List.length (tokens_of tr)).
Proof.
  unfold tokens_of.
  induction tr as [|e tr IH]; intros p q H; cbn [chained] in H.
  - cbn. lia.
  - destruct H as [_ H]. apply IH in H. cbn [List.map List.concat].
    rewrite length_app. lia.
Qed.

Lemma tokens_of_app tr1 tr2 :
  tokens_of (tr1 ++ tr2) = tokens_of tr1 ++ tokens_of tr2.
Proof. unfold tokens_of. now rewrite map_app, concat_app. Qed.

Lemma tokens_of_one p b : tokens_of [(p, b)] = b.
Proof. unfold tokens_of. cbn. apply app_nil_r. Qed.

(** *** Vectors and output *)

Lemma vec_shift_length l x l' :
  vec_shift l x = Some l' -> List.length l' = List.length l.
Proof.
  destruct l as [|y l]; cbn; [discriminate|]. intros H. injection H as <-.
  rewrite length_app. cbn. lia.
Qed.

Lemma vec_back_last l x : vec_back (l ++ [x]) = Some x.
Proof. unfold vec_back. now rewrite rev_app_distr. Qed.

Lemma vec_shift_back l x l' : vec_shift l x = Some l' -> vec_back l' = Some x.
Proof.
  destruct l as [|y l]; cbn; [discriminate|]. intros H. injection H as <-.
  apply vec_back_last.
Qed.

Lemma display_app v a : forall b d,
  display v (a ++ b) d
  = match display v a d with
    | Some d' => display v b d'
    | None => None
    end.
Proof.
  induction a as [|x a IH]; intros b d; cbn [display app]; [reflexivity|].
  destruct (word_of v x); [apply IH|reflexivity].
Qed.

Lemma firstn_skipn_add (A : Type) (l : list A) : forall i k,
  firstn i l ++ firstn k (skipn i l) = firstn (i + k) l.
Proof.
  induction l as [|x l IH]; intros i k.
  - now rewrite skipn_nil, !firstn_nil.
  - destruct i as [|i]; cbn [firstn skipn app Nat.add]; [reflexivity|].
    now rewrite IH.
Qed.

(** The batch loop takes a prefix of what is left of the prompt, at least
    one token when there is one, and keeps the size of the history. *)
Lemma take_batch_prefix nb rem : forall acc l embd l',
  take_batch nb rem acc l = Some (embd, l') ->
  exists k,
    embd = acc ++ firstn k rem
    /\ (k <= List.length rem)%nat
    /\ (rem <> [] -> (1 <= k)%nat)
    /\ List.length l' = List.length l.
Proof.
  induction rem as [|t rem IH]; intros acc l embd l' H; cbn [take_batch] in H.
  - injection H as <- <-. exists 0%nat. cbn. rewrite app_nil_r.
    repeat split; auto. congruence.
  - destruct (vec_shift l t) as [l1|] eqn:Es; [|discriminate].
    pose proof (vec_shift_length _ _ _ Es) as Hl.
    destruct (u64 nb <? Z.of_nat (List.length (acc ++ [t]))).
    + injection H as <- <-. exists 1%nat. cbn [firstn List.length].
      repeat split; auto; lia.
    + destruct (IH _ _ _ _ H) as (k & -> & Hk & _ & Hl').
      exists (S k). cbn [firstn List.length]. rewrite <- app_assoc.
      repeat split; auto; lia.
Qed.

(** *** inference: what holds at the head of the loop *)

Section Run.

Variable v : gpt_vocab.
Variable embd_inp : list token.   (* the tokens of the prompt *)
Variable B : Z.                   (* the bound of the loop test *)
Variable g0 : proc.               (* the process state at the call *)
Variable dst0 : list string.
Variable m0 : bloom_model.
Variable hist0 : nat.             (* the size of the history window *)

(** At the head of the loop: the passes submitted so far are chained from
    position 0 to [n_past]; [i] counts the tokens handled, those of the
    passes and those of [embd]; they are the first [i] tokens of the prompt
    and then sampled ones; and [dst] holds their words. *)
Definition run_inv (s : inference_state) : Prop :=
  exists tr sampled,
    evals (st_proc s) = evals g0 ++ tr
    /\ chained 0 tr (st_n_past s)
    /\ Forall (pass_below B) tr
    /\ st_i s = st_n_past s + Z.of_nat (List.length (st_embd s))
    /\ st_i s <= Z.max (Z.of_nat (List.length embd_inp)) B
    /\ tokens_of tr ++ st_embd s
       = firstn (Z.to_nat (st_i s)) embd_inp ++ sampled
    /\ display v (tokens_of tr ++ st_embd s) dst0 = Some (st_dst s)
    /\ hparams (st_model s) = hparams m0
    /\ weights (st_model s) = weights m0
    /\ (cache_wf m0 -> cache_wf (st_model s))
    /\ List.length (st_last_n_tokens s) = hist0.

(** When the function returns: [pending] is the batch that was taken but
    never submitted. *)
Definition run_done (g' : proc) (dst : list string) (m' : bloom_model)
  : Prop :=
  exists tr pending sampled q,
    evals g' = evals g0 ++ tr
    /\ chained 0 tr q
    /\ Forall (pass_below B) tr
    /\ Z.of_nat (List.length (tokens_of tr ++ pending))
       <= Z.max (Z.of_nat (List.length embd_inp)) B
    /\ tokens_of tr ++ pending
       = firstn (List.length (tokens_of tr ++ pending)) embd_inp ++ sampled
    /\ display v (tokens_of tr ++ pending) dst0 = Some dst
    /\ hparams m' = hparams m0 /\ weights m' = weights m0
    /\ (cache_wf m0 -> cache_wf m').

Lemma run_inv_handled s tr :
  chained 0 tr (st_n_past s) ->
  st_i s = st_n_past s + Z.of_nat (List.length (st_embd s)) ->
  Z.of_nat (List.length (tokens_of tr ++ st_embd s)) = st_i s.
Proof.
  intros Hc Hi. apply chained_end in Hc. rewrite length_app. lia.
Qed.

Lemma run_inv_done s :
  run_inv s -> run_done (st_proc s) (st_dst s) (st_model s).
Proof.
  intros (tr & sampled & He & Hc & Hb & Hi & Hmax & HT & Hd & Hh & Hw & Hwf & _).
  pose proof (run_inv_handled s tr Hc Hi) as Hlen.
  exists tr, (st_embd s), sampled, (st_n_past s).
  repeat (split; [assumption || lia|]).
  split; [|auto].
  rewrite <- Hlen, Nat2Z.id in HT. exact HT.
Qed.

(** The prediction at the head of an iteration. *)
Lemma predict_inv params s ok m logits mpt g :
  0 <= st_n_past s <= INT32_MAX ->
  (if (0 <? List.length (st_embd s))%nat then
     bloom_eval (st_model s) (n_threads params) (st_n_past s) (st_embd s)
       (st_logits s) (st_mem_per_token s) (st_proc s)
   else Some (true, st_model s, st_logits s, st_mem_per_token s, st_proc s))
  = Some (ok, m, logits, mpt, g) ->
  evals g
  = evals (st_proc s)
    ++ (if (0 <? List.length (st_embd s))%nat
        then [(st_n_past s, st_embd s)] else [])
  /\ hparams m = hparams (st_model s) /\ weights m = weights (st_model s)
  /\ (cache_wf (st_model s) -> cache_wf m)
  /\ (ok = false -> (0 <? List.length (st_embd s))%nat = true
                    /\ m = st_model s).
Proof.
  intros Hp H.
  destruct (0 <? List.length (st_embd s))%nat eqn:E.
  - pose proof (bloom_eval_log _ _ _ _ _ _ _ _ _ _ _ _ H) as Hlog.
    assert (in_i32 (st_n_past s)) as Hin
      by (unfold in_i32, INT32_MIN, INT32_MAX in *; lia).
    destruct (bloom_eval_model _ _ _ _ _ _ _ _ _ _ _ _ Hin H) as (Hh & Hw & Hwf).
    repeat (split; [assumption|]).
    intros ->. split; [reflexivity|].
    now destruct (bloom_eval_false _ _ _ _ _ _ _ _ _ _ _ H) as (-> & _).
  - injection H as <- <- <- <- <-. rewrite app_nil_r.
    split; [reflexivity|]. split; [reflexivity|]. split; [reflexivity|].
    split; [auto|]. intros; discriminate.
Qed.

Lemma inference_step_inv params s r :
  Z.of_nat (List.length embd_inp) <= INT32_MAX -> B <= INT32_MAX ->
  run_inv s -> st_i s < B ->
  inference_step params v embd_inp s = Some r ->
  match r with
  | inr s' => run_inv s'
  | inl (c, s') =>
      (c = 0 \/ c = 1) /\ run_done (st_proc s') (st_dst s') (st_model s')
  end.
Proof.
  intros Hlen HB Hinv HiB H.
  destruct Hinv
    as (tr & sampled & He & Hc & Hb & Hi & Hmax & HT & Hd & Hh & Hw & Hwf & Hhist).
  pose proof (chained_end _ _ _ Hc) as Hq.
  pose proof (run_inv_handled s tr Hc Hi) as HlenT.
  assert (INT32_MAX = 2147483647) as EM by reflexivity.
  assert (0 <= st_n_past s <= INT32_MAX) as Hp by lia.
  unfold inference_step in H.
  destruct (if (0 <? List.length (st_embd s))%nat then _ else _)
    as [[[[[ok m] logits] mpt] g]|] eqn:Ee; [|discriminate].
  destruct (predict_inv _ _ _ _ _ _ _ Hp Ee) as (Hlog & Hh' & Hw' & Hwf' & Hfail).
  (* the trace once the prediction is done *)
  set (tr1 := tr ++ (if (0 <? List.length (st_embd s))%nat
                     then [(st_n_past s, st_embd s)] else [])).
  assert (evals g = evals g0 ++ tr1) as He1
    by (subst tr1; rewrite Hlog, He; now rewrite app_assoc).
  assert (chained 0 tr1 (st_i s)) as Hc1.
  { subst tr1. destruct (0 <? List.length (st_embd s))%nat eqn:E.
    - rewrite Hi. now apply chained_snoc.
    - apply Nat.ltb_ge in E. rewrite app_nil_r.
      replace (st_i s) with (st_n_past s) by lia. exact Hc. }
  assert (Forall (pass_below B) tr1) as Hb1.
  { subst tr1. apply Forall_app. split; [exact Hb|].
    destruct (0 <? List.length (st_embd s))%nat eqn:E; [|constructor].
    apply Nat.ltb_lt in E. constructor; [|constructor].
    split; cbn [fst snd]; [|lia].
    intros E0. rewrite E0 in E. cbn in E. lia. }
  assert (tokens_of tr1 = tokens_of tr ++ st_embd s) as Ht1.
  { subst tr1. rewrite tokens_of_app.
    destruct (0 <? List.length (st_embd s))%nat eqn:E.
    - now rewrite tokens_of_one.
    - apply Nat.ltb_ge in E. destruct (st_embd s); [reflexivity|cbn in E; lia]. }
  destruct ok; cbn [negb] in H.
  2:{ injection H as <-. split; [now right|]. cbn [st_proc st_dst st_model].
      destruct (Hfail eq_refl) as [_ ->].
      exists tr1, [], sampled, (st_i s).
      rewrite app_nil_r, Ht1.
      repeat (split; [assumption || lia|]).
      split; [|split; [assumption|auto]].
      rewrite <- HlenT, Nat2Z.id in HT. exact HT. }
  assert (i32 (u64 (st_n_past s) + Z.of_nat (List.length (st_embd s))) = st_i s)
    as En.
  { rewrite u64_small by lia. rewrite <- Hi. apply i32_small.
    unfold in_i32, INT32_MIN, INT32_MAX in *. lia. }
  rewrite En in H.
  assert (u64 (st_i s) = st_i s) as Eu by (apply u64_small; lia).
  rewrite Eu in H.
  destruct (Z.of_nat (List.length embd_inp) <=? st_i s) eqn:Eph.
  - (* sample next token *)
    apply Z.leb_le in Eph.
    destruct (bloom_sample_top_p _ _ _ _ _ _ _ _) as [id rng].
    destruct (vec_shift (st_last_n_tokens s) id) as [last_n|] eqn:Es;
      [|discriminate].
    pose proof (vec_shift_length _ _ _ Es) as Hl.
    destruct (display v [id] (st_dst s)) as [dst|] eqn:Edis; [|discriminate].
    cbn [vec_back rev app] in H.
    assert (add32 (st_i s) 1 = st_i s + 1) as Ea.
    { apply i32_small. unfold in_i32, INT32_MIN, INT32_MAX in *. lia. }
    rewrite Ea in H.
    assert (run_inv
              {| st_i := st_i s + 1; st_embd := [id]; st_n_past := st_i s;
                 st_last_n_tokens := last_n; st_logits := logits;
                 st_rng := rng; st_dst := dst; st_model := m;
                 st_mem_per_token := mpt; st_proc := g |}) as Hnew.
    { exists tr1, (sampled ++ [id]).
      cbn [st_proc st_n_past st_i st_embd st_dst st_model st_last_n_tokens
           List.length].
      repeat (split; [assumption || lia|]).
      split.
      { rewrite Ht1, HT, <- app_assoc. f_equal.
        rewrite !firstn_all2 by lia. reflexivity. }
      split.
      { rewrite Ht1, display_app, Hd. exact Edis. }
      split; [congruence|]. split; [congruence|]. split; [auto|lia]. }
    destruct (id =? 2); injection H as <-.
    + split; [now left|]. now apply run_inv_done in Hnew.
    + exact Hnew.
  - (* still processing the input prompt *)
    apply Z.leb_gt in Eph.
    destruct (take_batch _ _ _ _) as [[embd last_n]|] eqn:Etb; [|discriminate].
    destruct (take_batch_prefix _ _ _ _ _ _ Etb) as (k & -> & Hk & Hk1 & Hl).
    cbn [app] in *.
    rewrite length_skipn in Hk.
    assert (1 <= k)%nat as Hk1'.
    { apply Hk1. intros E0. apply (f_equal (@List.length _)) in E0.
      rewrite length_skipn in E0. cbn in E0. lia. }
    assert (List.length (firstn k (skipn (Z.to_nat (st_i s)) embd_inp)) = k)
      as Hlk by (rewrite length_firstn, length_skipn; lia).
    rewrite Hlk in H.
    destruct (display v _ (st_dst s)) as [dst|] eqn:Edis; [|discriminate].
    destruct (vec_back _) as [back|] eqn:Eback; [|discriminate].
    assert (add32 (i32 (st_i s + Z.of_nat k - 1)) 1 = st_i s + Z.of_nat k) as Ea.
    { unfold add32. rewrite (i32_small (st_i s + Z.of_nat k - 1))
        by (unfold in_i32, INT32_MIN, INT32_MAX in *; lia).
      rewrite i32_small by (unfold in_i32, INT32_MIN, INT32_MAX in *; lia).
      lia. }
    rewrite Ea in H.
    assert (sampled = []) as ->.
    { apply (f_equal (@List.length _)) in HT.
      rewrite !length_app, length_firstn in HT.
      rewrite length_app in HlenT.
      destruct sampled; [reflexivity|]. cbn [List.length] in HT. lia. }
    assert (run_inv
              {| st_i := st_i s + Z.of_nat k;
                 st_embd := firstn k (skipn (Z.to_nat (st_i s)) embd_inp);
                 st_n_past := st_i s;
                 st_last_n_tokens := last_n; st_logits := logits;
                 st_rng := st_rng s; st_dst := dst; st_model := m;
                 st_mem_per_token := mpt; st_proc := g |}) as Hnew.
    { exists tr1, [].
      cbn [st_proc st_n_past st_i st_embd st_dst st_model st_last_n_tokens].
      rewrite Hlk.
      repeat (split; [assumption || lia|]).
      split.
      { rewrite Ht1, HT, !app_nil_r, firstn_skipn_add. f_equal. lia. }
      split.
      { rewrite Ht1, display_app, Hd. exact Edis. }
      split; [congruence|]. split; [congruence|]. split; [auto|lia]. }
    destruct (back =? 2); injection H as <-.
    + split; [now left|]. now apply run_inv_done in Hnew.
    + exact Hnew.
Qed.

Lemma inference_loop_inv params fuel : forall s c s',
  Z.of_nat (List.length embd_inp) <= INT32_MAX -> B <= INT32_MAX ->
  B = u64 (Z.of_nat (List.length embd_inp) + n_predict params) ->
  run_inv s ->
  inference_loop fuel params v embd_inp s = Some (c, s') ->
  (c = 0 \/ c = 1) /\ run_done (st_proc s') (st_dst s') (st_model s').
Proof.
  induction fuel as [|fuel IH]; intros s c s' Hlen HB EB Hinv H;
    cbn [inference_loop] in H; rewrite <- EB in H.
  - destruct (u64 (st_i s) <? B); [discriminate|].
    injection H as <- <-. split; [now left|now apply run_inv_done].
  - destruct (u64 (st_i s) <? B) eqn:Et.
    + assert (st_i s < B) as HiB.
      { apply Z.ltb_lt in Et.
        destruct Hinv as (tr & ? & _ & Hc & _ & Hi & Hmax & _).
        assert (INT32_MAX = 2147483647) as EM by reflexivity.
        apply chained_end in Hc. rewrite u64_small in Et by lia. exact Et. }
      destruct (inference_step params v embd_inp s) as [r|] eqn:Es;
        [|discriminate].
      pose proof (inference_step_inv _ _ _ Hlen HB Hinv HiB Es) as Hr.
      destruct r as [[c1 s1]|s1].
      * injection H as <- <-. exact Hr.
      * now apply (IH s1).
    + injection H as <- <-. split; [now left|now apply run_inv_done].
Qed.

End Run.

Lemma inference_done params m v mpt dst g c s :
  0 <= n_predict params ->
  0 <= n_ctx (hparams m) <= INT32_MAX ->
  Z.of_nat (List.length (bloom_tokenize v (prompt params) false)) <= INT32_MAX ->
  inference params m v mpt dst g = Some (c, s) ->
  (c = 0 \/ c = 1)
  /\ run_done v (bloom_tokenize v (prompt params) false)
       (Z.min (Z.of_nat (List.length (bloom_tokenize v (prompt params) false))
               + n_predict params)
              (n_ctx (hparams m)))
       g dst m (st_proc s) (st_dst s) (st_model s).
Proof.
  intros Hnp Hctx Hlen H. unfold inference in H.
  assert (INT32_MAX = 2147483647) as EM by reflexivity.
  set (embd_inp := bloom_tokenize v (prompt params) false) in *.
  assert (sub32 (n_ctx (hparams m)) (i32 (Z.of_nat (List.length embd_inp)))
          = n_ctx (hparams m) - Z.of_nat (List.length embd_inp)) as Es.
  { unfold sub32. rewrite (i32_small (Z.of_nat _))
      by (unfold in_i32, INT32_MIN, INT32_MAX; lia).
    apply i32_small. unfold in_i32, INT32_MIN, INT32_MAX. lia. }
  rewrite Es in H.
  cbn [repeat_last_n set_n_predict n_predict] in H.
  destruct (repeat_last_n params <? 0); [discriminate|].
  set (B := Z.min (Z.of_nat (List.length embd_inp) + n_predict params)
                 (n_ctx (hparams m))).
  refine (inference_loop_inv v embd_inp B g dst m
            (Z.to_nat (repeat_last_n params)) _ _ _ _ _ Hlen _ _ _ H).
  - subst B. lia.
  - cbn [n_predict set_n_predict]. subst B. rewrite u64_small by lia. lia.
  - exists [], []. cbn [st_proc st_n_past st_i st_embd st_dst st_model
      st_last_n_tokens List.length chained tokens_of List.map List.concat app
      firstn Z.to_nat display].
    rewrite app_nil_r, repeat_length.
    repeat (split; [reflexivity || apply Forall_nil || lia|]).
    split; [auto|reflexivity].
Qed.

(** X8.  The passes of [bloom_run]: for a non-negative budget, whatever
    the outcome, the forward passes submitted follow one another from
    cache position 0, none is empty, and each ends before position
    [min (len + n_predict) n_ctx], [len] being the number of prompt tokens:
    the run never evaluates at or beyond the context length. *)
Theorem bloom_run_passes :
  forall cc clock seed' nt' nb' np' text g ret cc' dst g',
    0 <= np' ->
    0 <= n_ctx (hparams (model cc)) <= INT32_MAX ->
    Z.of_nat (List.length (bloom_tokenize (vocab cc) text false)) <= INT32_MAX ->
    bloom_run cc clock seed' nt' nb' np' text g = Some (ret, cc', dst, g') ->
    exists tr q,
      evals g' = evals g ++ tr
      /\ chained 0 tr q
      /\ Forall
           (pass_below
              (Z.min (Z.of_nat (List.length
                                  (bloom_tokenize (vocab cc) text false)) + np')
                     (n_ctx (hparams (model cc))))) tr.
Proof.
  intros cc clock seed' nt' nb' np' text g ret cc' dst g' Hnp Hctx Hlen H.
  unfold bloom_run in H.
  destruct (inference _ _ _ _ _ _) as [[c s]|] eqn:Ei; [|discriminate].
  injection H as <- <- <- <-.
  apply inference_done in Ei; cbn [entry_params n_predict prompt] in *;
    try assumption.
  destruct Ei as (_ & tr & pending & sampled & q & He & Hc & Hb & _).
  now exists tr, q.
Qed.


(** X22.  What a run leaves of the session: for a non-negative budget,
    whatever the outcome, [bloom_run] changes nothing of the session but
    the contents of the cache; the hyperparameters, the weights, the
    vocabulary and [mem_per_token] are those of before, the cache keeps the
    shape the loader gave it, and the state of the conversation ([n_past],
    [n_chars], the history window) is not reset, although the run writes
    the cache from position 0. *)
Theorem bloom_run_keeps_session :
  forall cc clock seed' nt' nb' np' text g ret cc' dst g',
    0 <= np' ->
    0 <= n_ctx (hparams (model cc)) <= INT32_MAX ->
    Z.of_nat (List.length (bloom_tokenize (vocab cc) text false)) <= INT32_MAX ->
    bloom_run cc clock seed' nt' nb' np' text g = Some (ret, cc', dst, g') ->
    hparams (model cc') = hparams (model cc)
    /\ weights (model cc') = weights (model cc)
    /\ (cache_wf (model cc) -> cache_wf (model cc'))
    /\ vocab cc' = vocab cc
    /\ mem_per_token cc' = mem_per_token cc
    /\ n_past cc' = n_past cc
    /\ n_chars cc' = n_chars cc
    /\ last_n_tokens cc' = last_n_tokens cc.
Proof.
  intros cc clock seed' nt' nb' np' text g ret cc' dst g' Hnp Hctx Hlen H.
  unfold bloom_run in H.
  destruct (inference _ _ _ _ _ _) as [[c s]|] eqn:Ei; [|discriminate].
  injection H as <- <- <- <-.
  apply inference_done in Ei; cbn [entry_params n_predict prompt] in *;
    try assumption.
  destruct Ei
    as (_ & tr & pending & sampled & q & _ & _ & _ & _ & _ & _ & Hh & Hw & Hwf).
  cbn [model vocab mem_per_token n_past n_chars last_n_tokens].
  split; [exact Hh|]. split; [exact Hw|]. split; [exact Hwf|].
  repeat (split; [reflexivity|]). reflexivity.
Qed.

(** *** chat: what holds between two forward passes *)

Lemma refill_history_length embd_inp n_past' idxs :
  forall last_n g last_n' g',
    refill_history embd_inp n_past' idxs last_n g = Some (last_n', g') ->
    List.length last_n' = List.length last_n.
Proof.
  induction idxs as [|i idxs IH]; intros last_n g last_n' g' H.
  - now injection H as <- _.
  - cbn [refill_history] in H.
    destruct (vec_shift last_n _) as [l1|] eqn:Es; [|discriminate].
    apply IH in H. rewrite H. eapply vec_shift_length; eassumption.
Qed.

Lemma sub_vector_length l a n embd :
  0 <= a -> sub_vector l a n = Some embd ->
  0 <= n /\ Z.of_nat (List.length embd) = n.
Proof.
  unfold sub_vector. intros Ha H.
  destruct (Z.leb_spec 0 n); cbn [andb] in H; [|discriminate].
  destruct (Z.leb_spec (a + n) (Z.of_nat (List.length l))); [|discriminate].
  injection H as <-. split; [assumption|].
  rewrite length_firstn, length_skipn. lia.
Qed.

Lemma dims_ok_n_ctx hp :
  dims_ok hp -> 0 < n_layer hp -> 0 <= n_ctx hp <= INT32_MAX.
Proof.
  unfold dims_ok. intros (He & Hc & Hl & Hmax) HL. split; [assumption|].
  assert (n_ctx hp <= n_layer hp * n_ctx hp) by nia.
  assert (n_layer hp * n_ctx hp <= n_embd hp * (n_layer hp * n_ctx hp)) by nia.
  lia.
Qed.

Lemma kept_trans m0 m1 m2 il q j :
  hparams m1 = hparams m0 ->
  kept m0 m1 il q j -> kept m1 m2 il q j -> kept m0 m2 il q j.
Proof.
  unfold kept. intros Hh [H1 H2] [H3 H4]. rewrite Hh in H3, H4.
  split; congruence.
Qed.

Lemma u64_range z : 0 <= u64 z < 2 ^ 64.
Proof. unfold u64. apply Z.mod_pos_bound. lia. Qed.

(** The bound of the test of line 1041, [n_input + n_predict - 1] on
    [size_t], when it does not wrap. *)
Lemma decode_bound n_input k :
  0 <= n_input <= INT32_MAX -> - 2 ^ 31 <= k <= INT32_MAX ->
  1 <= n_input + k ->
  u64 (n_input + u64 k - 1) = n_input + k - 1.
Proof.
  intros Hn Hk H1.
  assert (INT32_MAX = 2147483647) as EM by reflexivity.
  destruct (Z.lt_ge_cases k 0) as [Hneg|Hpos].
  - rewrite (u64_neg k) by lia.
    replace (n_input + (k + 2 ^ 64) - 1) with (n_input + k - 1 + 1 * 2 ^ 64)
      by lia.
    unfold u64. rewrite Z_mod_plus_full. apply Z.mod_small. lia.
  - rewrite (u64_small k) by lia. apply u64_small. lia.
Qed.

Section Chat.

Variable g0 : proc.          (* the process state at the call *)
Variable m0 : bloom_model.   (* the model of the session at the call *)
Variable P0 : Z.             (* [n_past] at the call *)
Variable hist0 : nat.        (* the size of the history window *)

Hypothesis m0_wf : cache_wf m0.
Hypothesis m0_layers : 0 < n_layer (hparams m0).

(** What every state of the loops satisfies, the trace apart. *)
Definition chat_common (s : chat_state) : Prop :=
  P0 <= c_n_past s <= n_ctx (hparams m0)
  /\ hparams (c_model s) = hparams m0
  /\ weights (c_model s) = weights m0
  /\ cache_wf (c_model s)
  /\ (forall il q j,
        0 <= il < n_layer (hparams m0) -> 0 <= q < n_ctx (hparams m0) ->
        0 <= j < n_embd (hparams m0) ->
        q < P0 -> kept m0 (c_model s) il q j)
  /\ List.length (c_last_n_tokens s) = hist0.

(** All the passes so far succeeded: they are chained from the position of
    the call to [n_past] and lie inside the context. *)
Definition chat_ok (s : chat_state) : Prop :=
  exists tr,
    evals (c_proc s) = evals g0 ++ tr
    /\ chained P0 tr (c_n_past s)
    /\ Forall (pass_within (n_ctx (hparams m0))) tr
    /\ chat_common s.

(** The last pass failed: [n_past] is where it started; it was submitted
    inside the context as well. *)
Definition chat_failed (s : chat_state) : Prop :=
  exists tr b,
    evals (c_proc s) = evals g0 ++ tr ++ [(c_n_past s, b)]
    /\ chained P0 tr (c_n_past s)
    /\ Forall (pass_within (n_ctx (hparams m0))) (tr ++ [(c_n_past s, b)])
    /\ chat_common s.

(** One forward pass from a state of the loops, over tokens that end
    inside the context: the bound is a premise, the pass does not test
    it. *)
Lemma chat_pass_inv s nt embd ok m logits mpt g :
  0 <= P0 ->
  chat_ok s ->
  c_n_past s + Z.of_nat (List.length embd) <= n_ctx (hparams m0) ->
  bloom_eval (c_model s) nt (i32 (c_n_past s)) embd (c_logits s)
    (c_mem_per_token s) (c_proc s) = Some (ok, m, logits, mpt, g) ->
  if ok then
    forall last_n rng dst nc g1,
      evals g1 = evals g -> List.length last_n = hist0 ->
      chat_ok {| c_n_chars := nc;
                 c_n_past := c_n_past s + Z.of_nat (List.length embd);
                 c_last_n_tokens := last_n; c_logits := logits;
                 c_rng := rng; c_dst := dst; c_model := m;
                 c_mem_per_token := mpt; c_proc := g1 |}
  else
    forall last_n rng dst nc,
      List.length last_n = hist0 ->
      chat_failed {| c_n_chars := nc; c_n_past := c_n_past s;
                     c_last_n_tokens := last_n; c_logits := logits;
                     c_rng := rng; c_dst := dst; c_model := m;
                     c_mem_per_token := mpt; c_proc := g |}.
Proof.
  intros HP0 (tr & He & Hc & Hb & Hr & Hh & Hw & Hwf & Hk & Hl) Hend H.
  assert (INT32_MAX = 2147483647) as EM by reflexivity.
  pose proof (dims_ok_n_ctx _ (proj1 m0_wf) m0_layers) as Hctx.
  assert (i32 (c_n_past s) = c_n_past s) as Ei
    by (apply i32_small; unfold in_i32, INT32_MIN, INT32_MAX; lia).
  rewrite Ei in H.
  assert (in_i32 (c_n_past s)) as Hin
    by (unfold in_i32, INT32_MIN, INT32_MAX; lia).
  pose proof (bloom_eval_log _ _ _ _ _ _ _ _ _ _ _ _ H) as Hlog.
  assert (pass_within (n_ctx (hparams m0)) (c_n_past s, embd)) as Hpw
    by (split; cbn [fst snd]; lia).
  destruct ok.
  - destruct (bloom_eval_cache _ _ _ _ _ _ _ _ _ _ _ Hwf Hin H)
      as (Hwf' & Hh' & Hw' & _ & Hcells).
    rewrite Hh in Hcells.
    intros last_n rng dst nc g1 Hg1 Hlast.
    exists (tr ++ [(c_n_past s, embd)]).
    cbn [c_proc c_n_past].
    split; [rewrite Hg1, Hlog, He; now rewrite app_assoc|].
    split; [now apply chained_snoc|].
    split.
    { apply Forall_app. split; [exact Hb|]. constructor; [exact Hpw|].
      apply Forall_nil. }
    unfold chat_common. cbn [c_n_past c_model c_last_n_tokens].
    split; [lia|]. split; [congruence|]. split; [congruence|].
    split; [exact Hwf'|]. split; [|exact Hlast].
    intros il q j Hil Hq Hj HqP.
    apply (kept_trans m0 (c_model s) m il q j Hh); [now apply Hk|].
    apply (Hcells il q j Hil Hq Hj). left. lia.
  - destruct (bloom_eval_false _ _ _ _ _ _ _ _ _ _ _ H) as (-> & _).
    intros last_n rng dst nc Hlast.
    exists tr, embd. cbn [c_proc c_n_past].
    split; [rewrite Hlog, He; now rewrite app_assoc|].
    split; [exact Hc|].
    split.
    { apply Forall_app. split; [exact Hb|]. constructor; [exact Hpw|].
      apply Forall_nil. }
    unfold chat_common. cbn [c_n_past c_model c_last_n_tokens].
    repeat (split; [assumption|]). exact Hlast.
Qed.

(** The loop over the input: every batch ends at or before [n_input],
    which the premise puts inside the context. *)
Lemma chat_ingest_inv params embd_inp n_input fuel :
  forall s ok s',
    0 <= P0 ->
    n_input <= n_ctx (hparams m0) ->
    chat_ok s ->
    chat_ingest fuel params embd_inp P0 n_input s = Some (ok, s') ->
    if ok then chat_ok s' else chat_failed s'.
Proof.
  induction fuel as [|fuel IH]; intros s ok s' HP0 Hfit Hs H;
    cbn [chat_ingest] in H.
  - destruct (c_n_past s <? n_input); [discriminate|].
    injection H as <- <-. exact Hs.
  - destruct (Z.ltb_spec (c_n_past s) n_input) as [Hlt|Hge];
      [|injection H as <- <-; exact Hs].
    set (n := i32 (Z.min (u64 (n_batch params)) (u64 (n_input - c_n_past s))))
      in H.
    destruct (sub_vector embd_inp (u64 (c_n_past s - P0)) n) as [embd|] eqn:Ev;
      [|discriminate].
    assert (0 <= u64 (c_n_past s - P0)) as Ha
      by (unfold u64; apply Z.mod_pos_bound; lia).
    destruct (sub_vector_length _ _ _ _ Ha Ev) as [Hn0 Hn].
    pose proof Hs as (tr & _ & _ & _ & Hr & _ & _ & _ & _ & Hl).
    pose proof (dims_ok_n_ctx _ (proj1 m0_wf) m0_layers) as Hctx.
    assert (INT32_MAX = 2147483647) as EM by reflexivity.
    pose proof (u64_range (n_batch params)) as Hnb.
    assert (n = Z.min (u64 (n_batch params)) (n_input - c_n_past s)) as En.
    { subst n. rewrite (u64_small (n_input - c_n_past s)) by lia.
      apply i32_small. unfold in_i32, INT32_MIN, INT32_MAX. lia. }
    assert (c_n_past s + Z.of_nat (List.length embd) <= n_ctx (hparams m0))
      as Hend by lia.
    destruct (bloom_eval _ _ _ _ _ _ _) as [[[[[ok1 m] logits] mpt] g]|] eqn:Ee;
      [|discriminate].
    pose proof (chat_pass_inv _ _ _ _ _ _ _ _ HP0 Hs Hend Ee) as Hpass.
    destruct ok1; cbn [negb] in H.
    + destruct (refill_history _ _ _ _ _) as [[last_n g1]|] eqn:Er;
        [|discriminate].
      pose proof (refill_history_evals _ _ _ _ _ _ _ Er) as Hg1.
      pose proof (refill_history_length _ _ _ _ _ _ _ Er) as Hl1.
      assert (u64 (c_n_past s + u64 n) = c_n_past s + Z.of_nat (List.length embd))
        as Eu.
      { rewrite (u64_small n) by lia. rewrite u64_small by lia. lia. }
      rewrite Eu in H.
      apply (IH _ _ _ HP0 Hfit) in H; [exact H|].
      apply Hpass; [exact Hg1|]. rewrite Hl1. exact Hl.
    + injection H as <- <-. unfold chat_with. apply Hpass. exact Hl.
Qed.

(** The loop that generates: a token is evaluated only below the bound of
    the test of line 1041, which the premise puts inside the context. *)
Lemma chat_decode_inv params v n_input fuel :
  forall s ok s',
    0 <= P0 ->
    u64 (n_input + u64 (n_predict params) - 1) < n_ctx (hparams m0) ->
    chat_ok s ->
    chat_decode fuel params v n_input s = Some (ok, s') ->
    if ok then chat_ok s' else chat_failed s'.
Proof.
  induction fuel as [|fuel IH]; intros s ok s' HP0 Hfit Hs H;
    cbn [chat_decode] in H; [discriminate|].
  destruct (bloom_sample_top_p _ _ _ _ _ _ _ _) as [id rng].
  destruct (vec_shift (c_last_n_tokens s) id) as [last_n|] eqn:Es;
    [|discriminate].
  pose proof (vec_shift_length _ _ _ Es) as Hl1.
  destruct (word_of v id) as [word|]; [|discriminate].
  destruct (vec_back last_n) as [back|]; [|discriminate].
  pose proof Hs as (tr & He & Hc & Hb & Hr & Hh & Hw & Hwf & Hk & Hl).
  assert (chat_ok {| c_n_chars := u64 (c_n_chars s + string_size word);
                     c_n_past := c_n_past s; c_last_n_tokens := last_n;
                     c_logits := c_logits s; c_rng := rng;
                     c_dst := c_dst s ++ [word]; c_model := c_model s;
                     c_mem_per_token := c_mem_per_token s;
                     c_proc := c_proc s |}) as Hstop.
  { exists tr. cbn [c_proc c_n_past].
    repeat (split; [assumption|]).
    unfold chat_common. cbn [c_n_past c_model c_last_n_tokens].
    repeat (split; [assumption|]). congruence. }
  destruct (back =? 2); cbn [orb] in H; [injection H as <- <-; exact Hstop|].
  destruct (Z.leb_spec (u64 (n_input + u64 (n_predict params) - 1))
              (c_n_past s)) as [Hge|Hlt];
    [injection H as <- <-; exact Hstop|].
  destruct (bloom_eval _ _ _ _ _ _ _) as [[[[[ok1 m] logits] mpt] g]|] eqn:Ee;
    [|discriminate].
  assert (INT32_MAX = 2147483647) as EM by reflexivity.
  assert (c_n_past s + Z.of_nat (List.length [back]) <= n_ctx (hparams m0))
    as Hend by (cbn [List.length]; lia).
  pose proof (chat_pass_inv _ _ _ _ _ _ _ _ HP0 Hs Hend Ee) as Hpass.
  pose proof (dims_ok_n_ctx _ (proj1 m0_wf) m0_layers) as Hctx.
  destruct ok1; cbn [negb] in H.
  - assert (u64 (c_n_past s + 1)
            = c_n_past s + Z.of_nat (List.length [back])) as En
      by (cbn [List.length]; rewrite u64_small by lia; lia).
    rewrite En in H.
    apply (IH _ _ _ HP0 Hfit) in H; [exact H|].
    apply Hpass; [reflexivity|]. congruence.
  - injection H as <- <-. unfold chat_with.
    cbn [c_n_chars c_n_past c_last_n_tokens c_rng c_dst].
    apply Hpass. congruence.
Qed.

End Chat.

(** The state that [chat] leaves satisfies one of the two descriptions,
    when the input ends inside the context and the budget of the test of
    line 1041 does not wrap. *)
Lemma chat_inv params m v mpt nc P0 last_n dst g r s embd_inp :
  cache_wf m -> 0 < n_layer (hparams m) ->
  chat_embd_inp params v last_n = Some embd_inp ->
  0 <= P0 ->
  P0 + Z.of_nat (List.length embd_inp) <= n_ctx (hparams m) ->
  1 <= Z.min (P0 + Z.of_nat (List.length embd_inp) + n_predict params)
         (n_ctx (hparams m)) ->
  chat params m v mpt nc P0 last_n dst g = Some (r, s) ->
  chat_ok g m P0 (List.length last_n) s
  \/ chat_failed g m P0 (List.length last_n) s.
Proof.
  intros Hwf HL Hemb HP Hfit H1 H. unfold chat in H. rewrite Hemb in H.
  assert (INT32_MAX = 2147483647) as EM by reflexivity.
  pose proof (dims_ok_n_ctx _ (proj1 Hwf) HL) as Hctx.
  assert (u64 (P0 + Z.of_nat (List.length embd_inp))
          = P0 + Z.of_nat (List.length embd_inp)) as En
    by (apply u64_small; lia).
  rewrite En in H.
  set (n_input := P0 + Z.of_nat (List.length embd_inp)) in *.
  set (params' := set_n_predict params _) in H.
  assert (n_predict params'
          = Z.min (n_predict params) (n_ctx (hparams m) - n_input)) as Ek.
  { subst params'. cbn [n_predict set_n_predict]. f_equal.
    unfold sub32. rewrite (i32_small n_input)
      by (unfold in_i32, INT32_MIN, INT32_MAX; lia).
    apply i32_small. unfold in_i32, INT32_MIN, INT32_MAX. lia. }
  assert (u64 (n_input + u64 (n_predict params') - 1) < n_ctx (hparams m))
    as Hbound.
  { rewrite Ek, decode_bound by lia. lia. }
  destruct (chat_ingest _ _ _ _ _ _) as [[ok s1]|] eqn:Ei; [|discriminate].
  assert (chat_ok g m P0 (List.length last_n)
            {| c_n_chars := nc; c_n_past := P0; c_last_n_tokens := last_n;
               c_logits := []; c_rng := mt19937 (seed params); c_dst := dst;
               c_model := m; c_mem_per_token := mpt; c_proc := g |}) as H0.
  { exists []. cbn [c_proc c_n_past chained]. rewrite app_nil_r.
    split; [reflexivity|]. split; [reflexivity|]. split; [apply Forall_nil|].
    unfold chat_common. cbn [c_n_past c_model c_last_n_tokens].
    split; [lia|]. repeat (split; [reflexivity || assumption|]).
    split; [|reflexivity]. intros. split; reflexivity. }
  assert (n_input <= n_ctx (hparams m)) as Hfit' by exact Hfit.
  pose proof (chat_ingest_inv g m P0 _ Hwf HL _ _ _ _ _ _ _
                HP Hfit' H0 Ei) as Hin.
  destruct ok; cbn [negb] in H.
  2:{ injection H as <- <-. now right. }
  destruct (chat_decode _ _ _ _ _) as [[ok2 s2]|] eqn:Ed; [|discriminate].
  assert (chat_ok g m P0 (List.length last_n)
            {| c_n_chars := u64 (c_n_chars s1 + string_size (prompt params'));
               c_n_past := c_n_past s1;
               c_last_n_tokens := c_last_n_tokens s1;
               c_logits := c_logits s1; c_rng := c_rng s1; c_dst := c_dst s1;
               c_model := c_model s1;
               c_mem_per_token := c_mem_per_token s1;
               c_proc := c_proc s1 |}) as H2.
  { destruct Hin as (tr & He & Hc & Hb & Hcm). exists tr.
    cbn [c_proc c_n_past]. repeat (split; [assumption|]). exact Hcm. }
  pose proof (chat_decode_inv g m P0 _ Hwf HL _ _ _ _ _ _ _
                HP Hbound H2 Ed) as H3.
  destruct ok2; cbn [negb] in H; injection H as <- <-; [now left|now right].
Qed.

(** [bloom_chat] in terms of [chat]: the session it leaves. *)
Lemma bloom_chat_inv cc clock seed' nt' nb' np' text g ret cc' dst g' suffix
    embd_inp :
  cache_wf (model cc) -> 0 < n_layer (hparams (model cc)) ->
  text_from text (n_chars cc) = Some suffix ->
  chat_embd_inp (entry_params clock seed' nt' nb' np' suffix) (vocab cc)
    (last_n_tokens cc) = Some embd_inp ->
  0 <= n_past cc ->
  n_past cc + Z.of_nat (List.length embd_inp) <= n_ctx (hparams (model cc)) ->
  1 <= Z.min (n_past cc + Z.of_nat (List.length embd_inp) + np')
         (n_ctx (hparams (model cc))) ->
  bloom_chat cc clock seed' nt' nb' np' text g = Some (ret, cc', dst, g') ->
  exists s,
    (chat_ok g (model cc) (n_past cc) (List.length (last_n_tokens cc)) s
     \/ chat_failed g (model cc) (n_past cc)
          (List.length (last_n_tokens cc)) s)
    /\ g' = c_proc s
    /\ cc' = {| model := c_model s; vocab := vocab cc;
                mem_per_token := mem_per_token cc; n_chars := c_n_chars s;
                n_past := c_n_past s;
                last_n_tokens := c_last_n_tokens s |}.
Proof.
  intros Hwf HL Et Hemb HP Hfit H1 H. unfold bloom_chat in H.
  rewrite Et in H.
  destruct (chat _ _ _ _ _ _ _ _ _) as [[r s]|] eqn:Ec; [|discriminate].
  exists s. split.
  - eapply chat_inv; eassumption.
  - destruct (r <? 0); injection H as <- <- <- <-; split; reflexivity.
Qed.

(** X10.  The passes of a [bloom_chat] call whose input fits in the
    context: on a session whose cache has the loader's shape, when the
    session's [n_past] plus the number of input tokens (the carried-over
    token and those of the new suffix) is at most [n_ctx] and the budget
    leaves room for a token ([1 <= min (n_input + n_predict) n_ctx]),
    whatever the outcome, the passes submitted follow one another from the
    session's [n_past], and each of them, a failed one included, lies
    inside the context; afterwards [n_past] is the end of the last pass, or
    the start of the last pass when that one failed.  The bound on the
    input is a premise: [chat] does not test it. *)
Theorem bloom_chat_passes :
  forall cc clock seed' nt' nb' np' text g ret cc' dst g' suffix embd_inp,
    cache_wf (model cc) -> 0 < n_layer (hparams (model cc)) ->
    text_from text (n_chars cc) = Some suffix ->
    chat_embd_inp (entry_params clock seed' nt' nb' np' suffix) (vocab cc)
      (last_n_tokens cc) = Some embd_inp ->
    0 <= n_past cc ->
    n_past cc + Z.of_nat (List.length embd_inp)
    <= n_ctx (hparams (model cc)) ->
    1 <= Z.min (n_past cc + Z.of_nat (List.length embd_inp) + np')
           (n_ctx (hparams (model cc))) ->
    bloom_chat cc clock seed' nt' nb' np' text g = Some (ret, cc', dst, g') ->
    exists tr q,
      evals g' = evals g ++ tr
      /\ chained (n_past cc) tr q
      /\ Forall (pass_within (n_ctx (hparams (model cc)))) tr
      /\ (n_past cc' = q \/ exists tr0 b, tr = tr0 ++ [(n_past cc', b)]).
Proof.
  intros cc clock seed' nt' nb' np' text g ret cc' dst g' suffix embd_inp
    Hwf HL Et Hemb HP Hfit H1 H.
  destruct (bloom_chat_inv _ _ _ _ _ _ _ _ _ _ _ _ _ _
              Hwf HL Et Hemb HP Hfit H1 H)
    as (s & [Hs|Hs] & -> & ->); cbn [n_past].
  - destruct Hs as (tr & He & Hc & Hb & _).
    exists tr, (c_n_past s). split; [exact He|]. split; [exact Hc|].
    split; [exact Hb|]. now left.
  - destruct Hs as (tr & b & He & Hc & Hb & _).
    exists (tr ++ [(c_n_past s, b)]),
      (c_n_past s + Z.of_nat (List.length b)).
    split; [exact He|]. split; [now apply chained_snoc|].
    split; [exact Hb|]. right. now exists tr, b.
Qed.

(** X11.  Earlier turns are safe when the input fits in the context: on
    such a call, whatever its outcome, every cache cell of every layer at a
    position before the session's [n_past] holds afterwards what it held
    before the call. *)
Theorem bloom_chat_keeps_earlier_turns :
  forall cc clock seed' nt' nb' np' text g ret cc' dst g' suffix embd_inp,
    cache_wf (model cc) -> 0 < n_layer (hparams (model cc)) ->
    text_from text (n_chars cc) = Some suffix ->
    chat_embd_inp (entry_params clock seed' nt' nb' np' suffix) (vocab cc)
      (last_n_tokens cc) = Some embd_inp ->
    0 <= n_past cc ->
    n_past cc + Z.of_nat (List.length embd_inp)
    <= n_ctx (hparams (model cc)) ->
    1 <= Z.min (n_past cc + Z.of_nat (List.length embd_inp) + np')
           (n_ctx (hparams (model cc))) ->
    bloom_chat cc clock seed' nt' nb' np' text g = Some (ret, cc', dst, g') ->
    forall il q j,
      0 <= il < n_layer (hparams (model cc)) ->
      0 <= q < n_past cc ->
      0 <= j < n_embd (hparams (model cc)) ->
      kept (model cc) (model cc') il q j.
Proof.
  intros cc clock seed' nt' nb' np' text g ret cc' dst g' suffix embd_inp
    Hwf HL Et Hemb HP Hfit H1 H il q j Hil Hq Hj.
  destruct (bloom_chat_inv _ _ _ _ _ _ _ _ _ _ _ _ _ _
              Hwf HL Et Hemb HP Hfit H1 H)
    as (s & Hs & -> & ->); cbn [model].
  assert (chat_common (model cc) (n_past cc)
            (List.length (last_n_tokens cc)) s) as Hcm.
  { destruct Hs as [(tr & _ & _ & _ & Hcm)|(tr & b & _ & _ & _ & Hcm)];
      exact Hcm. }
  destruct Hcm as (_ & _ & _ & _ & Hk & _).
  apply Hk; lia.
Qed.

(** X12.  The session stays well-formed when the input fits in the
    context: after such a call, whatever its outcome, the cache keeps the
    shape the loader gave it, hyperparameters, weights, vocabulary and
    [mem_per_token] are unchanged, the history window has the same size, and
    [n_past] has not moved back and is still inside the context. *)
Theorem bloom_chat_keeps_session :
  forall cc clock seed' nt' nb' np' text g ret cc' dst g' suffix embd_inp,
    cache_wf (model cc) -> 0 < n_layer (hparams (model cc)) ->
    text_from text (n_chars cc) = Some suffix ->
    chat_embd_inp (entry_params clock seed' nt' nb' np' suffix) (vocab cc)
      (last_n_tokens cc) = Some embd_inp ->
    0 <= n_past cc ->
    n_past cc + Z.of_nat (List.length embd_inp)
    <= n_ctx (hparams (model cc)) ->
    1 <= Z.min (n_past cc + Z.of_nat (List.length embd_inp) + np')
           (n_ctx (hparams (model cc))) ->
    bloom_chat cc clock seed' nt' nb' np' text g = Some (ret, cc', dst, g') ->
    cache_wf (model cc')
    /\ hparams (model cc') = hparams (model cc)
    /\ weights (model cc') = weights (model cc)
    /\ vocab cc' = vocab cc
    /\ mem_per_token cc' = mem_per_token cc
    /\ List.length (last_n_tokens cc') = List.length (last_n_tokens cc)
    /\ n_past cc <= n_past cc' <= n_ctx (hparams (model cc')).
Proof.
  intros cc clock seed' nt' nb' np' text g ret cc' dst g' suffix embd_inp
    Hwf HL Et Hemb HP Hfit H1 H.
  destruct (bloom_chat_inv _ _ _ _ _ _ _ _ _ _ _ _ _ _
              Hwf HL Et Hemb HP Hfit H1 H)
    as (s & Hs & -> & ->);
    cbn [model vocab mem_per_token last_n_tokens n_past].
  assert (chat_common (model cc) (n_past cc)
            (List.length (last_n_tokens cc)) s) as Hcm.
  { destruct Hs as [(tr & _ & _ & _ & Hcm)|(tr & b & _ & _ & _ & Hcm)];
      exact Hcm. }
  destruct Hcm as (Hr & Hh & Hw & Hwf' & _ & Hl).
  rewrite Hh. repeat (split; [assumption || reflexivity|]). exact Hr.
Qed.

(** *** The text in the output buffer *)

Lemma append_empty_r (s : string) : (s ++ "")%string = s.
Proof. induction s as [|c s IH]; cbn; [reflexivity|now rewrite IH]. Qed.

Lemma string_size_append (a b : string) :
  string_size (a ++ b) = string_size a + string_size b.
Proof.
  unfold string_size. induction a as [|c a IH]; cbn [append String.length].
  - lia.
  - rewrite !Nat2Z.inj_succ. lia.
Qed.

Lemma text_of_cons x xs : text_of (x :: xs) = (x ++ text_of xs)%string.
Proof.
  unfold text_of. destruct xs as [|y ys]; cbn [String.concat].
  - now rewrite append_empty_r.
  - reflexivity.
Qed.

Lemma text_of_app a b : text_of (a ++ b) = (text_of a ++ text_of b)%string.
Proof.
  induction a as [|x a IH]; [reflexivity|].
  cbn [app]. rewrite !text_of_cons, IH.
  clear. induction x as [|c x IHx]; cbn; [reflexivity|now rewrite IHx].
Qed.


Lemma u64_add_l a b : u64 (u64 a + b) = u64 (a + b).
Proof. unfold u64. apply Zplus_mod_idemp_l. Qed.

(** *** chat: the words generated *)

Lemma bloom_eval_ok m nt p toks ew mpt g ok m' lg mpt' g' :
  (forall z, realloc_ok z = true) ->
  bloom_eval m nt p toks ew mpt g = Some (ok, m', lg, mpt', g') ->
  ok = true.
Proof.
  intros Hr H. destruct ok; [reflexivity|].
  destruct (bloom_eval_false _ _ _ _ _ _ _ _ _ _ _ H) as (_ & _ & _ & _ & _ & _ & E).
  rewrite Hr in E. discriminate.
Qed.

(** The ingestion loop leaves the output and the character count alone;
    when no evaluation fails it ends with [n_past] at the end of the
    input. *)
Lemma chat_ingest_frame params embd_inp P0 n_input fuel :
  forall s ok s',
    chat_ingest fuel params embd_inp P0 n_input s = Some (ok, s') ->
    c_dst s' = c_dst s /\ c_n_chars s' = c_n_chars s
    /\ ((forall z, realloc_ok z = true) -> ok = true)
    /\ (ok = true -> 0 <= c_n_past s <= n_input -> n_input <= INT32_MAX ->
        c_n_past s' = n_input).
Proof.
  induction fuel as [|fuel IH]; intros s ok s' H; cbn [chat_ingest] in H.
  - destruct (Z.ltb_spec (c_n_past s) n_input); [discriminate|].
    injection H as <- <-. repeat split; auto. lia.
  - destruct (Z.ltb_spec (c_n_past s) n_input) as [Hlt|Hge].
    2:{ injection H as <- <-. repeat split; auto. lia. }
    set (n := i32 (Z.min (u64 (n_batch params)) (u64 (n_input - c_n_past s))))
      in H.
    destruct (sub_vector embd_inp _ n) as [embd|] eqn:Ev; [|discriminate].
    destruct (bloom_eval _ _ _ _ _ _ _) as [[[[[ok1 m] logits] mpt] g]|] eqn:Ee;
      [|discriminate].
    destruct ok1; cbn [negb] in H.
    + destruct (refill_history _ _ _ _ _) as [[last_n g1]|]; [|discriminate].
      apply IH in H. cbn [c_dst c_n_chars c_n_past] in H.
      destruct H as (Hd & Hc & Hok & Hend).
      repeat (split; [assumption|]).
      intros -> Hr Hmax. apply Hend; [reflexivity| |exact Hmax].
      assert (INT32_MAX = 2147483647) as EM by reflexivity.
      pose proof (u64_range (n_batch params)) as Hb.
      assert (0 <= u64 (c_n_past s - P0)) as Ha by apply u64_range.
      destruct (sub_vector_length _ _ _ _ Ha Ev) as [Hn0 _].
      assert (n = Z.min (u64 (n_batch params)) (n_input - c_n_past s)) as En.
      { subst n. rewrite (u64_small (n_input - c_n_past s)) by lia.
        apply i32_small. unfold in_i32, INT32_MIN, INT32_MAX. lia. }
      rewrite (u64_small n) by lia. rewrite u64_small by lia. lia.
    + injection H as <- <-. unfold chat_with. cbn [c_dst c_n_chars].
      split; [reflexivity|]. split; [reflexivity|]. split.
      * intros Hr. exact (bloom_eval_ok _ _ _ _ _ _ _ _ _ _ _ _ Hr Ee).
      * discriminate.
Qed.

(** The decoding loop appends the words of the tokens it samples, at
    least one, and counts their characters; it leaves [n_past] one short of
    the tokens it sampled, which are no more than the bound of its test
    allows. *)
Lemma chat_decode_words params v n_input fuel :
  forall s ok s',
    chat_decode fuel params v n_input s = Some (ok, s') ->
    exists ws,
      c_dst s' = c_dst s ++ ws /\ ws <> []
      /\ c_n_chars s' = u64 (c_n_chars s + string_size (text_of ws))
      /\ ((forall z, realloc_ok z = true) -> ok = true)
      /\ (0 <= c_n_past s ->
          Z.of_nat (List.length ws)
          <= Z.max 1 (u64 (n_input + u64 (n_predict params) - 1)
                      - c_n_past s + 1)
          /\ c_n_past s' = c_n_past s + Z.of_nat (List.length ws) - 1).
Proof.
  induction fuel as [|fuel IH]; intros s ok s' H;
    cbn [chat_decode] in H; [discriminate|].
  destruct (bloom_sample_top_p _ _ _ _ _ _ _ _) as [id rng].
  destruct (vec_shift (c_last_n_tokens s) id) as [last_n|]; [|discriminate].
  destruct (word_of v id) as [word|]; [|discriminate].
  destruct (vec_back last_n) as [back|]; [|discriminate].
  set (Bc := u64 (n_input + u64 (n_predict params) - 1)) in *.
  assert (text_of [word] = word) as Ew by reflexivity.
  destruct (back =? 2); cbn [orb] in H.
  { injection H as <- <-. exists [word].
    cbn [c_dst c_n_chars c_n_past List.length]. rewrite Ew.
    repeat split; auto; try congruence; lia. }
  destruct (Z.leb_spec Bc (c_n_past s)) as [Hge|Hlt].
  { injection H as <- <-. exists [word].
    cbn [c_dst c_n_chars c_n_past List.length]. rewrite Ew.
    repeat split; auto; try congruence; lia. }
  destruct (bloom_eval _ _ _ _ _ _ _) as [[[[[ok1 m] logits] mpt] g]|] eqn:Ee;
    [|discriminate].
  destruct ok1; cbn [negb] in H.
  - pose proof (u64_range (n_input + u64 (n_predict params) - 1)) as HB.
    fold Bc in HB.
    apply IH in H.
    destruct H as (ws & Hd & _ & Hc & Hok & Hcnt).
    cbn [c_dst c_n_chars c_n_past] in *.
    exists (word :: ws). rewrite <- app_assoc in Hd.
    split; [exact Hd|]. split; [congruence|].
    split; [rewrite Hc, u64_add_l, text_of_cons, string_size_append;
            f_equal; lia|].
    split; [exact Hok|].
    intros Hp.
    assert (u64 (c_n_past s + 1) = c_n_past s + 1) as En
      by (apply u64_small; lia).
    rewrite En in Hcnt. destruct Hcnt as [Hcnt Hn]; [lia|].
    cbn [List.length]. rewrite Nat2Z.inj_succ. split; lia.
  - injection H as <- <-. unfold chat_with.
    exists [word]. cbn [c_dst c_n_chars c_n_past List.length]. rewrite Ew.
    split; [reflexivity|]. split; [congruence|]. split; [reflexivity|].
    split; [|intros; split; lia].
    intros Hr. exact (bloom_eval_ok _ _ _ _ _ _ _ _ _ _ _ _ Hr Ee).
Qed.

(** [chat] when no evaluation fails. *)
Lemma chat_words params m v mpt nc P0 last_n dst g r s embd_inp :
  (forall z, realloc_ok z = true) ->
  chat_embd_inp params v last_n = Some embd_inp ->
  chat params m v mpt nc P0 last_n dst g = Some (r, s) ->
  exists ws,
    c_dst s = dst ++ ws /\ ws <> []
    /\ c_n_chars s
       = u64 (nc + string_size (prompt params) + string_size (text_of ws))
    /\ r = i32 (c_n_chars s)
    /\ (0 <= P0 ->
        P0 + Z.of_nat (List.length embd_inp) <= INT32_MAX ->
        0 <= n_ctx (hparams m) <= INT32_MAX ->
        1 <= Z.min (P0 + Z.of_nat (List.length embd_inp) + n_predict params)
               (n_ctx (hparams m)) ->
        Z.of_nat (List.length ws)
        <= Z.max 1 (Z.min (n_predict params)
                      (n_ctx (hparams m)
                       - (P0 + Z.of_nat (List.length embd_inp))))
        /\ c_n_past s
           = P0 + Z.of_nat (List.length embd_inp)
             + Z.of_nat (List.length ws) - 1).
Proof.
  intros Hr Hemb H. unfold chat in H. rewrite Hemb in H.
  set (n_input := u64 (P0 + Z.of_nat (List.length embd_inp))) in H.
  set (params' := set_n_predict params _) in H.
  destruct (chat_ingest _ _ _ _ _ _) as [[ok s1]|] eqn:Ei; [|discriminate].
  destruct (chat_ingest_frame _ _ _ _ _ _ _ _ Ei) as (Hd1 & Hc1 & Hok1 & Hend).
  cbn [c_dst c_n_chars c_n_past] in Hd1, Hc1, Hend.
  rewrite (Hok1 Hr) in *. cbn [negb] in H.
  destruct (chat_decode _ _ _ _ _) as [[ok2 s2]|] eqn:Ed; [|discriminate].
  assert (INT32_MAX = 2147483647) as EM by reflexivity.
  apply chat_decode_words in Ed.
  destruct Ed as (ws & Hd & Hne & Hc & Hok & Hcnt).
  cbn [c_dst c_n_chars c_n_past] in *.
  rewrite (Hok Hr) in H. cbn [negb] in H. injection H as <- <-.
  exists ws. rewrite Hd, Hd1, Hc, Hc1, u64_add_l.
  repeat (split; [reflexivity || assumption|]).
  intros HP0 Hmax Hctx H1.
  assert (n_input = P0 + Z.of_nat (List.length embd_inp)) as En
    by (subst n_input; apply u64_small; lia).
  rewrite En in *.
  rewrite Hend in Hcnt by (reflexivity || lia).
  assert (n_predict params'
          = Z.min (n_predict params)
              (n_ctx (hparams m) - (P0 + Z.of_nat (List.length embd_inp))))
    as Ek.
  { subst params'. cbn [n_predict set_n_predict]. f_equal.
    unfold sub32. rewrite En. rewrite (i32_small (P0 + _))
      by (unfold in_i32, INT32_MIN, INT32_MAX; lia).
    apply i32_small. unfold in_i32, INT32_MIN, INT32_MAX. lia. }
  rewrite Ek in Hcnt.
  rewrite decode_bound in Hcnt by lia.
  destruct Hcnt as [Hcnt Hn]; [lia|]. split; lia.
Qed.


(** X14.  The token budget of [bloom_chat]: when no evaluation fails and
    the call returns 0, with [n_input] the session's [n_past] plus the
    number of input tokens (the carried-over token and those of the new
    suffix), the tokens generated are at least one, even for a budget of
    zero, and at most [min n_predict (n_ctx - n_input)] otherwise; the
    session's [n_past] ends one short of input plus generated tokens, the
    last generated token not having been evaluated. *)
Theorem bloom_chat_budget :
  forall cc clock seed' nt' nb' np' text g cc' dst g' suffix embd_inp,
    (forall z, realloc_ok z = true) ->
    text_from text (n_chars cc) = Some suffix ->
    chat_embd_inp (entry_params clock seed' nt' nb' np' suffix) (vocab cc)
      (last_n_tokens cc) = Some embd_inp ->
    0 <= n_past cc ->
    n_past cc + Z.of_nat (List.length embd_inp) <= INT32_MAX ->
    0 <= n_ctx (hparams (model cc)) <= INT32_MAX ->
    1 <= Z.min (n_past cc + Z.of_nat (List.length embd_inp) + np')
           (n_ctx (hparams (model cc))) ->
    bloom_chat cc clock seed' nt' nb' np' text g = Some (0, cc', dst, g') ->
    exists ws,
      dst = text :: ws
      /\ 1 <= Z.of_nat (List.length ws)
         <= Z.max 1 (Z.min np'
                       (n_ctx (hparams (model cc))
                        - (n_past cc + Z.of_nat (List.length embd_inp))))
      /\ n_past cc'
         = n_past cc + Z.of_nat (List.length embd_inp)
           + Z.of_nat (List.length ws) - 1.
Proof.
  intros cc clock seed' nt' nb' np' text g cc' dst g' suffix embd_inp
    Hr Et Hemb HP Hmax Hctx H1 H.
  unfold bloom_chat in H. rewrite Et in H.
  destruct (chat _ _ _ _ _ _ _ _ _) as [[r s]|] eqn:Ec; [|discriminate].
  destruct (chat_words _ _ _ _ _ _ _ _ _ _ _ _ Hr Hemb Ec)
    as (ws & Hd & Hne & _ & _ & Hcnt).
  cbn [entry_params n_predict] in Hcnt.
  destruct (Hcnt HP Hmax Hctx H1) as [Hle Hn].
  destruct (r <? 0); [discriminate|]. injection H as <- <- <-.
  exists ws. rewrite Hd. cbn [app n_past].
  split; [reflexivity|]. split; [|exact Hn].
  split; [|exact Hle]. destruct ws; [congruence|]. cbn [List.length]. lia.
Qed.

(** *** bloom_load: the handle *)

(** X15.  A file that cannot be opened, or whose first four bytes are not
    the magic, gives the null handle: [bloom_load] returns 0 without
    creating an arena or running a forward pass. *)
Theorem bloom_load_rejects_bad_file :
  forall fname n_ctx' nt g,
    fs fname = None
    \/ (exists bytes,
          fs fname = Some bytes /\ (4 <= List.length bytes)%nat
          /\ le_combine (firstn 4 bytes) <> BLOOM_MAGIC) ->
    bloom_load fname n_ctx' nt g = Some (None, g).
Proof.
  intros fname n_ctx' nt g H. unfold bloom_load, bloom_model_load.
  destruct H as [Hfs|(bytes & Hfs & Hlen & Hmagic)]; rewrite Hfs.
  - reflexivity.
  - unfold read_u32, fin_read, ifstream_open. cbn [good rest pos].
    destruct (Nat.leb_spec 4 (List.length bytes)); [|lia].
    destruct (Z.eqb_spec (le_combine (firstn 4 bytes)) BLOOM_MAGIC);
      [contradiction|reflexivity].
Qed.

(** X16.  A session returned by [bloom_load] is well-formed when the
    dimensions of the header do not overflow [int]: the weights are
    present, both cache tensors hold exactly [n_embd * n_layer * n_ctx]
    elements, the context length is the one passed to the call, and
    [n_past] is 0. *)
Theorem bloom_load_session_wf :
  forall fname n_ctx' nt g cc g',
    bloom_load fname n_ctx' nt g = Some (Some cc, g') ->
    dims_ok (hparams (model cc)) ->
    cache_wf (model cc)
    /\ weights (model cc) <> None
    /\ n_ctx (hparams (model cc)) = n_ctx'
    /\ n_past cc = 0.
Proof.
  intros fname n_ctx' nt g cc g' H Hd. unfold bloom_load in H.
  destruct (bloom_model_load fname _ _ n_ctx' g) as [[[res m0] v0] g0] eqn:El.
  destruct res; [|discriminate]. cbn [negb] in H.
  destruct (bloom_eval m0 nt 0 [0; 1; 2; 3] [] _ g0)
    as [[[[[res m1] lg] mpt] g1]|] eqn:Ee; [|discriminate].
  destruct res; [|discriminate]. cbn [negb] in H.
  destruct (repeat_last_n gpt_params_default <? 0); [discriminate|].
  injection H as <- <-. cbn [model n_past] in *.
  destruct (bloom_model_load_ok _ _ _ _ _ _ _ _ El) as (_ & Hctx & Hk & Hv).
  pose proof (bloom_eval_inv _ _ _ _ _ _ _ _ _ _ _ Ee)
    as (w & inpL & mk & mv & Hw & _ & Hm1 & _).
  assert (hparams m1 = hparams m0) as Hh by (rewrite Hm1; reflexivity).
  rewrite Hh in Hd.
  assert (Hwf : cache_wf m0).
  { split; [assumption|]. pose proof Hd as (He & Hc & Hl & Hmax).
    unfold INT32_MAX in Hmax.
    assert (0 <= n_layer (hparams m0) * n_ctx (hparams m0)
            <= n_embd (hparams m0)
               * (n_layer (hparams m0) * n_ctx (hparams m0))) by nia.
    unfold mul32 in Hk.
    rewrite (i32_small (n_layer (hparams m0) * n_ctx (hparams m0))) in Hk
      by (unfold in_i32, INT32_MIN, INT32_MAX; lia).
    rewrite i32_small in Hk by (unfold in_i32, INT32_MIN, INT32_MAX; lia).
    rewrite Hv, Hk. lia. }
  assert (Hp : in_i32 0) by (unfold in_i32, INT32_MIN, INT32_MAX; lia).
  destruct (bloom_eval_cache _ _ _ _ _ _ _ _ _ _ _ Hwf Hp Ee)
    as (Hwf1 & _ & Hw1 & _ & _).
  split; [exact Hwf1|]. split; [congruence|].
  split; [congruence|reflexivity].
Qed.

(** *** Reading a part *)

Lemma w_read_prefix (bs t dst : list byte) p :
  w_read (List.length bs) dst (at_bytes (bs ++ t) p)
  = (bs, at_bytes t (p + Z.of_nat (List.length bs))).
Proof.
  unfold w_read, at_bytes. cbn [w_in w_eof]. rewrite fin_read_prefix.
  reflexivity.
Qed.

Lemma w_read_i32_field old v t p :
  in_i32 v ->
  w_read_i32 old (at_bytes (field32 v ++ t) p) = (v, at_bytes t (p + 4)).
Proof.
  intros H. unfold w_read_i32.
  pose proof (w_read_prefix (field32 v) t (le_split 4 old) p) as E.
  rewrite length_field32 in E. rewrite E.
  unfold field32. rewrite le_combine_split. now rewrite i32_u32.
Qed.

(** A read that asks for more than is left sets the end-of-file flag;
    the flag stays set through later reads. *)
Lemma w_read_short n dst bs p :
  (List.length bs < n)%nat ->
  w_eof (snd (w_read n dst (at_bytes bs p))) = true.
Proof.
  intros H. unfold w_read, fin_read, at_bytes. cbn [w_in w_eof good rest pos].
  destruct (Nat.leb_spec n (List.length bs)); [lia|]. reflexivity.
Qed.

Lemma w_read_eof n dst s :
  w_eof s = true -> w_eof (snd (w_read n dst s)) = true.
Proof.
  intros H. unfold w_read. destruct (fin_read n dst (w_in s)) as [bs s'].
  cbn [snd w_eof]. now rewrite H.
Qed.

Lemma w_read_whole n dst bs p :
  (n <= List.length bs)%nat ->
  snd (w_read n dst (at_bytes bs p))
  = at_bytes (skipn n bs) (p + Z.of_nat n).
Proof.
  intros H. unfold w_read, fin_read, at_bytes. cbn [w_in w_eof good rest pos].
  destruct (Nat.leb_spec n (List.length bs)); [|lia]. reflexivity.
Qed.

Lemma w_read_i32_snd old s :
  snd (w_read_i32 old s) = snd (w_read 4 (le_split 4 old) s).
Proof.
  unfold w_read_i32. now destruct (w_read 4 (le_split 4 old) s).
Qed.

(** Fewer than twelve bytes: the three reads of a header end at the end
    of the file. *)
Lemma header_reads_eof bs p o1 o2 o3 :
  (List.length bs < 12)%nat ->
  w_eof (snd (w_read_i32 o3
                (snd (w_read_i32 o2 (snd (w_read_i32 o1 (at_bytes bs p)))))))
  = true.
Proof.
  intros H. rewrite !w_read_i32_snd.
  destruct (Nat.le_gt_cases 4 (List.length bs)) as [H1|H1].
  2:{ do 2 apply w_read_eof. now apply w_read_short. }
  rewrite (w_read_whole 4 _ bs p H1).
  destruct (Nat.le_gt_cases 4 (List.length (skipn 4 bs))) as [H2|H2].
  2:{ apply w_read_eof. now apply w_read_short. }
  rewrite (w_read_whole 4 _ _ _ H2).
  apply w_read_short. rewrite !length_skipn. rewrite length_skipn in H2. lia.
Qed.

(** With one part, the loader reads the records of the file itself from
    [file_offset] on. *)
Lemma load_weights_one fname bytes off tensors :
  fs fname = Some bytes -> 0 <= off < 2 ^ 63 ->
  load_weights fname off 1 tensors
  = load_records (S (List.length (skipn (Z.to_nat off) bytes))) 1 0 0 tensors
      (at_bytes (skipn (Z.to_nat off) bytes) off).
Proof.
  intros Hfs Hoff. unfold load_weights, int_range.
  change (Z.to_nat 1) with 1%nat. cbn [int_from load_parts].
  change (0 <? 0) with false. cbn iota.
  unfold w_open. rewrite Hfs.
  assert (i64 off = off) as ->.
  { unfold i64. rewrite Z.mod_small by lia. lia. }
  destruct (Z.ltb_spec off 0); [lia|].
  cbn [w_in rest]. fold (at_bytes (skipn (Z.to_nat off) bytes) off).
  destruct (load_records _ 1 0 0 tensors _) as [[[|] t]|]; reflexivity.
Qed.

(** The dimensions of a header. *)
Lemma read_dims_header r t p :
  header_ok r ->
  read_dims (Z.of_nat (List.length (r_dims r)))
    (at_bytes (header_bytes (r_dims r) ++ t) p)
  = Some (r_ne0 r, r_ne1 r, r_ne0 r * r_ne1 r,
          at_bytes t (p + 4 * Z.of_nat (List.length (r_dims r)))).
Proof.
  intros (Hlen & Hall & _). unfold read_dims, r_ne0, r_ne1, header_bytes.
  destruct (r_dims r) as [|d0 [|d1 [|d2 ds]]];
    cbn [List.length flat_map nth app] in *; try lia.
  - cbn [Z.of_nat Z.leb Z.compare]. do 3 f_equal. lia.
  - inversion Hall as [|? ? H0 _]; subst.
    change (Z.of_nat 1 <=? 0) with false. cbn iota.
    rewrite app_nil_r, w_read_i32_field by assumption.
    change (Z.of_nat 1 =? 1) with true. cbn iota.
    unfold in_i32, INT32_MIN, INT32_MAX in H0.
    unfold i64. rewrite Z.mod_small by lia.
    do 3 f_equal; lia.
  - inversion Hall as [|? ? H0 Hall']; subst.
    inversion Hall' as [|? ? H1 _]; subst.
    change (Z.of_nat 2 <=? 0) with false. cbn iota.
    rewrite app_nil_r, <- app_assoc.
    rewrite w_read_i32_field by assumption.
    change (Z.of_nat 2 =? 1) with false. cbn iota.
    rewrite w_read_i32_field by assumption.
    change (Z.of_nat 2 =? 2) with true. cbn iota.
    unfold in_i32, INT32_MIN, INT32_MAX in H0, H1.
    assert (i64 (1 * d0) = d0) as -> by (unfold i64; rewrite Z.mod_small; lia).
    assert (i64 (d0 * d1) = d0 * d1) as ->.
    { unfold i64. rewrite Z.mod_small; [lia|]. nia. }
    do 3 f_equal; lia.
Qed.

(** An iteration on a whole header: what is left to do is the lookup of
    the tensor, the checks and the read of the data. *)
Lemma load_record_header n_parts part_id tensors r t p :
  header_ok r ->
  exists p',
    load_record n_parts part_id tensors (at_bytes (record_header r ++ t) p)
    = match map.get tensors (r_key r) with
      | None => Some ReturnFalse
      | Some tensor =>
          if wrong_size tensor
               (Z.of_nat (List.length (r_dims r))) n_parts
               (r_ne0 r * r_ne1 r)
          then Some ReturnFalse
          else if wrong_shape tensor (Z.of_nat (List.length (r_dims r)))
                    n_parts
                    (split_type_of (string_of_list_byte (r_name r)))
                    (r_ne0 r) (r_ne1 r)
          then Some ReturnFalse
          else
            match bpe_of (r_ftype r) (r_ne0 r) with
            | None => None
            | Some None => Some ReturnFalse
            | Some (Some bpe) =>
                if (Z.of_nat (List.length (r_dims r)) =? 1) || (n_parts =? 1)
                then
                  if u64 (ggml_blck_size (t_type tensor)) =? 0 then None
                  else if negb (u64 (r_ne0 r * r_ne1 r * bpe)
                                / u64 (ggml_blck_size (t_type tensor))
                                =? nbytes_of tensor)
                  then Some ReturnFalse
                  else if part_id =? 0 then
                    let '(data, s) :=
                      w_read (Z.to_nat (nbytes_of tensor)) (t_data tensor)
                        (at_bytes t p') in
                    Some (Continue
                            (map.put tensors (r_key r) (set_data tensor data))
                            s)
                  else
                    Some (Continue tensors
                            (w_seek_cur (nbytes_of tensor) (at_bytes t p')))
                else
                  if u64 (ggml_blck_size (t_type tensor)) =? 0 then None
                  else if negb (u64 (r_ne0 r * r_ne1 r * bpe)
                                / u64 (ggml_blck_size (t_type tensor))
                                =? nbytes_of tensor / u64 n_parts)
                  then Some ReturnFalse
                  else
                    match read_split tensor
                            (split_type_of (string_of_list_byte (r_name r)))
                            n_parts part_id (r_ne0 r) (r_ne1 r)
                            (at_bytes t p') with
                    | Some (tensor', s) =>
                        Some (Continue (map.put tensors (r_key r) tensor') s)
                    | None => None
                    end
            end
      end.
Proof.
  intros Hok. pose proof Hok as (Hlen & Hall & Hft & Hname).
  assert (INT32_MAX = 2147483647) as EM by reflexivity.
  eexists.
  unfold load_record, record_header.
  rewrite <- !app_assoc.
  rewrite w_read_i32_field
    by (unfold in_i32, INT32_MIN, INT32_MAX; lia).
  rewrite w_read_i32_field
    by (unfold in_i32, INT32_MIN, INT32_MAX; lia).
  rewrite w_read_i32_field by assumption.
  cbn [w_eof at_bytes].
  fold (at_bytes (header_bytes (r_dims r) ++ r_name r ++ t) (p + 4 + 4 + 4)).
  rewrite read_dims_header by assumption.
  destruct (Z.ltb_spec (Z.of_nat (List.length (r_name r))) 0); [lia|].
  rewrite Nat2Z.id.
  rewrite w_read_prefix.
  fold (r_key r).
  destruct (map.get tensors (r_key r)) as [tensor|]; [|reflexivity].
  destruct (wrong_size _ _ _ _); [reflexivity|].
  destruct (wrong_shape _ _ _ _ _ _); [reflexivity|].
  destruct (bpe_of (r_ftype r) (r_ne0 r)) as [[bpe|]|]; reflexivity.
Qed.

Lemma load_record_eof n_parts part_id tensors bs p :
  (List.length bs < 12)%nat ->
  load_record n_parts part_id tensors (at_bytes bs p) = Some Break.
Proof.
  intros H. unfold load_record.
  pose proof (header_reads_eof bs p stack_junk stack_junk stack_junk H) as E.
  destruct (w_read_i32 stack_junk (at_bytes bs p)) as [a s1].
  cbn [snd] in E.
  destruct (w_read_i32 stack_junk s1) as [b s2]. cbn [snd] in E.
  destruct (w_read_i32 stack_junk s2) as [c s3]. cbn [snd] in E.
  now rewrite E.
Qed.

(** After a read that ran into the end of the file, the next iteration
    leaves the loop. *)
Lemma load_record_after_eof n_parts part_id tensors s :
  w_eof s = true -> load_record n_parts part_id tensors s = Some Break.
Proof.
  intros H. unfold load_record.
  pose proof (w_read_eof 4 (le_split 4 stack_junk) s H) as E1.
  rewrite <- w_read_i32_snd in E1.
  destruct (w_read_i32 stack_junk s) as [a s1]. cbn [snd] in E1.
  pose proof (w_read_eof 4 (le_split 4 stack_junk) s1 E1) as E2.
  rewrite <- w_read_i32_snd in E2.
  destruct (w_read_i32 stack_junk s1) as [b s2]. cbn [snd] in E2.
  pose proof (w_read_eof 4 (le_split 4 stack_junk) s2 E2) as E3.
  rewrite <- w_read_i32_snd in E3.
  destruct (w_read_i32 stack_junk s2) as [c s3]. cbn [snd] in E3.
  now rewrite E3.
Qed.

Lemma wrong_size_one tensor n_dims nelements :
  wrong_size tensor n_dims 1 nelements
  = negb (nelements_of tensor =? nelements).
Proof.
  unfold wrong_size. rewrite Z.quot_1_r. now destruct (n_dims =? 1).
Qed.

Lemma wrong_shape_one tensor n_dims split_type ne0 ne1 :
  wrong_shape tensor n_dims 1 split_type ne0 ne1
  = negb (t_ne0 tensor =? ne0) || negb (t_ne1 tensor =? ne1).
Proof.
  unfold wrong_shape. rewrite !Z.quot_1_r.
  destruct (n_dims =? 1), (split_type =? 0); reflexivity.
Qed.

(** The first part, with one part: the data of a record that fits. *)
Lemma load_record_fits tensors r tensor t p :
  record_fits tensors r tensor ->
  exists p',
    load_record 1 0 tensors (at_bytes (record_header r ++ t) p)
    = (let '(data, s) :=
         w_read (Z.to_nat (nbytes_of tensor)) (t_data tensor) (at_bytes t p') in
       Some (Continue (map.put tensors (r_key r) (set_data tensor data)) s)).
Proof.
  intros (Hok & Hget & Hn & H0 & H1 & (bpe & Hbpe & Hsize) & Hblck).
  destruct (load_record_header 1 0 tensors r t p Hok) as [p' E].
  exists p'. rewrite E, Hget, wrong_size_one, wrong_shape_one, Hn, H0, H1.
  rewrite !Z.eqb_refl. cbn [negb orb]. rewrite Hbpe.
  rewrite Bool.orb_true_r.
  destruct (Z.eqb_spec (u64 (ggml_blck_size (t_type tensor))) 0);
    [contradiction|].
  rewrite Hsize, Z.eqb_refl. cbn [negb]. reflexivity.
Qed.

Lemma load_record_ok tensors r t p :
  record_ok tensors r ->
  exists p',
    load_record 1 0 tensors (at_bytes (record_bytes r ++ t) p)
    = Some (Continue (store tensors r) (at_bytes t p')).
Proof.
  intros (tensor & Hfit & Hlen).
  pose proof Hfit as (_ & Hget & _).
  unfold record_bytes. rewrite <- app_assoc.
  destruct (load_record_fits tensors r tensor (r_data r ++ t) p Hfit)
    as [p' E].
  rewrite E, <- Hlen, Nat2Z.id, w_read_prefix.
  unfold store. rewrite Hget. eexists. reflexivity.
Qed.

Lemma store_get tensors r k :
  map.get (store tensors r) k
  = match map.get tensors (r_key r) with
    | Some tensor =>
        if String.eqb k (r_key r) then Some (set_data tensor (r_data r))
        else map.get tensors k
    | None => map.get tensors k
    end.
Proof.
  pose proof (SortedListString.ok ggml_tensor) as okS.
  unfold store. destruct (map.get tensors (r_key r)) as [tensor|] eqn:E;
    [|reflexivity].
  destruct (String.eqb_spec k (r_key r)) as [->|Hne].
  - apply map.get_put_same.
  - apply map.get_put_diff. exact Hne.
Qed.

(** Storing the data of a record changes no type and no dimension, so the
    records behind it fit as before. *)
Lemma record_ok_store tensors r r' :
  record_ok tensors r' -> record_ok (store tensors r) r'.
Proof.
  intros (tensor & (Hok & Hget & Hn & H0 & H1 & Hb & Hblck) & Hlen).
  pose proof (store_get tensors r (r_key r')) as Eg.
  destruct (map.get tensors (r_key r)) as [tr|] eqn:Er.
  - destruct (String.eqb_spec (r_key r') (r_key r)) as [Ek|Hne].
    + rewrite Ek, Er in Hget. injection Hget as ->.
      exists (set_data tensor (r_data r)).
      split; [|exact Hlen].
      split; [exact Hok|]. split; [exact Eg|].
      split; [exact Hn|]. split; [exact H0|]. split; [exact H1|].
      split; [exact Hb|exact Hblck].
    + exists tensor. split; [|exact Hlen].
      rewrite Hget in Eg.
      split; [exact Hok|]. split; [exact Eg|].
      split; [exact Hn|]. split; [exact H0|]. split; [exact H1|].
      split; [exact Hb|exact Hblck].
  - exists tensor. split; [|exact Hlen].
    rewrite Hget in Eg.
    split; [exact Hok|]. split; [exact Eg|].
    split; [exact Hn|]. split; [exact H0|]. split; [exact H1|].
    split; [exact Hb|exact Hblck].
Qed.

Lemma load_records_ok rs : forall fuel n tensors p,
  (List.length rs < fuel)%nat ->
  n + Z.of_nat (List.length rs) <= INT32_MAX ->
  Forall (record_ok tensors) rs ->
  load_records fuel 1 0 n tensors (at_bytes (flat_map record_bytes rs) p)
  = Some (true, fold_left store rs tensors).
Proof.
  induction rs as [|r rs IH]; intros fuel n tensors p Hfuel Hn Hall;
    (destruct fuel as [|fuel]; [cbn [List.length] in Hfuel; lia|]);
    cbn [load_records flat_map fold_left].
  - rewrite load_record_eof by (cbn; lia). reflexivity.
  - inversion Hall as [|? ? Hr Hrs]; subst.
    destruct (load_record_ok tensors r (flat_map record_bytes rs) p Hr)
      as [p' E].
    rewrite E. cbn [List.length] in Hn, Hfuel.
    destruct (Z.leb_spec INT32_MAX n); [lia|].
    apply IH; [lia|lia|].
    eapply Forall_impl; [|exact Hrs].
    intros r' Hr'. now apply record_ok_store.
Qed.

Lemma length_record_bytes r : (12 <= List.length (record_bytes r))%nat.
Proof.
  unfold record_bytes, record_header. rewrite !length_app, !length_field32.
  lia.
Qed.

Lemma length_records rs :
  (List.length rs <= List.length (flat_map record_bytes rs))%nat.
Proof.
  induction rs as [|r rs IH]; cbn [flat_map List.length]; [lia|].
  rewrite length_app. pose proof (length_record_bytes r). lia.
Qed.

(** X17.  The loader does not check that the tensors were read: when the
    file ends less than twelve bytes behind the vocabulary, with nothing or
    with a header cut short, the loop over the records returns true and
    leaves every tensor as it was allocated. *)
Theorem tensor_section_may_be_missing :
  forall fname bytes off tensors,
    fs fname = Some bytes ->
    0 <= off < 2 ^ 63 ->
    (List.length (skipn (Z.to_nat off) bytes) < 12)%nat ->
    load_weights fname off 1 tensors = Some (true, tensors).
Proof.
  intros fname bytes off tensors Hfs Hoff Hlen.
  rewrite (load_weights_one _ _ _ _ Hfs Hoff).
  cbn [load_records]. now rewrite load_record_eof.
Qed.

(** X18.  A record whose name is not the name of a tensor of the model
    makes the load return false, with no tensor changed; the name is
    compared up to its first NUL byte. *)
Theorem unknown_tensor_rejected :
  forall fname bytes off tensors r tail,
    fs fname = Some bytes ->
    0 <= off < 2 ^ 63 ->
    skipn (Z.to_nat off) bytes = record_header r ++ tail ->
    header_ok r ->
    map.get tensors (r_key r) = None ->
    load_weights fname off 1 tensors = Some (false, tensors).
Proof.
  intros fname bytes off tensors r tail Hfs Hoff Hbytes Hok Hget.
  rewrite (load_weights_one _ _ _ _ Hfs Hoff), Hbytes.
  cbn [load_records].
  destruct (load_record_header 1 0 tensors r tail off Hok) as [p' E].
  cbv [SortedList.parameters.key SortedList.parameters.value
       SortedListString.Build_parameters] in *.
  rewrite E, Hget. reflexivity.
Qed.

(** X19.  The round trip of the tensor data: when the rest of the file is
    a sequence of records that each name a tensor of the model with its
    number of elements, its dimensions and its number of bytes, fewer
    than [2^31] of them, the load returns true and every tensor named holds
    the data of its record, the last one when it is named several times;
    the other tensors are untouched. *)
Theorem tensor_records_round_trip :
  forall fname bytes off tensors rs,
    fs fname = Some bytes ->
    0 <= off < 2 ^ 63 ->
    skipn (Z.to_nat off) bytes = flat_map record_bytes rs ->
    Forall (record_ok tensors) rs ->
    Z.of_nat (List.length rs) <= INT32_MAX ->
    load_weights fname off 1 tensors
    = Some (true, fold_left store rs tensors).
Proof.
  intros fname bytes off tensors rs Hfs Hoff Hbytes Hall Hmax.
  rewrite (load_weights_one _ _ _ _ Hfs Hoff), Hbytes.
  apply load_records_ok; [|lia|exact Hall].
  pose proof (length_records rs). lia.
Qed.

(** X20.  A file cut inside the data of a tensor is accepted: when the
    last record fits its tensor but the file ends before all its bytes, the
    load returns true, and the tensor holds the bytes that were there
    followed by what it held before. *)
Theorem truncated_tensor_data_accepted :
  forall fname bytes off tensors r tensor avail,
    fs fname = Some bytes ->
    0 <= off < 2 ^ 63 ->
    skipn (Z.to_nat off) bytes = record_header r ++ avail ->
    record_fits tensors r tensor ->
    Z.of_nat (List.length avail) < nbytes_of tensor ->
    load_weights fname off 1 tensors
    = Some (true,
            map.put tensors (r_key r)
              (set_data tensor
                 (avail ++ skipn (List.length avail) (t_data tensor)))).
Proof.
  intros fname bytes off tensors r tensor avail Hfs Hoff Hbytes Hfit Hshort.
  rewrite (load_weights_one _ _ _ _ Hfs Hoff), Hbytes.
  cbn [load_records].
  destruct (load_record_fits tensors r tensor avail off Hfit) as [p' E].
  rewrite E.
  unfold w_read, fin_read, at_bytes. cbn [w_in w_eof good rest pos].
  destruct (Nat.leb_spec (Z.to_nat (nbytes_of tensor)) (List.length avail));
    [lia|].
  cbn [orb andb negb].
  assert (12 <= List.length (record_header r ++ avail))%nat as H12
    by (unfold record_header; rewrite !length_app, !length_field32; lia).
  destruct (List.length (record_header r ++ avail)) as [|n]; [lia|].
  cbn [load_records].
  rewrite load_record_after_eof by reflexivity. reflexivity.
Qed.

(** X21.  A record that names a tensor of the model with another number
    of elements or other dimensions, or with a type code outside 0..3, makes
    the load return false before any data is read: no tensor is
    changed. *)
Theorem mismatched_record_rejected :
  forall fname bytes off tensors r tensor tail,
    fs fname = Some bytes ->
    0 <= off < 2 ^ 63 ->
    skipn (Z.to_nat off) bytes = record_header r ++ tail ->
    header_ok r ->
    map.get tensors (r_key r) = Some tensor ->
    nelements_of tensor <> r_ne0 r * r_ne1 r
    \/ t_ne0 tensor <> r_ne0 r \/ t_ne1 tensor <> r_ne1 r
    \/ ~ 0 <= r_ftype r <= 3 ->
    load_weights fname off 1 tensors = Some (false, tensors).
Proof.
  intros fname bytes off tensors r tensor tail Hfs Hoff Hbytes Hok Hget Hbad.
  rewrite (load_weights_one _ _ _ _ Hfs Hoff), Hbytes.
  cbn [load_records].
  destruct (load_record_header 1 0 tensors r tail off Hok) as [p' E].
  cbv [SortedList.parameters.key SortedList.parameters.value
       SortedListString.Build_parameters] in *.
  rewrite E, Hget, wrong_size_one, wrong_shape_one.
  destruct (Z.eqb_spec (nelements_of tensor) (r_ne0 r * r_ne1 r)) as [En|Hn];
    [|reflexivity].
  destruct (Z.eqb_spec (t_ne0 tensor) (r_ne0 r)) as [E0|H0]; [|reflexivity].
  destruct (Z.eqb_spec (t_ne1 tensor) (r_ne1 r)) as [E1|H1]; [|reflexivity].
  cbn [negb orb].
  destruct Hbad as [Hb|[Hb|[Hb|Hb]]]; try contradiction.
  unfold bpe_of.
  destruct (Z.eqb_spec (r_ftype r) 0); [lia|].
  destruct (Z.eqb_spec (r_ftype r) 1); [lia|].
  destruct (Z.eqb_spec (r_ftype r) 2); [lia|].
  destruct (Z.eqb_spec (r_ftype r) 3); [lia|]. reflexivity.
Qed.

End Bloom.

(** ** The feed-forward width at the edge of [int] *)

(** The width of the loader at [n_embd = 2^29], [n_mult = 1]. *)
Lemma n_ff_overflow_value : n_ff_of 536870912 1 = -2147483648.
Proof. vm_compute. reflexivity. Qed.

(** C5 as stated fails there: the computed width is not the smallest
    multiple of 1 that is at least [4 * 2^29]. *)
Lemma n_ff_overflow :
  ~ least_multiple_geq 1 (4 * 536870912) (n_ff_of 536870912 1).
Proof.
  rewrite n_ff_overflow_value. intros (_ & H & _). lia.
Qed.

(** C5, amended, at the default dimensions [n_embd = 4096],
    [n_mult = 256]. *)
Lemma n_ff_least_multiple_witness :
  least_multiple_geq 256 (4 * 4096) (n_ff_of 4096 256).
Proof.
  apply n_ff_least_multiple; unfold INT32_MAX; lia.
Defined.

(** ** A small instance

    A two-layer model with an eight-word vocabulary, integers for floats,
    and simple functions for the kernels, the tokenizer and the sampler:
    enough to run the entry points on concrete inputs. *)

Module Toy.

Definition k_embed (_ : unit) (toks : list token) : @act Z :=
  fun i => nth (Z.to_nat i) toks 0.

Definition k_qkv (_ : unit) (il : Z) (inpL : @act Z) : @act Z :=
  fun i => 1000 * (il + 1) + 10 * inpL 0 + i.

Definition k_block (_ : unit) (il n_past N : Z) (inpSA cur : @act Z)
    (K V : list Z) : @act Z :=
  fun i => inpSA i + cur i + Z.of_nat (List.length K).

(** The logits tensor holds its own flat indices. *)
Definition k_head (_ : unit) (inpL : @act Z) : @act Z := fun i => i.

(** A pass uses [2^42] bytes of scratch memory: the estimate per token
    that [bloom_load] derives, [2^40], makes every later pass grow the
    scratch buffer, through a [realloc] that [always] or [never]
    succeeds. *)
Definition ggml_used_mem (_ : bloom_hparams) (_ _ : Z) : Z := 2 ^ 42.
Definition scale_1_1 (x : Z) : Z := x + x / 10.
Definition always (_ : Z) : bool := true.
Definition never (_ : Z) : bool := false.

(** The header of a checkpoint: magic, [n_vocab = 8], [n_embd = 2],
    [n_mult = 1], [n_head = 1], [n_layer = 2], [f16 = 0], then the words
    ["a"] to ["h"]. *)
Definition le32 (z : Z) : list byte := le_split 4 z.

Definition word_entry (c : byte) : list byte := le32 1 ++ [c].

Definition toy_bin : list byte :=
  le32 BLOOM_MAGIC ++ le32 8 ++ le32 2 ++ le32 1 ++ le32 1 ++ le32 2 ++ le32 0
  ++ flat_map word_entry
       [Byte.x61; Byte.x62; Byte.x63; Byte.x64; Byte.x65; Byte.x66; Byte.x67;
        Byte.x68].

(** The same file under another magic constant. *)
Definition bad_bin : list byte := le32 0x67676d66 ++ skipn 4 toy_bin.

Definition fs (fname : string) : option (list byte) :=
  if String.eqb fname "toy.bin" then Some toy_bin
  else if String.eqb fname "bad.bin" then Some bad_bin
  else None.

Definition ctx_size_of (_ : bloom_hparams) (_ : Z) (_ : ggml_type) : Z := 4096.
Definition arena_junk (_ : Z) : Z := 0.

(** The files of [fs] hold no tensor records: on [toy.bin], the one that
    is read as far as the loop over the records, the loop meets the end of
    the file at once and returns true. *)
Definition read_weights (_ : bloom_hparams) (_ _ : Z) (_ : list byte) (_ : Z)
  : bool * unit := (true, tt).

Definition params : gpt_params Z :=
  {| seed := -1; n_threads := 4; n_predict := 128; repeat_last_n := 64;
     top_k := 40; top_p := 0; temp := 0; repeat_penalty := 0; n_batch := 8;
     prompt := "" |}.

(** One token per character: ["a"] is 3, ["b"] is 4, and so on. *)
Definition tokenize (_ : gpt_vocab) (s : string) (_ : bool) : list token :=
  List.map (fun c => byte.unsigned c - 94) (list_byte_of_string s).

(** A sampler that draws one of the tokens 4 to 7 from the generator
    state. *)
Definition sample (_ : gpt_vocab) (_ : list Z) (_ : list token)
    (_ _ : Z) (_ : Z) (_ : Z) (rng : Z) : token * Z :=
  (4 + rng mod 4, rng + 1).

Definition heap_junk (_ : Z) : token := 0.

Definition eval (realloc_ok : Z -> bool) :=
  bloom_eval Z unit k_embed k_qkv k_block k_head ggml_used_mem realloc_ok
    scale_1_1.

Definition load_model :=
  bloom_model_load Z unit fs 0 ctx_size_of always arena_junk read_weights.

Definition load :=
  bloom_load Z unit k_embed k_qkv k_block k_head ggml_used_mem always
    scale_1_1 fs 0 ctx_size_of always arena_junk read_weights params.

Definition run :=
  bloom_run Z unit k_embed k_qkv k_block k_head ggml_used_mem always
    scale_1_1 params Z (fun s => s) tokenize sample.

Definition chat (realloc_ok : Z -> bool) :=
  bloom_chat Z unit k_embed k_qkv k_block k_head ggml_used_mem realloc_ok
    scale_1_1 params Z (fun s => s) tokenize sample heap_junk.

(** The session that [bloom_load] returns for the toy checkpoint with a
    context of 16 positions, and the process state it leaves. *)
Definition loaded : option (option (ChatContext Z unit) * proc) :=
  load "toy.bin" 16 4 proc_init.

Definition session : ChatContext Z unit :=
  match loaded with
  | Some (Some cc, _) => cc
  | _ => ChatContext_new Z unit
  end.

Definition session_proc : proc :=
  match loaded with
  | Some (_, g) => g
  | None => proc_init
  end.

(** What a call returned: its code, its output, its trace. *)
Definition ret_of {A B C : Type} (r : option (Z * A * B * C)) : option Z :=
  option_map (fun '(ret, _, _, _) => ret) r.

Definition dst_of {A B C : Type} (r : option (A * B * list string * C))
  : option (list string) :=
  option_map (fun '(_, _, dst, _) => dst) r.

Definition evals_of {A B C : Type} (r : option (A * B * C * proc))
  : option (list (Z * list token)) :=
  option_map (fun '(_, _, _, g) => evals g) r.

Definition reads_of {A B C : Type} (r : option (A * B * C * proc))
  : option (list (Z * Z)) :=
  option_map (fun '(_, _, _, g) => history_reads g) r.

(** The first turn of a conversation, and the session it leaves. *)
Definition turn1 := chat always session 1000 42 4 8 3 "ab" session_proc.

Definition session1 : ChatContext Z unit :=
  match turn1 with
  | Some (_, cc, _, _) => cc
  | None => session
  end.

Definition proc1 : proc :=
  match turn1 with
  | Some (_, _, _, g) => g
  | None => session_proc
  end.

(** A forward pass over two tokens at position 4 of the session's model,
    then one over one token at position 6. *)
Definition pass1 := eval always (model Z unit session) 4 4 [3; 4] [] 1 proc_init.

Definition model1 : bloom_model Z unit :=
  match pass1 with
  | Some (_, m, _, _, _) => m
  | None => model Z unit session
  end.

Definition logits1 : list Z :=
  match pass1 with
  | Some (_, _, lg, _, _) => lg
  | None => []
  end.

Definition pass2 := eval always model1 4 6 [5] [] 1 proc_init.

Definition model2 : bloom_model Z unit :=
  match pass2 with
  | Some (_, m, _, _, _) => m
  | None => model1
  end.

(** A model with 65536 words and one layer over 70000 positions, and an
    input of 65537 tokens. *)
Definition wide_hparams : bloom_hparams :=
  {| n_vocab := 65536; n_ctx := 70000; n_embd := 1; n_mult := 1; n_head := 1;
     n_layer := 1; f16 := 0 |}.

Definition wide_model : bloom_model Z unit :=
  {| hparams := wide_hparams; weights := Some tt;
     memory_k := repeat 0 (Z.to_nat 70000);
     memory_v := repeat 0 (Z.to_nat 70000);
     ctx := Some 4096 |}.

Definition wide_input : list token := repeat 3 (Z.to_nat 65537).

Definition wide_pass := eval always wide_model 4 0 wide_input [] 1 proc_init.

(** *** More files and a table of tensors *)

(** A checkpoint that ends after the magic and two header fields, and the
    toy checkpoint with an [f16] field of 7. *)
Definition short_bin : list byte := le32 BLOOM_MAGIC ++ le32 8 ++ le32 2.

Definition f16_bin : list byte :=
  le32 BLOOM_MAGIC ++ le32 8 ++ le32 2 ++ le32 1 ++ le32 1 ++ le32 2 ++ le32 7
  ++ skipn 28 toy_bin.

(** The words of the toy checkpoint, and its header. *)
Definition toy_words : list (list byte) :=
  List.map (fun c => [c])
    [Byte.x61; Byte.x62; Byte.x63; Byte.x64; Byte.x65; Byte.x66; Byte.x67;
     Byte.x68].

Definition toy_header : bloom_hparams :=
  {| n_vocab := 8; n_ctx := 0; n_embd := 2; n_mult := 1; n_head := 1;
     n_layer := 2; f16 := 0 |}.

Definition f16_header : bloom_hparams :=
  {| n_vocab := 8; n_ctx := 0; n_embd := 2; n_mult := 1; n_head := 1;
     n_layer := 2; f16 := 7 |}.

(** The sizes of ggml's types, and two tensors of the model. *)
Definition type_size (t : ggml_type) : Z :=
  match t with
  | GGML_TYPE_F32 => 4
  | GGML_TYPE_F16 => 2
  | GGML_TYPE_Q4_0 => 20
  | GGML_TYPE_Q4_1 => 24
  end.

Definition blck_size (t : ggml_type) : Z :=
  match t with
  | GGML_TYPE_F32 | GGML_TYPE_F16 => 1
  | GGML_TYPE_Q4_0 | GGML_TYPE_Q4_1 => 32
  end.

Definition nelements (ne0 ne1 : Z) : Z := ne0 * ne1.

Definition nbytes (t : ggml_type) (ne0 ne1 : Z) : Z :=
  ne0 * ne1 * type_size t / blck_size t.

Definition no_split (_ : ggml_tensor) (_ _ _ _ _ : Z) (_ : wstream)
  : option (ggml_tensor * wstream) := None.

Definition norm_tensor : ggml_tensor :=
  {| t_type := GGML_TYPE_F32; t_ne0 := 2; t_ne1 := 1;
     t_data := repeat Byte.xff 8 |}.

Definition output_tensor : ggml_tensor :=
  {| t_type := GGML_TYPE_F16; t_ne0 := 2; t_ne1 := 8;
     t_data := repeat Byte.xff 32 |}.

Definition toy_tensors : tensor_map :=
  map.put (map.put map.empty "norm.weight"%string norm_tensor)
    "output.weight"%string output_tensor.

(** Records for them, one for a tensor that the model does not have, and
    one with a dimension too many for [norm.weight]. *)
Definition norm_record : tensor_record :=
  {| r_dims := [2]; r_ftype := 0;
     r_name := list_byte_of_string "norm.weight";
     r_data := [Byte.x01; Byte.x02; Byte.x03; Byte.x04; Byte.x05; Byte.x06;
                Byte.x07; Byte.x08] |}.

Definition output_record : tensor_record :=
  {| r_dims := [2; 8]; r_ftype := 1;
     r_name := list_byte_of_string "output.weight";
     r_data := repeat Byte.x10 32 |}.

Definition bogus_record : tensor_record :=
  {| r_dims := [2]; r_ftype := 0;
     r_name := list_byte_of_string "bogus.weight";
     r_data := repeat Byte.x00 8 |}.

Definition long_record : tensor_record :=
  {| r_dims := [3]; r_ftype := 0;
     r_name := list_byte_of_string "norm.weight";
     r_data := repeat Byte.x00 12 |}.

(** The toy checkpoint with both tensors, the second one given twice; with
    the unknown tensor; with the record that does not match; and with the
    data of [norm.weight] cut after three bytes. *)
Definition full_bin : list byte :=
  toy_bin ++ flat_map record_bytes [output_record; norm_record; output_record].

Definition bogus_bin : list byte := toy_bin ++ record_bytes bogus_record.

Definition long_bin : list byte := toy_bin ++ record_bytes long_record.

Definition cut_bin : list byte :=
  toy_bin ++ record_header norm_record ++ [Byte.x01; Byte.x02; Byte.x03].

Definition more_fs (fname : string) : option (list byte) :=
  if String.eqb fname "short.bin" then Some short_bin
  else if String.eqb fname "f16.bin" then Some f16_bin
  else if String.eqb fname "full.bin" then Some full_bin
  else if String.eqb fname "bogus.bin" then Some bogus_bin
  else if String.eqb fname "long.bin" then Some long_bin
  else if String.eqb fname "cut.bin" then Some cut_bin
  else fs fname.

(** The loop over the tensor records on checkpoints that hold none: it
    returns true at the end of the file, and does not on a stream that has
    failed, where [tellg] has returned -1. *)
Definition read_none (_ : bloom_hparams) (_ _ : Z) (_ : list byte) (off : Z)
  : bool * unit := (0 <=? off, tt).

Definition load_model' :=
  bloom_model_load Z unit more_fs 0 ctx_size_of always arena_junk read_none.

Definition load_tensors :=
  load_weights more_fs 0 type_size blck_size nelements nbytes false no_split.

(** The model of a new session. *)
Definition new_model : bloom_model Z unit :=
  model Z unit (ChatContext_new Z unit).

(** What [bloom_model_load] makes of the toy checkpoint, before the forward
    pass of [bloom_load]. *)
Definition toy_load :=
  load_model "toy.bin" new_model gpt_vocab_empty 16 proc_init.

Definition model0 : bloom_model Z unit := snd (fst (fst toy_load)).

Definition vocab0 : gpt_vocab := snd (fst toy_load).

Definition proc0 : proc := snd toy_load.

(** The second turn of the conversation. *)
Definition turn2 := chat always session1 1000 42 4 8 3 "abefgcd" proc1.

(** *** Runs of the instance *)

Lemma loaded_session :
  bloom_load Z unit k_embed k_qkv k_block k_head ggml_used_mem always
    scale_1_1 fs 0 ctx_size_of always arena_junk read_weights params
    "toy.bin" 16 4 proc_init
  = Some (Some session, session_proc).
Proof. vm_compute. reflexivity. Qed.

(** C1.  The default seed of the instance is negative, as the clock branch
    of the entry points needs it to be reachable: two [bloom_run] calls on
    the same session with the same prompt, budget and seed 42, made one
    second apart, generate different text, and a call with seed 7 generates
    the text of the call with seed 42 made at the same time. *)
Theorem run_output_follows_clock :
  seed Z params = -1
  /\ dst_of (run session 1000 42 4 8 2 "abc" session_proc)
     = Some ["d"; "e"; "f"; "e"; "f"]%string
  /\ dst_of (run session 1001 42 4 8 2 "abc" session_proc)
     = Some ["d"; "e"; "f"; "f"; "g"]%string
  /\ dst_of (run session 1000 7 4 8 2 "abc" session_proc)
     = Some ["d"; "e"; "f"; "e"; "f"]%string.
Proof. repeat split; vm_compute; reflexivity. Qed.


(** C7.  With [n_batch = 1] and a prompt of three tokens, the first batch
    that [bloom_run] submits (after the pass of [bloom_load]) holds two
    tokens. *)
Theorem run_first_batch_exceeds_n_batch :
  evals_of (run session 1000 42 4 1 2 "abc" session_proc)
  = Some [(0, [0; 1; 2; 3]); (0, [3; 4]); (2, [5]); (3, [4])].
Proof. vm_compute. reflexivity. Qed.

(** C9.  A [bloom_chat] call whose input is two tokens, evaluated in one
    batch from position 0, refills the history by reading its input vector
    of size 2 at the indices 2 and 3. *)
Theorem chat_reads_past_input :
  evals_of (chat always session 1000 42 4 8 3 "ab" session_proc)
  = Some [(0, [0; 1; 2; 3]); (0, [3; 4]); (2, [4]); (3, [5])]
  /\ reads_of (chat always session 1000 42 4 8 3 "ab" session_proc)
     = Some [(2, 2); (3, 2)].
Proof. split; vm_compute; reflexivity. Qed.

Lemma session_cache_wf : cache_wf Z unit (model Z unit session).
Proof.
  unfold cache_wf, dims_ok. repeat split; try (vm_compute; reflexivity);
    vm_compute; discriminate.
Qed.

(** C2, amended, on the session: a pass over two tokens at position 4,
    then one over one token at position 6. *)
Lemma kv_cache_slices_witness :
  kept Z unit (model Z unit session) model1 0 2 1
  /\ written Z unit k_embed k_qkv k_block (model Z unit session) 4 [3; 4]
       model1 1 5 0
  /\ kept Z unit (model Z unit session) model2 1 3 1
  /\ written Z unit k_embed k_qkv k_block (model Z unit session) 4 [3; 4]
       model2 0 4 1
  /\ written Z unit k_embed k_qkv k_block model1 6 [5] model2 1 6 0.
Proof.
  assert (Hp : in_i32 4) by (unfold in_i32; vm_compute; split; discriminate).
  assert (Hp0 : 0 <= 4) by discriminate.
  assert (He1 : 4 + input_length [3; 4]
                <= n_ctx (hparams Z unit (model Z unit session)))
    by (vm_compute; discriminate).
  assert (H1 : bloom_eval Z unit k_embed k_qkv k_block k_head ggml_used_mem
                 always scale_1_1 (model Z unit session) 4 4 [3; 4] [] 1
                 proc_init
               = Some (true, model1, logits1, 1, log_eval proc_init 4 [3; 4]))
    by (vm_compute; reflexivity).
  assert (He2 : 4 + input_length [3; 4] + input_length [5]
                <= n_ctx (hparams Z unit (model Z unit session)))
    by (vm_compute; discriminate).
  assert (H2 : bloom_eval Z unit k_embed k_qkv k_block k_head ggml_used_mem
                 always scale_1_1 model1 4 (4 + input_length [3; 4]) [5] [] 1
                 proc_init
               = Some (true, model2, [0; 1; 2; 3; 4; 5; 6; 7], 1,
                       log_eval proc_init 6 [5]))
    by (vm_compute; reflexivity).
  destruct (kv_cache_slices Z unit k_embed k_qkv k_block k_head ggml_used_mem
              always scale_1_1 _ _ _ _ _ _ _ _ _ _ _
              session_cache_wf Hp Hp0 He1 H1) as [Hone Htwo].
  assert (Hn : 0 <= input_length [3; 4]) by (vm_compute; discriminate).
  pose proof (Htwo _ _ _ _ _ _ _ _ _ Hn He2 H2) as Hboth.
  split; [apply (Hone 0 2 1); vm_compute; intuition discriminate|].
  split; [apply (Hone 1 5 0); vm_compute; intuition discriminate|].
  split; [apply (Hboth 1 3 1); vm_compute; intuition discriminate|].
  split; [apply (Hboth 0 4 1); vm_compute; intuition discriminate|].
  apply (Hboth 1 6 0); vm_compute; intuition discriminate.
Defined.

(** C2 fails outside the context.  The session has two layers of 16
    positions, and the pass of [bloom_load] has left the key 12082 and the
    value 12085 in position 0 of layer 1.  In a pass over two tokens at
    position 15, the iteration of layer 0 writes its second token over that
    position, which is neither in [15, 17) nor in layer 0; the iteration of
    layer 1 then writes behind the end of both cache tensors, so the pass
    as a whole has no defined result. *)
Theorem pass_beyond_context_overwrites :
  cell Z (hparams Z unit (model Z unit session))
    (memory_k Z unit (model Z unit session)) 1 0 0 = Some 12082
  /\ cell Z (hparams Z unit (model Z unit session))
       (memory_v Z unit (model Z unit session)) 1 0 1 = Some 12085
  /\ option_map
       (fun '(_, mk, mv) =>
          (cell Z (hparams Z unit (model Z unit session)) mk 1 0 0,
           cell Z (hparams Z unit (model Z unit session)) mv 1 0 1))
       (eval_upto Z unit k_embed k_qkv k_block tt (model Z unit session) 15
          [3; 4] [0])
     = Some (Some 1038, Some 1041)
  /\ eval always (model Z unit session) 4 15 [3; 4] [] 1 proc_init = None.
Proof. repeat split; vm_compute; reflexivity. Qed.

(** C8, amended, on the first of these passes. *)
Lemma last_logits_row_witness :
  returns_last_row Z unit k_embed k_qkv k_block k_head (model Z unit session)
    4 [3; 4] logits1.
Proof.
  apply (last_logits_row Z unit k_embed k_qkv k_block k_head ggml_used_mem
           always scale_1_1 (model Z unit session) 4 4 [3; 4] [] 1 proc_init
           model1 logits1 1 (log_eval proc_init 4 [3; 4])).
  - vm_compute. reflexivity.
  - vm_compute. discriminate.
  - vm_compute. discriminate.
Defined.

Lemma option_map_some (A B : Type) (f : A -> B) (o : option A) (b : B) :
  option_map f o = Some b -> exists a, o = Some a /\ f a = b.
Proof.
  destruct o as [a|]; simpl; [|discriminate]. intros [= <-]. now exists a.
Qed.

(** C8 fails on the wide model: the pass returns [true], and the row it
    returns starts with the first logit of the tensor, while row [N-1]
    starts with logit [65536 * 65536]. *)
Lemma wide_pass_returns_row_0 :
  ~ (forall m' lg mpt' g',
       wide_pass = Some (true, m', lg, mpt', g') ->
       returns_last_row Z unit k_embed k_qkv k_block k_head wide_model 0
         wide_input lg).
Proof.
  assert (Hret : option_map (fun '(ok, _, lg, _, _) => (ok, nth_error lg 0))
                   wide_pass = Some (true, Some 0))
    by (vm_compute; reflexivity).
  assert (Hrow : option_map
                   (fun logits =>
                      nth_error (logits_row Z wide_hparams logits
                                   (input_length wide_input - 1)) 0)
                   (eval_logits Z unit k_embed k_qkv k_block k_head wide_model
                      0 wide_input)
                 = Some (Some 4294967296))
    by (vm_compute; reflexivity).
  intros H.
  apply option_map_some in Hret.
  destruct Hret as ([[[[ok m'] lg] mpt'] g'] & Hwp & Hp).
  injection Hp as -> Hlg. change (nth_error lg 0 = Some 0) in Hlg.
  apply option_map_some in Hrow. destruct Hrow as (logits & Hl & Hrow).
  destruct (H m' lg mpt' g' Hwp) as (_ & logits' & Hl' & Heq).
  rewrite Hl in Hl'. injection Hl' as <-.
  change (hparams Z unit wide_model) with wide_hparams in Heq.
  rewrite <- Heq, Hlg in Hrow. discriminate.
Qed.

(** C6 on the file with the wrong magic constant. *)
Lemma bad_magic_fails_early_witness :
  load_model "bad.bin" (model Z unit (ChatContext_new Z unit)) gpt_vocab_empty
    16 proc_init
  = (false, model Z unit (ChatContext_new Z unit), gpt_vocab_empty, proc_init).
Proof.
  apply (bad_magic_fails_early Z unit fs 0 ctx_size_of always arena_junk
           read_weights "bad.bin" bad_bin).
  - reflexivity.
  - apply Nat.leb_le. vm_compute. reflexivity.
  - vm_compute. discriminate.
Defined.



(** *** The loader on the files *)

Ltac in_range := unfold in_i32, INT32_MIN, INT32_MAX; lia.

Ltac fields_in_range :=
  cbv [hparams_fields n_vocab n_embd n_mult n_head n_layer f16 toy_header
       f16_header new_model model ChatContext_new hparams
       bloom_hparams_default];
  repeat (apply Forall_cons; [in_range|]); apply Forall_nil.

Lemma quad_eta (A B C D : Type) (r : A * B * C * D) :
  r = (fst (fst (fst r)), snd (fst (fst r)), snd (fst r), snd r).
Proof. destruct r as [[[? ?] ?] ?]. reflexivity. Qed.

Lemma toy_loaded :
  bloom_model_load Z unit fs 0 ctx_size_of always arena_junk read_weights
    "toy.bin" new_model gpt_vocab_empty 16 proc_init
  = (true, model0, vocab0, proc0).
Proof. vm_compute. reflexivity. Qed.

(** X1 on the toy checkpoint, loaded with a context of 16 positions. *)
Lemma header_round_trip_witness :
  hparams_fields (hparams Z unit model0) = [8; 2; 1; 1; 2; 0]
  /\ n_ctx (hparams Z unit model0) = 16.
Proof.
  apply (header_round_trip Z unit fs 0 ctx_size_of always arena_junk
           read_weights "toy.bin" toy_header (vocab_bytes toy_words)
           new_model gpt_vocab_empty 16 proc_init true model0 vocab0 proc0).
  - reflexivity.
  - fields_in_range.
  - exact toy_loaded.
Defined.

(** X2 on the file cut after two fields: the model is left with the
    default values of the four fields that are missing. *)
Lemma truncated_header_keeps_fields_witness :
  hparams_fields
    (hparams Z unit
       (snd (fst (fst (load_model' "short.bin" new_model gpt_vocab_empty 16
                         proc_init)))))
  = [8; 2; 256; 32; 32; 1].
Proof.
  apply (truncated_header_keeps_fields Z unit more_fs 0 ctx_size_of always
           arena_junk read_none "short.bin" [8; 2] new_model
           gpt_vocab_empty 16 proc_init
           (fst (fst (fst (load_model' "short.bin" new_model gpt_vocab_empty
                             16 proc_init))))
           _
           (snd (fst (load_model' "short.bin" new_model gpt_vocab_empty 16
                        proc_init)))
           (snd (load_model' "short.bin" new_model gpt_vocab_empty 16
                   proc_init))).
  - reflexivity.
  - cbn. lia.
  - fields_in_range.
  - fields_in_range.
  - exact (quad_eta _ _ _ _
             (load_model' "short.bin" new_model gpt_vocab_empty 16 proc_init)).
Defined.

Lemma toy_words_short :
  Forall (fun w : list byte => Z.of_nat (List.length w) < 2 ^ 32) toy_words.
Proof. repeat (constructor; [cbn; lia|]). constructor. Qed.

(** X3 on the toy checkpoint: id 2 and the word ["c"]. *)
Lemma vocabulary_round_trip_witness :
  map.get (id_to_token vocab0) 2 = Some "c"%string
  /\ map.get (token_to_id vocab0) "c"%string = Some 2.
Proof.
  destruct (vocabulary_round_trip Z unit fs 0 ctx_size_of always arena_junk
              read_weights "toy.bin" toy_header toy_words [] new_model
              gpt_vocab_empty 16 proc_init true model0 vocab0 proc0
              eq_refl ltac:(fields_in_range) eq_refl toy_words_short
              toy_loaded 2%nat [Byte.x63] eq_refl) as [Hid Htok].
  split; [exact Hid|]. apply Htok.
  intros k w' Hk Hn.
  do 8 (destruct k as [|k]; [try lia; cbn in Hn; injection Hn as <-;
                             discriminate|]).
  destruct k; discriminate.
Defined.

(** X4 on the toy checkpoint: the bucket of ["c"], and no word behind a
    space. *)
Lemma vocabulary_buckets_witness :
  map.get (words vocab0) 99 = Some ["c"%string]
  /\ map.get (space_words vocab0) 99 = None.
Proof.
  apply (vocabulary_buckets Z unit fs 0 ctx_size_of always arena_junk
           read_weights "toy.bin" toy_header toy_words [] new_model 16
           proc_init true model0 vocab0 proc0
           eq_refl ltac:(fields_in_range) eq_refl toy_words_short
           toy_loaded 99).
Defined.

(** X5 on the checkpoint with an [f16] field of 7. *)
Lemma bad_f16_fails_without_arena_witness :
  exists m' v',
    load_model' "f16.bin" new_model gpt_vocab_empty 16 proc_init
    = (false, m', v', proc_init)
    /\ hparams_fields (hparams Z unit m') = [8; 2; 1; 1; 2; 7]
    /\ ctx Z unit m' = None /\ weights Z unit m' = None
    /\ memory_k Z unit m' = [] /\ memory_v Z unit m' = [].
Proof.
  apply (bad_f16_fails_without_arena Z unit more_fs 0 ctx_size_of always
           arena_junk read_none "f16.bin" f16_header
           (vocab_bytes toy_words) new_model gpt_vocab_empty 16 proc_init).
  - reflexivity.
  - fields_in_range.
  - cbn. lia.
  - cbn. lia.
Defined.

(** X15 on a file that does not exist and on the file with the wrong
    magic. *)
Lemma bloom_load_rejects_bad_file_witness :
  load "none.bin" 16 4 proc_init = Some (None, proc_init)
  /\ load "bad.bin" 16 4 proc_init = Some (None, proc_init).
Proof.
  split.
  - apply (bloom_load_rejects_bad_file Z unit k_embed k_qkv k_block k_head
             ggml_used_mem always scale_1_1 fs 0 ctx_size_of always arena_junk
             read_weights params "none.bin" 16 4 proc_init).
    left. reflexivity.
  - apply (bloom_load_rejects_bad_file Z unit k_embed k_qkv k_block k_head
             ggml_used_mem always scale_1_1 fs 0 ctx_size_of always arena_junk
             read_weights params "bad.bin" 16 4 proc_init).
    right. exists bad_bin. split; [reflexivity|]. split.
    + apply Nat.leb_le. vm_compute. reflexivity.
    + vm_compute. discriminate.
Defined.

(** X16 on the session of the toy checkpoint. *)
Lemma bloom_load_session_wf_witness :
  cache_wf Z unit (model Z unit session)
  /\ weights Z unit (model Z unit session) <> None
  /\ n_ctx (hparams Z unit (model Z unit session)) = 16
  /\ n_past Z unit session = 0.
Proof.
  apply (bloom_load_session_wf Z unit k_embed k_qkv k_block k_head
           ggml_used_mem always scale_1_1 fs 0 ctx_size_of always arena_junk
           read_weights params "toy.bin" 16 4 proc_init session session_proc
           loaded_session).
  unfold dims_ok. repeat split; vm_compute; discriminate.
Defined.

(** *** Passes, runs and turns of the instance *)

(** X6 on the session: the scratch buffer is smaller than the estimate for
    two tokens, and [realloc] fails. *)
Lemma eval_fails_only_on_realloc_witness :
  exists g',
    bloom_eval Z unit k_embed k_qkv k_block k_head ggml_used_mem never
      scale_1_1 (model Z unit session) 4 0 [3; 4] []
      (mem_per_token Z unit session) session_proc
    = Some (false, model Z unit session, [], mem_per_token Z unit session, g')
    /\ buf_size session_proc
       < u64 (mem_per_token Z unit session * u64 (input_length [3; 4]))
    /\ never (buf_size g') = false.
Proof.
  assert (Hr : option_map (fun '(ok, _, _, _, _) => ok)
                 (bloom_eval Z unit k_embed k_qkv k_block k_head ggml_used_mem
                    never scale_1_1 (model Z unit session) 4 0 [3; 4] []
                    (mem_per_token Z unit session) session_proc)
               = Some false) by (vm_compute; reflexivity).
  apply option_map_some in Hr.
  destruct Hr as ([[[[ok m'] lg] mpt'] g'] & E & Eok). cbn in Eok. subst ok.
  destruct (eval_fails_only_on_realloc Z unit k_embed k_qkv k_block k_head
              ggml_used_mem never scale_1_1 (model Z unit session) 4 0 [3; 4]
              [] (mem_per_token Z unit session) session_proc m' lg mpt' g' E)
    as (Em & El & Ep & _ & Hb & _ & Hn).
  exists g'. rewrite E, Em, El, Ep. split; [reflexivity|]. split; assumption.
Defined.

(** X7 on the session: two tokens at position 15 of 16. *)
Lemma eval_outside_context_undefined_witness :
  bloom_eval Z unit k_embed k_qkv k_block k_head ggml_used_mem always
    scale_1_1 (model Z unit session) 4 15 [3; 4] [] 1 proc_init
  = None
  \/ exists g',
       bloom_eval Z unit k_embed k_qkv k_block k_head ggml_used_mem always
         scale_1_1 (model Z unit session) 4 15 [3; 4] [] 1 proc_init
       = Some (false, model Z unit session, [], 1, g').
Proof.
  apply (eval_outside_context_undefined Z unit k_embed k_qkv k_block k_head
           ggml_used_mem always scale_1_1 (model Z unit session) 4 15 [3; 4]
           [] 1 proc_init).
  - exact session_cache_wf.
  - in_range.
  - vm_compute. reflexivity.
  - vm_compute. discriminate.
  - right. vm_compute. reflexivity.
Defined.

Lemma session_n_ctx :
  0 <= n_ctx (hparams Z unit (model Z unit session)) <= INT32_MAX.
Proof. split; vm_compute; discriminate. Qed.

Lemma run_returns :
  ret_of (bloom_run Z unit k_embed k_qkv k_block k_head ggml_used_mem always
            scale_1_1 params Z (fun s => s) tokenize sample session 1000 42 4
            1 2 "abc" session_proc)
  = Some 0.
Proof. vm_compute. reflexivity. Qed.

(** X8 on a run over ["abc"] with two tokens to predict: the passes stay
    below position 5. *)
Lemma bloom_run_passes_witness :
  exists tr q,
    evals_of (bloom_run Z unit k_embed k_qkv k_block k_head ggml_used_mem
                always scale_1_1 params Z (fun s => s) tokenize sample session
                1000 42 4 1 2 "abc" session_proc)
    = Some (evals session_proc ++ tr)
    /\ chained 0 tr q /\ Forall (pass_below 5) tr.
Proof.
  destruct (option_map_some _ _ _ _ _ run_returns)
    as ([[[ret cc'] dst] g'] & E & _).
  assert (Hl : Z.of_nat (List.length (tokenize (vocab Z unit session) "abc"
                                        false)) <= INT32_MAX)
    by (vm_compute; discriminate).
  destruct (bloom_run_passes Z unit k_embed k_qkv k_block k_head ggml_used_mem
              always scale_1_1 params Z (fun s => s) tokenize sample session
              1000 42 4 1 2 "abc" session_proc ret cc' dst g'
              ltac:(lia) session_n_ctx Hl E)
    as (tr & q & H1 & H2 & H3).
  exists tr, q. rewrite E. cbn [evals_of option_map]. rewrite H1.
  split; [reflexivity|]. split; [exact H2|].
  match type of H3 with
  | Forall (pass_below ?b) _ =>
      assert (Hb : b = 5) by (vm_compute; reflexivity)
  end.
  rewrite Hb in H3. exact H3.
Defined.


Lemma session1_cache_wf : cache_wf Z unit (model Z unit session1).
Proof.
  unfold cache_wf, dims_ok. repeat split; try (vm_compute; reflexivity);
    vm_compute; discriminate.
Qed.

Lemma session1_n_layer : 0 < n_layer (hparams Z unit (model Z unit session1)).
Proof. vm_compute. reflexivity. Qed.

Lemma session1_n_past : 0 <= n_past Z unit session1.
Proof. vm_compute. discriminate. Qed.

Lemma turn2_suffix :
  text_from "abefgcd" (n_chars Z unit session1) = Some "cd"%string.
Proof. vm_compute. reflexivity. Qed.

Lemma turn2_input :
  chat_embd_inp Z tokenize (entry_params Z params 1000 42 4 8 3 "cd")
    (vocab Z unit session1) (last_n_tokens Z unit session1)
  = Some [6; 5; 6].
Proof. vm_compute. reflexivity. Qed.

(** The input of the second turn ends at position 7 of 16. *)
Lemma turn2_fits :
  n_past Z unit session1 + Z.of_nat (List.length [6; 5; 6])
  <= n_ctx (hparams Z unit (model Z unit session1)).
Proof. vm_compute. discriminate. Qed.

Lemma turn2_budget :
  1 <= Z.min (n_past Z unit session1 + Z.of_nat (List.length [6; 5; 6]) + 3)
         (n_ctx (hparams Z unit (model Z unit session1))).
Proof. vm_compute. discriminate. Qed.

Lemma turn2_returns :
  ret_of (bloom_chat Z unit k_embed k_qkv k_block k_head ggml_used_mem always
            scale_1_1 params Z (fun s => s) tokenize sample heap_junk session1
            1000 42 4 8 3 "abefgcd" proc1)
  = Some 0.
Proof. vm_compute. reflexivity. Qed.

(** X10 on the second turn of the conversation: the passes go on from
    position 4 and stay within the 16 positions. *)
Lemma bloom_chat_passes_witness :
  exists tr q,
    evals_of (bloom_chat Z unit k_embed k_qkv k_block k_head ggml_used_mem
                always scale_1_1 params Z (fun s => s) tokenize sample
                heap_junk session1 1000 42 4 8 3 "abefgcd" proc1)
    = Some (evals proc1 ++ tr)
    /\ chained 4 tr q
    /\ Forall (pass_within 16) tr.
Proof.
  destruct (option_map_some _ _ _ _ _ turn2_returns)
    as ([[[ret cc'] dst] g'] & E & _).
  destruct (bloom_chat_passes Z unit k_embed k_qkv k_block k_head
              ggml_used_mem always scale_1_1 params Z (fun s => s) tokenize
              sample heap_junk session1 1000 42 4 8 3 "abefgcd" proc1 ret cc'
              dst g' "cd" [6; 5; 6] session1_cache_wf session1_n_layer
              turn2_suffix turn2_input session1_n_past turn2_fits
              turn2_budget E)
    as (tr & q & H1 & H2 & H3 & _).
  exists tr, q. rewrite E. cbn [evals_of option_map]. rewrite H1.
  split; [reflexivity|].
  assert (Hp : n_past Z unit session1 = 4) by (vm_compute; reflexivity).
  assert (Hc : n_ctx (hparams Z unit (model Z unit session1)) = 16)
    by (vm_compute; reflexivity).
  rewrite Hp in H2. rewrite Hc in H3. split; [exact H2|exact H3].
Defined.

(** X11 on the second turn: layer 0, position 2, element 1 of the cache. *)
Lemma bloom_chat_keeps_earlier_turns_witness :
  exists cc',
    option_map (fun '(_, cc, _, _) => cc)
      (bloom_chat Z unit k_embed k_qkv k_block k_head ggml_used_mem always
         scale_1_1 params Z (fun s => s) tokenize sample heap_junk session1
         1000 42 4 8 3 "abefgcd" proc1)
    = Some cc'
    /\ kept Z unit (model Z unit session1) (model Z unit cc') 0 2 1.
Proof.
  destruct (option_map_some _ _ _ _ _ turn2_returns)
    as ([[[ret cc'] dst] g'] & E & _).
  exists cc'. rewrite E. split; [reflexivity|].
  apply (bloom_chat_keeps_earlier_turns Z unit k_embed k_qkv k_block k_head
           ggml_used_mem always scale_1_1 params Z (fun s => s) tokenize
           sample heap_junk session1 1000 42 4 8 3 "abefgcd" proc1 ret cc'
           dst g' "cd" [6; 5; 6] session1_cache_wf session1_n_layer
           turn2_suffix turn2_input session1_n_past turn2_fits turn2_budget
           E).
  - split; vm_compute; [discriminate|reflexivity].
  - split; vm_compute; [discriminate|reflexivity].
  - split; vm_compute; [discriminate|reflexivity].
Defined.

(** X12 on the second turn. *)
Lemma bloom_chat_keeps_session_witness :
  exists cc',
    option_map (fun '(_, cc, _, _) => cc)
      (bloom_chat Z unit k_embed k_qkv k_block k_head ggml_used_mem always
         scale_1_1 params Z (fun s => s) tokenize sample heap_junk session1
         1000 42 4 8 3 "abefgcd" proc1)
    = Some cc'
    /\ cache_wf Z unit (model Z unit cc')
    /\ hparams Z unit (model Z unit cc') = hparams Z unit (model Z unit session1)
    /\ vocab Z unit cc' = vocab Z unit session1
    /\ n_past Z unit session1 <= n_past Z unit cc'
       <= n_ctx (hparams Z unit (model Z unit cc')).
Proof.
  destruct (option_map_some _ _ _ _ _ turn2_returns)
    as ([[[ret cc'] dst] g'] & E & _).
  exists cc'. rewrite E. split; [reflexivity|].
  destruct (bloom_chat_keeps_session Z unit k_embed k_qkv k_block k_head
              ggml_used_mem always scale_1_1 params Z (fun s => s) tokenize
              sample heap_junk session1 1000 42 4 8 3 "abefgcd" proc1 ret cc'
              dst g' "cd" [6; 5; 6] session1_cache_wf session1_n_layer
              turn2_suffix turn2_input session1_n_past turn2_fits
              turn2_budget E)
    as (H1 & H2 & _ & H4 & _ & _ & H7).
  split; [exact H1|]. split; [exact H2|]. split; [exact H4|exact H7].
Defined.

Lemma turn1_returns :
  ret_of (bloom_chat Z unit k_embed k_qkv k_block k_head ggml_used_mem always
            scale_1_1 params Z (fun s => s) tokenize sample heap_junk session
            1000 42 4 8 3 "ab" session_proc)
  = Some 0.
Proof. vm_compute. reflexivity. Qed.


(** X14 on the first turn: two tokens are submitted, at most three words
    follow the text, and the position moves on by the tokens evaluated. *)
Lemma bloom_chat_budget_witness :
  exists cc' ws,
    option_map (fun '(_, cc, dst, _) => (cc, dst))
      (bloom_chat Z unit k_embed k_qkv k_block k_head ggml_used_mem always
         scale_1_1 params Z (fun s => s) tokenize sample heap_junk session
         1000 42 4 8 3 "ab" session_proc)
    = Some (cc', "ab"%string :: ws)
    /\ 1 <= Z.of_nat (List.length ws) <= 3
    /\ n_past Z unit cc' = 2 + Z.of_nat (List.length ws) - 1.
Proof.
  destruct (option_map_some _ _ _ _ _ turn1_returns)
    as ([[[ret cc'] dst] g'] & E & Eret).
  cbn in Eret. subst ret.
  assert (Ht : text_from "ab" (n_chars Z unit session) = Some "ab"%string)
    by (vm_compute; reflexivity).
  assert (He : chat_embd_inp Z tokenize
                 (entry_params Z params 1000 42 4 8 3 "ab")
                 (vocab Z unit session) (last_n_tokens Z unit session)
               = Some [3; 4]) by (vm_compute; reflexivity).
  assert (Hp : 0 <= n_past Z unit session) by (vm_compute; discriminate).
  assert (Hi : n_past Z unit session + Z.of_nat (List.length [3; 4])
               <= INT32_MAX) by (vm_compute; discriminate).
  assert (Hm : 1 <= Z.min (n_past Z unit session
                           + Z.of_nat (List.length [3; 4]) + 3)
                      (n_ctx (hparams Z unit (model Z unit session))))
    by (vm_compute; discriminate).
  destruct (bloom_chat_budget Z unit k_embed k_qkv k_block k_head
              ggml_used_mem always scale_1_1 params Z (fun s => s) tokenize
              sample heap_junk session 1000 42 4 8 3 "ab" session_proc cc' dst
              g' "ab" [3; 4] (fun _ => eq_refl) Ht He Hp Hi session_n_ctx Hm E)
    as (ws & H1 & H2 & H3).
  exists cc', ws. rewrite E. cbn [option_map]. rewrite <- H1.
  split; [reflexivity|].
  match type of H2 with
  | _ <= _ <= ?b => assert (Hb : b = 3) by (vm_compute; reflexivity)
  end.
  rewrite Hb in H2. split; [exact H2|].
  match type of H3 with
  | _ = ?a + _ - 1 => assert (Hq : a = 2) by (vm_compute; reflexivity)
  end.
  rewrite Hq in H3. exact H3.
Defined.

(** *** Tensor records of the files *)

Lemma offset_in_range : 0 <= 68 < 2 ^ 63.
Proof. split; [discriminate|reflexivity]. Qed.

Ltac header_fits :=
  unfold header_ok;
  cbv [r_dims r_ftype r_name norm_record output_record bogus_record
       long_record];
  split; [apply Nat.leb_le; reflexivity|];
  split; [repeat (apply Forall_cons; [in_range|]); apply Forall_nil|];
  split; [in_range|]; vm_compute; discriminate.

Lemma norm_record_header_ok : header_ok norm_record.
Proof.
  header_fits.
Qed.

Lemma norm_record_fits :
  record_fits type_size blck_size nelements nbytes false toy_tensors
    norm_record norm_tensor.
Proof.
  unfold record_fits. split; [exact norm_record_header_ok|].
  split; [vm_compute; reflexivity|]. split; [reflexivity|].
  split; [reflexivity|]. split; [reflexivity|].
  split; [|vm_compute; discriminate].
  exists 4. split; vm_compute; reflexivity.
Qed.

Lemma output_record_fits :
  record_fits type_size blck_size nelements nbytes false toy_tensors
    output_record output_tensor.
Proof.
  unfold record_fits. split.
  - header_fits.
  - split; [vm_compute; reflexivity|]. split; [reflexivity|].
    split; [reflexivity|]. split; [reflexivity|].
    split; [|vm_compute; discriminate].
    exists 2. split; vm_compute; reflexivity.
Qed.

(** X17 on the toy checkpoint, which ends after the vocabulary. *)
Lemma tensor_section_may_be_missing_witness :
  load_weights more_fs 0 type_size blck_size nelements nbytes false no_split
    "toy.bin" 68 1 toy_tensors
  = Some (true, toy_tensors).
Proof.
  apply (tensor_section_may_be_missing more_fs 0 type_size blck_size nelements
           nbytes false no_split "toy.bin" toy_bin 68 toy_tensors).
  - reflexivity.
  - exact offset_in_range.
  - apply Nat.ltb_lt. vm_compute. reflexivity.
Defined.

(** X18 on the checkpoint with a record for [bogus.weight]. *)
Lemma unknown_tensor_rejected_witness :
  load_weights more_fs 0 type_size blck_size nelements nbytes false no_split
    "bogus.bin" 68 1 toy_tensors
  = Some (false, toy_tensors).
Proof.
  apply (unknown_tensor_rejected more_fs 0 type_size blck_size nelements
           nbytes false no_split "bogus.bin" bogus_bin 68 toy_tensors
           bogus_record (r_data bogus_record)).
  - reflexivity.
  - exact offset_in_range.
  - vm_compute. reflexivity.
  - header_fits.
  - vm_compute. reflexivity.
Defined.

(** X19 on the checkpoint with three records: both tensors take the data of
    their records. *)
Lemma tensor_records_round_trip_witness :
  exists tensors,
    load_weights more_fs 0 type_size blck_size nelements nbytes false no_split
      "full.bin" 68 1 toy_tensors
    = Some (true, tensors)
    /\ option_map t_data (map.get tensors "norm.weight"%string)
       = Some (r_data norm_record)
    /\ option_map t_data (map.get tensors "output.weight"%string)
       = Some (r_data output_record).
Proof.
  exists (fold_left store [output_record; norm_record; output_record]
            toy_tensors).
  split; [|split; vm_compute; reflexivity].
  apply (tensor_records_round_trip more_fs 0 type_size blck_size nelements
           nbytes false no_split "full.bin" full_bin 68 toy_tensors
           [output_record; norm_record; output_record]).
  - reflexivity.
  - exact offset_in_range.
  - vm_compute. reflexivity.
  - repeat apply Forall_cons; try apply Forall_nil.
    + exists output_tensor. split; [exact output_record_fits|reflexivity].
    + exists norm_tensor. split; [exact norm_record_fits|reflexivity].
    + exists output_tensor. split; [exact output_record_fits|reflexivity].
  - vm_compute. discriminate.
Defined.

(** X20 on the checkpoint that ends three bytes into the data of
    [norm.weight]: the load succeeds, and the tensor holds the three bytes
    followed by what it held before. *)
Lemma truncated_tensor_data_accepted_witness :
  exists tensors,
    load_weights more_fs 0 type_size blck_size nelements nbytes false no_split
      "cut.bin" 68 1 toy_tensors
    = Some (true, tensors)
    /\ option_map t_data (map.get tensors "norm.weight"%string)
       = Some ([Byte.x01; Byte.x02; Byte.x03] ++ repeat Byte.xff 5).
Proof.
  eexists. split.
  - apply (truncated_tensor_data_accepted more_fs 0 type_size blck_size
             nelements nbytes false no_split "cut.bin" cut_bin 68 toy_tensors
             norm_record norm_tensor [Byte.x01; Byte.x02; Byte.x03]).
    + reflexivity.
    + exact offset_in_range.
    + vm_compute. reflexivity.
    + exact norm_record_fits.
    + vm_compute. reflexivity.
  - vm_compute. reflexivity.
Defined.

(** X21 on the checkpoint whose record gives [norm.weight] three
    elements. *)
Lemma mismatched_record_rejected_witness :
  load_weights more_fs 0 type_size blck_size nelements nbytes false no_split
    "long.bin" 68 1 toy_tensors
  = Some (false, toy_tensors).
Proof.
  apply (mismatched_record_rejected more_fs 0 type_size blck_size nelements
           nbytes false no_split "long.bin" long_bin 68 toy_tensors
           long_record norm_tensor (r_data long_record)).
  - reflexivity.
  - exact offset_in_range.
  - vm_compute. reflexivity.
  - header_fits.
  - vm_compute. reflexivity.
  - left. vm_compute. discriminate.
Defined.

(** X22 on the run over ["abc"] after the first turn of the conversation:
    the session still stands at position 4, while the run has evaluated
    from position 0. *)
Lemma bloom_run_keeps_session_witness :
  exists cc',
    option_map (fun '(_, cc, _, _) => cc)
      (bloom_run Z unit k_embed k_qkv k_block k_head ggml_used_mem always
         scale_1_1 params Z (fun s => s) tokenize sample session1 1000 42 4 1
         2 "abc" proc1)
    = Some cc'
    /\ n_past Z unit cc' = 4
    /\ cache_wf Z unit (model Z unit cc')
    /\ hparams Z unit (model Z unit cc')
       = hparams Z unit (model Z unit session1).
Proof.
  assert (Hr : ret_of (bloom_run Z unit k_embed k_qkv k_block k_head
                         ggml_used_mem always scale_1_1 params Z (fun s => s)
                         tokenize sample session1 1000 42 4 1 2 "abc" proc1)
               = Some 0) by (vm_compute; reflexivity).
  apply option_map_some in Hr. destruct Hr as ([[[ret cc'] dst] g'] & E & _).
  assert (Hc : 0 <= n_ctx (hparams Z unit (model Z unit session1))
               <= INT32_MAX) by (split; vm_compute; discriminate).
  assert (Hl : Z.of_nat (List.length (tokenize (vocab Z unit session1) "abc"
                                        false)) <= INT32_MAX)
    by (vm_compute; discriminate).
  destruct (bloom_run_keeps_session Z unit k_embed k_qkv k_block k_head
              ggml_used_mem always scale_1_1 params Z (fun s => s) tokenize
              sample session1 1000 42 4 1 2 "abc" proc1 ret cc' dst g'
              ltac:(lia) Hc Hl E)
    as (H1 & _ & H3 & _ & _ & H6 & _).
  exists cc'. rewrite E. split; [reflexivity|].
  assert (Hp : n_past Z unit session1 = 4) by (vm_compute; reflexivity).
  rewrite H6, Hp. split; [reflexivity|].
  split; [exact (H3 session1_cache_wf)|exact H1].
Defined.

End Toy.
